(** * RepoMind: call extraction, diagram rendering and tree search

    A shallow embedding of the parts of RepoMind that its specification
    talks about:

    - [JS]: JavaScript strings as sequences of UTF-16 code units, with
      [substring], [trim] and [includes], and the lookup of a property
      in an object created by [{}], which sees [Object.prototype];
    - [TreeSearch]: the filter of [TreeSearch.tsx];
    - [StructureService]: the two fetchers of [structureService.ts];
    - [Extractor]: the syntax-tree walk of [extract_calls.js];
    - [Renderer]: the message, block and region loops of the three
      sequence-diagram components;
    - [Assembler], [Pipeline], [Cycles]: the interaction-model
      assembler, its place after the extractor, and the dependency-cycle
      detector, which the sources do not contain and which are modelled
      from the specification;
    - [Samples], [DiagramSamples]: small units and diagram data on which
      the definitions are run;
    - [TreeStats]: [formatFileSize] and [getTopItems] of [TreeStats.tsx];
    - [LineSamples]: a unit of two lines for the extractor;
    - [Layout]: the tracks of [AsyncSequenceDiagram.tsx] and the
      predicates that describe where regions and tracks lie;
    - [Tracks]: the track context of the assembler, modelled from the
      specification, and the regions it records, for the tracks that
      [AsyncSequenceDiagram.tsx] is given;
    - [Icons], [TreeSearchView], [TreeView]: [FileIcon] and
      [FolderIcon], the result list of [TreeSearch.tsx], and
      [flattenedNodes], [FileTreeNode] and the state of the tree view;
    - [DependencyGraph], [SequenceDiagramContainer]: the dependency
      lists and the pan by dragging of [DependencyGraph.tsx], and
      [handlePan].

    The definitions come first; the properties follow, module by
    module, from [JSFacts] on. *)

From Stdlib Require Import ZArith Lia Ascii String.
From Stdlib Require DecimalString DecimalPos DecimalZ.
From stdpp Require Import base option list sorting gmap strings.

Local Open Scope general_if_scope.
Set Warnings "-register-all".

(** ** JavaScript strings *)

Module JS.

(** A JavaScript string is a sequence of UTF-16 code units. *)
Definition jsstring : Type := list N.

(** A literal of the source, written in ASCII. *)
Definition lit (s : string) : jsstring :=
  map Ascii.N_of_ascii (String.list_ascii_of_string s).

(** [WhiteSpace] and [LineTerminator] of ECMAScript: what
    [String.prototype.trim] removes. *)
Definition isWhiteSpace (c : N) : bool :=
  ((9 <=? c) && (c <=? 13) || (c =? 32) || (c =? 160) || (c =? 5760)
   || (8192 <=? c) && (c <=? 8202) || (c =? 8232) || (c =? 8233)
   || (c =? 8239) || (c =? 8287) || (c =? 12288) || (c =? 65279))%N.

Fixpoint trimStart (s : jsstring) : jsstring :=
  match s with
  | c :: s' => if isWhiteSpace c then trimStart s' else s
  | [] => []
  end.

Definition trimEnd (s : jsstring) : jsstring :=
  rev (trimStart (rev s)).

Definition trim (s : jsstring) : jsstring := trimEnd (trimStart s).

(** A piece made of white space only (or empty). *)
Definition blank (ws : jsstring) : Prop :=
  Forall (fun c => isWhiteSpace c = true) ws.

(** [s.substring(a, b)]: both indices are clamped to the length and
    swapped when out of order. *)
Definition substring (s : jsstring) (a b : nat) : jsstring :=
  let a' := a `min` length s in
  let b' := b `min` length s in
  take (a' `max` b' - a' `min` b') (drop (a' `min` b') s).

Fixpoint startsWith (needle hay : jsstring) : bool :=
  match needle, hay with
  | [], _ => true
  | _ :: _, [] => false
  | c :: needle', d :: hay' => (c =? d)%N && startsWith needle' hay'
  end.

(** [hay.includes(needle)]: a search from every start position. *)
Fixpoint includes (hay needle : jsstring) : bool :=
  startsWith needle hay ||
  match hay with
  | [] => false
  | _ :: hay' => includes hay' needle
  end.

(** [parts.join(sep)] on an array of strings. *)
Fixpoint join (sep : jsstring) (parts : list jsstring) : jsstring :=
  match parts with
  | [] => []
  | [p] => p
  | p :: parts' => p ++ sep ++ join sep parts'
  end.

(** JavaScript truthiness of a string: the empty string is falsy. *)
Definition truthy (s : jsstring) : bool :=
  match s with [] => false | _ :: _ => true end.

(** [toLowerCase] restricted to the ASCII letters; the examples use it
    where the development takes the Unicode mapping as a parameter. *)
Definition asciiLower (s : jsstring) : jsstring :=
  map (fun c => if ((65 <=? c) && (c <=? 90))%N then (c + 32)%N else c) s.

Definition asciiUpper (s : jsstring) : jsstring :=
  map (fun c => if ((97 <=? c) && (c <=? 122))%N then (c - 32)%N else c) s.

(** *** Objects used as maps *)

(** The property names of [Object.prototype]. An object created by [{}]
    inherits them: [o[key]] gives the built-in of that name when [o] has
    no property [key] of its own. The built-ins are taken to be the
    ones of the language, unmodified. *)
Definition objectPrototype : list jsstring :=
  map lit
    [ "constructor"; "__defineGetter__"; "__defineSetter__"; "hasOwnProperty";
      "__lookupGetter__"; "__lookupSetter__"; "isPrototypeOf";
      "propertyIsEnumerable"; "toString"; "valueOf"; "__proto__";
      "toLocaleString" ]%string.

Definition inObjectPrototype (key : jsstring) : bool :=
  bool_decide (key ∈ objectPrototype).

(** What [o[key]] finds. *)
Inductive property (V : Type) : Type :=
| Own (v : V)                     (* a property of the object itself *)
| Inherited (prototype : V)       (* the field [key] of its prototype *)
| Builtin                         (* a built-in of [Object.prototype] *)
| Absent.                         (* [undefined] *)

Arguments Own {V} v.
Arguments Inherited {V} prototype.
Arguments Builtin {V}.
Arguments Absent {V}.

(** An object created by [{}] is the finite map of its properties. Of
    these [__proto__] is special: it is an accessor of
    [Object.prototype], so that the assignment [o['__proto__'] = v] of
    an object [v] creates no property and makes [v] the prototype of
    [o], and the read [o['__proto__']] gives the prototype. The map
    keeps at [__proto__] the object that such an assignment made the
    prototype; with that, [<[key := v]>] is the assignment
    [o[key] = v] of an object for every key. An object literal with a
    computed key or a spread creates a property [__proto__] instead; the
    map keeps that property at the same place, and the reads of such an
    object are [getProp] with no [fields].

    [getProp fields o key] is the read [o[key]], where [fields] are the
    names of the properties of the objects assigned: the property of
    [o], else the field of the prototype that was assigned, else the
    built-in of [Object.prototype]. *)
Definition getProp {V} (fields : list jsstring) (o : gmap jsstring V)
    (key : jsstring) : property V :=
  match o !! key with
  | Some v => Own v
  | None =>
      match o !! lit "__proto__" with
      | Some prototype =>
          if bool_decide (key ∈ fields) then Inherited prototype
          else if inObjectPrototype key then Builtin else Absent
      | None => if inObjectPrototype key then Builtin else Absent
      end
  end.

End JS.

(** ** TreeSearch.tsx *)

Module TreeSearch.
Import JS.

Record TreeNode := mkTreeNode {
  id : jsstring;
  name : jsstring;
  path : jsstring;
  isDirectory : bool
}.

(** The component state that [performSearch] reads and writes. *)
Record state := mkState {
  searchTerm : jsstring;
  searchResults : list TreeNode;
  isSearching : bool
}.

Section Search.

(** [String.prototype.toLowerCase], the Unicode mapping of the engine. *)
Variable toLowerCase : jsstring -> jsstring.

Definition setSearchResults (r : list TreeNode) (st : state) : state :=
  mkState (searchTerm st) r (isSearching st).

Definition setIsSearching (b : bool) (st : state) : state :=
  mkState (searchTerm st) (searchResults st) b.

(** The callback of lines 30-47, on the [nodes] property. *)
Definition performSearch (nodes : list TreeNode) (st : state) : state :=
  if negb (truthy (trim (searchTerm st))) then
    setIsSearching false (setSearchResults [] st)
  else
    let st := setIsSearching true st in
    let lowerSearchTerm := toLowerCase (searchTerm st) in
    let results :=
      List.filter (fun node =>
        includes (toLowerCase (name node)) lowerSearchTerm
        || includes (toLowerCase (path node)) lowerSearchTerm) nodes in
    setIsSearching false (setSearchResults results st).

(** Containment without regard to case: the lower-cased
    text holds the lower-cased term as a contiguous piece. *)
Definition contains_ci (text term : jsstring) : Prop :=
  exists pre post, toLowerCase text = pre ++ toLowerCase term ++ post.

Definition node_matches (term : jsstring) (node : TreeNode) : Prop :=
  contains_ci (name node) term \/ contains_ci (path node) term.

(** Empty, or made of white space and line terminators only. *)
Definition whitespace_only (term : jsstring) : Prop := blank term.

End Search.

(** The nodes of [TreeSearch.test.tsx]. *)
Definition mockNodes : list TreeNode :=
  [ mkTreeNode (lit "1") (lit "src") (lit "/src") true;
    mkTreeNode (lit "2") (lit "components") (lit "/src/components") true;
    mkTreeNode (lit "3") (lit "App.tsx") (lit "/src/App.tsx") false;
    mkTreeNode (lit "4") (lit "index.tsx") (lit "/src/index.tsx") false;
    mkTreeNode (lit "5") (lit "Button.tsx") (lit "/src/components/Button.tsx") false;
    mkTreeNode (lit "6") (lit "utils") (lit "/src/utils") true;
    mkTreeNode (lit "7") (lit "helpers.ts") (lit "/src/utils/helpers.ts") false ].

End TreeSearch.

(** ** structureService.ts *)

Module StructureService.
Import JS.

(** A settled promise: the awaited value, or the reason of the rejection. *)
Inductive outcome (A E : Type) : Type :=
| Resolved (a : A)
| Rejected (e : E).
Arguments Resolved {A E} a.
Arguments Rejected {A E} e.

(** A thrown error object: the name of its constructor and its message. *)
Record exn := mkExn { ctor : string; message : jsstring }.

Section Service.

(** The numbers of a JSON text, with the two operations the code applies
    to them: the zero test of truthiness and the conversion to a string. *)
Variable number : Type.
Variable isZero : number -> bool.
Variable NumberToString : number -> jsstring.

(** The result of [JSON.parse]. An object keeps its members in the order
    of the text; a later member of the same name overrides an earlier one. *)
Inductive json : Type :=
| JNull
| JBool (b : bool)
| JNumber (n : number)
| JString (s : jsstring)
| JArray (items : list json)
| JObject (members : list (jsstring * json)).

(** The part of a [Response] that the service reads. *)
Record Response := mkResponse {
  ok : bool;
  statusText : jsstring;
  json_ : outcome json exn      (* what [response.json()] settles to *)
}.

Fixpoint lookup_member (key : jsstring) (members : list (jsstring * json))
  : option json :=
  match members with
  | [] => None
  | (k, v) :: members' =>
      match lookup_member key members' with
      | Some v' => Some v'
      | None => if decide (k = key) then Some v else None
      end
  end.

(** [v.detail]: reading a property of [null] throws; an object gives its
    member or [undefined] ([None]); the other values have no such property. *)
Definition get_detail (v : json) : outcome (option json) exn :=
  match v with
  | JNull =>
      Rejected (mkExn "TypeError"
        (lit "Cannot read properties of null (reading 'detail')"))
  | JObject members => Resolved (lookup_member (lit "detail") members)
  | _ => Resolved None
  end.

Definition truthy_json (v : json) : bool :=
  match v with
  | JNull => false
  | JBool b => b
  | JNumber n => negb (isZero n)
  | JString s => truthy s
  | JArray _ | JObject _ => true
  end.

(** The error of converting an object without a usable [toString] or
    [valueOf] to a string. *)
Definition cannotConvert : exn :=
  mkExn "TypeError" (lit "Cannot convert object to primitive value").

(** [ToString], which [new Error(v)] applies to its argument. An array
    is joined by [Array.prototype.join], which converts its elements in
    order and prints [null] as the empty string. An object parsed from
    JSON is printed by [Object.prototype.toString], unless it has a
    member [toString] of its own: no JSON value is callable, and the
    conversion then throws, with or without a member [valueOf]. *)
Fixpoint ToString (v : json) : outcome jsstring exn :=
  match v with
  | JNull => Resolved (lit "null")
  | JBool true => Resolved (lit "true")
  | JBool false => Resolved (lit "false")
  | JNumber n => Resolved (NumberToString n)
  | JString s => Resolved s
  | JArray items =>
      let fix each (items : list json) : outcome (list jsstring) exn :=
        match items with
        | [] => Resolved []
        | item :: items' =>
            match
              match item with JNull => Resolved [] | _ => ToString item end
            with
            | Rejected e => Rejected e
            | Resolved s =>
                match each items' with
                | Rejected e => Rejected e
                | Resolved parts => Resolved (s :: parts)
                end
            end
        end in
      match each items with
      | Rejected e => Rejected e
      | Resolved parts => Resolved (join (lit ",") parts)
      end
  | JObject members =>
      match lookup_member (lit "toString") members with
      | Some _ => Rejected cannotConvert
      | None => Resolved (lit "[object Object]")
      end
  end.


(** [params.toString()] of a [URLSearchParams] holding one [exclude_dirs]
    entry per directory; [formEncode] is its percent-encoding of a value. *)
Variable formEncode : jsstring -> jsstring.

Definition query (excludeDirs : list jsstring) : jsstring :=
  join (lit "&") (map (fun dir => lit "exclude_dirs=" ++ formEncode dir) excludeDirs).

Definition request_url (base : jsstring) (repositoryId : jsstring)
    (excludeDirs : option (list jsstring)) : jsstring :=
  let url := base ++ repositoryId in
  match excludeDirs with
  | Some ((_ :: _) as dirs) => url ++ lit "?" ++ query dirs
  | _ => url
  end.

(** The network: what [fetch(url)] settles to. *)
Variable fetch : jsstring -> outcome Response exn.

(** The body shared by both fetchers, lines 51-60 and 83-92. *)
Definition fetch_json (url : jsstring) (failure : jsstring)
  : outcome json exn :=
  match fetch url with
  | Rejected e => Rejected e
  | Resolved response =>
      if negb (ok response) then
        let error :=
          match json_ response with
          | Resolved v => v
          | Rejected _ => JObject []          (* .catch(() => ({})) *)
          end in
        match get_detail error with
        | Rejected e => Rejected e
        | Resolved detail =>
            let fallback := failure ++ statusText response in
            let message :=
              match detail with
              | Some d => if truthy_json d then ToString d else Resolved fallback
              | None => Resolved fallback
              end in
            match message with
            | Rejected e => Rejected e
            | Resolved message => Rejected (mkExn "Error" message)
            end
        end
      else json_ response
  end.

Definition getRepositoryStructure (repositoryId : jsstring)
    (excludeDirs : option (list jsstring)) : outcome json exn :=
  fetch_json (request_url (lit "/api/structure/tree/") repositoryId excludeDirs)
             (lit "Failed to fetch repository structure: ").

Definition getRepositoryDependencies (repositoryId : jsstring)
    (excludeDirs : option (list jsstring)) : outcome json exn :=
  fetch_json
    (request_url (lit "/api/structure/dependencies/") repositoryId excludeDirs)
    (lit "Failed to fetch repository dependencies: ").

End Service.

Arguments JNull {number}.
Arguments JBool {number} b.
Arguments JNumber {number} n.
Arguments JString {number} s.
Arguments JArray {number} items.
Arguments JObject {number} members.
Arguments mkResponse {number} ok statusText json_.
Arguments ok {number} r.
Arguments statusText {number} r.
Arguments json_ {number} r.

End StructureService.

(** ** extract_calls.js *)

Module Extractor.
Import JS.

(** The syntax tree of the TypeScript compiler, as far as the walk looks
    into it. Every node has its full range [pos, end_) in the source text
    ([pos] is where the trivia before its first token starts). The four
    node kinds that the walk tells apart have their own constructors, with
    the child properties in the order in which [forEachChild] visits them,
    and so have the two kinds of member name, [Identifier] and
    [PrivateIdentifier] (as [#h] in [this.#h()]), which carry a [text];
    every other kind is an [OtherNode] with its children in that order. *)
Inductive node : Type :=
| CallExpression (pos end_ : nat) (expression : node)
    (questionDotToken : option node) (typeArguments arguments : list node)
| NewExpression (pos end_ : nat) (expression : node)
    (typeArguments : list node) (arguments : option (list node))
| PropertyAccessExpression (pos end_ : nat) (expression : node)
    (questionDotToken : option node) (name : node)
| AwaitExpression (pos end_ : nat) (expression : node)
| Identifier (pos end_ : nat) (text : jsstring)
| PrivateIdentifier (pos end_ : nat) (text : jsstring)
| OtherNode (kind : string) (pos end_ : nat) (children : list node).

Definition pos (n : node) : nat :=
  match n with
  | CallExpression p _ _ _ _ _ | NewExpression p _ _ _ _
  | PropertyAccessExpression p _ _ _ _ | AwaitExpression p _ _
  | Identifier p _ _ | PrivateIdentifier p _ _ | OtherNode _ p _ _ => p
  end.

Definition end_ (n : node) : nat :=
  match n with
  | CallExpression _ e _ _ _ _ | NewExpression _ e _ _ _
  | PropertyAccessExpression _ e _ _ _ | AwaitExpression _ e _
  | Identifier _ e _ | PrivateIdentifier _ e _ | OtherNode _ _ e _ => e
  end.

Definition isCallExpression (n : node) : bool :=
  match n with CallExpression _ _ _ _ _ _ => true | _ => false end.

Definition isNewExpression (n : node) : bool :=
  match n with NewExpression _ _ _ _ _ => true | _ => false end.

Definition isPropertyAccessExpression (n : node) : bool :=
  match n with PropertyAccessExpression _ _ _ _ _ => true | _ => false end.

Definition isAwaitExpression (n : node) : bool :=
  match n with AwaitExpression _ _ _ => true | _ => false end.

(** [n.text] of the member name of a property access, which the parser
    makes an identifier or a private identifier (of an access without a
    name, an identifier with the empty text). *)
Definition text (n : node) : jsstring :=
  match n with
  | Identifier _ _ t | PrivateIdentifier _ _ t => t
  | _ => []
  end.

Definition opt_list {A} (o : option A) : list A :=
  match o with Some a => [a] | None => [] end.

(** The children of a node, in the order of [ts.forEachChild]. *)
Definition forEachChild (n : node) : list node :=
  match n with
  | CallExpression _ _ e q tas args => e :: opt_list q ++ tas ++ args
  | NewExpression _ _ e tas args => e :: tas ++ default [] args
  | PropertyAccessExpression _ _ e q name => e :: opt_list q ++ [name]
  | AwaitExpression _ _ e => [e]
  | Identifier _ _ _ | PrivateIdentifier _ _ _ => []
  | OtherNode _ _ _ children => children
  end.

(** The values of the properties of an emitted object, and the object as
    the list of its properties in the order in which the literal sets
    them, which is the order of [JSON.stringify]. *)
Inductive value : Type :=
| VString (s : jsstring)
| VNumber (n : nat)
| VBool (b : bool)
| VArray (items : list jsstring).

Definition event : Type := list (string * value).

Fixpoint get (key : string) (o : event) : option value :=
  match o with
  | [] => None
  | (k, v) :: o' => if decide (k = key) then Some v else get key o'
  end.

Section Walk.

(** The text of the file. *)
Variable sourceCode : jsstring.

(** [sourceFile.getLineAndCharacterOfPosition], both numbers from zero. *)
Variable getLineAndCharacterOfPosition : nat -> nat * nat.

(** The scanner's [skipTrivia]: from the full start of a node to the start
    of its first token, which is where [getText] begins. *)
Variable skipTrivia : nat -> nat.

Definition getText (n : node) : jsstring :=
  substring sourceCode (skipTrivia (pos n)) (end_ n).

Definition argText (arg : node) : jsstring :=
  trim (substring sourceCode (pos arg) (end_ arg)).

(** Lines 29-58: what the walk pushes at a node for a method call. *)
Definition methodCallEvents (parent : option node) (n : node) : list event :=
  match n with
  | CallExpression p _ (PropertyAccessExpression _ _ object _ name) _ _ arguments =>
      let caller := substring sourceCode (pos object) (end_ object) in
      let method := text name in
      let args := map argText arguments in
      let '(line, character) := getLineAndCharacterOfPosition p in
      let isAsync :=
        match parent with
        | Some parent => isAwaitExpression parent
        | None => false
        end in
      [ [ ("caller", VString caller); ("method", VString method);
          ("args", VArray args); ("lineno", VNumber (line + 1));
          ("col_offset", VNumber character); ("is_async", VBool isAsync) ] ]
  | _ => []
  end.

(** Lines 61-79: what the walk pushes at a node for a construction. *)
Definition constructorEvents (n : node) : list event :=
  match n with
  | NewExpression p _ expression _ arguments =>
      let className := getText expression in
      let args :=
        match arguments with
        | Some arguments => map argText arguments
        | None => []
        end in
      let '(line, character) := getLineAndCharacterOfPosition p in
      [ [ ("is_constructor", VBool true); ("class", VString className);
          ("args", VArray args); ("lineno", VNumber (line + 1));
          ("col_offset", VNumber character) ] ]
  | _ => []
  end.

(** What the walk pushes at one node, given with its parent. *)
Definition eventsAt (site : option node * node) : list event :=
  methodCallEvents site.1 site.2 ++ constructorEvents site.2.

(** The position that an event pushed at a node carries. *)
Definition positionAt (n : node) : nat * nat :=
  let '(line, character) := getLineAndCharacterOfPosition (pos n) in
  (line + 1, character).

(** The function [visit] of lines 27-83, with the array [methodCalls]
    that it pushes to passed through, and [node.parent] as an argument. *)
Fixpoint visit (parent : option node) (n : node) (methodCalls : list event)
  {struct n} : list event :=
  let methodCalls := methodCalls ++ methodCallEvents parent n in
  let methodCalls := methodCalls ++ constructorEvents n in
  let each (children : list node) (methodCalls : list event) :=
    fold_left (fun methodCalls child => visit (Some n) child methodCalls)
              children methodCalls in
  let maybe (child : option node) (methodCalls : list event) :=
    match child with
    | Some child => visit (Some n) child methodCalls
    | None => methodCalls
    end in
  match n with
  | CallExpression _ _ e q tas args =>
      each args (each tas (maybe q (visit (Some n) e methodCalls)))
  | NewExpression _ _ e tas args =>
      let methodCalls := each tas (visit (Some n) e methodCalls) in
      match args with
      | Some args => each args methodCalls
      | None => methodCalls
      end
  | PropertyAccessExpression _ _ e q name =>
      visit (Some n) name (maybe q (visit (Some n) e methodCalls))
  | AwaitExpression _ _ e => visit (Some n) e methodCalls
  | Identifier _ _ _ | PrivateIdentifier _ _ _ => methodCalls
  | OtherNode _ _ _ children => each children methodCalls
  end.

(** Lines 24 and 86: the walk from the root, on an empty array. *)
Definition extract (sourceFile : node) : list event :=
  visit None sourceFile [].

End Walk.

(** The nodes of a tree in depth-first pre-order, each with its parent. *)
Fixpoint preorder (parent : option node) (n : node)
  : list (option node * node) :=
  (parent, n) ::
  match n with
  | CallExpression _ _ e q tas args =>
      preorder (Some n) e
      ++ match q with Some t => preorder (Some n) t | None => [] end
      ++ flat_map (preorder (Some n)) tas ++ flat_map (preorder (Some n)) args
  | NewExpression _ _ e tas args =>
      preorder (Some n) e ++ flat_map (preorder (Some n)) tas
      ++ match args with
         | Some args => flat_map (preorder (Some n)) args
         | None => []
         end
  | PropertyAccessExpression _ _ e q name =>
      preorder (Some n) e
      ++ match q with Some t => preorder (Some n) t | None => [] end
      ++ preorder (Some n) name
  | AwaitExpression _ _ e => preorder (Some n) e
  | Identifier _ _ _ | PrivateIdentifier _ _ _ => []
  | OtherNode _ _ _ children => flat_map (preorder (Some n)) children
  end.

(** A call whose callee is a property access: the method calls that the
    walk reports. *)
Definition isMethodCall (n : node) : bool :=
  match n with
  | CallExpression _ _ callee _ _ _ => isPropertyAccessExpression callee
  | _ => false
  end.

Definition reported (n : node) : bool := isMethodCall n || isNewExpression n.

(** The call and construction sites of a unit: every call expression and
    every [new] expression of its tree. *)
Definition callSites (t : node) : list node :=
  List.filter (fun n => isCallExpression n || isNewExpression n)
              (map snd (preorder None t)).

(** The sites that the walk reports. *)
Definition reportedSites (t : node) : list node :=
  List.filter reported (map snd (preorder None t)).

(** The arguments of a call or construction site. *)
Definition arguments (n : node) : list node :=
  match n with
  | CallExpression _ _ _ _ _ args => args
  | NewExpression _ _ _ _ args => default [] args
  | _ => []
  end.

(** The context flags that the specification lists for an event: one for
    await or async context, and one each for try, loop and conditional. *)
Definition has_context_flags (e : event) : Prop :=
  (is_Some (get "is_await" e) \/ is_Some (get "is_async_context" e)
   \/ is_Some (get "is_async" e)) /\
  is_Some (get "in_try" e) /\ is_Some (get "in_loop" e) /\
  is_Some (get "in_conditional" e).

(** The source position of an event, as line and column. *)
Definition position (e : event) : nat * nat :=
  match get "lineno" e, get "col_offset" e with
  | Some (VNumber l), Some (VNumber c) => (l, c)
  | _, _ => (0, 0)
  end.

Definition position_le (p q : nat * nat) : Prop :=
  p.1 < q.1 \/ (p.1 = q.1 /\ p.2 <= q.2).

Definition position_leb (p q : nat * nat) : bool :=
  (p.1 <? q.1) || ((p.1 =? q.1) && (p.2 <=? q.2)).

(** A stable sort by position: insertion from the right, an element going
    in front of the first one that is not earlier, so that events of
    one position keep their order. *)
Fixpoint insert_by_position (e : event) (l : list event) : list event :=
  match l with
  | [] => [e]
  | e' :: l' =>
      if position_leb (position e) (position e') then e :: l
      else e' :: insert_by_position e l'
  end.

Definition sort_by_position (l : list event) : list event :=
  foldr insert_by_position [] l.

(** What the parser guarantees of the ranges of a tree: a node's range
    holds the ranges of its children, which follow each other in the
    order of [forEachChild]. *)
Fixpoint chain (lo : nat) (children : list node) (hi : nat) : Prop :=
  match children with
  | [] => lo <= hi
  | c :: children' => lo <= pos c /\ chain (end_ c) children' hi
  end.

Definition ranges_nested (t : node) : Prop :=
  forall n, n ∈ map snd (preorder None t) ->
    chain (pos n) (forEachChild n) (end_ n).

End Extractor.

(** ** Sample units for the extractor *)

Module Samples.
Import JS Extractor.

(** The line map of a text of one line. *)
Definition oneLine (p : nat) : nat * nat := (0, p).

(** [skipTrivia] for a text whose trivia is white space only. *)
Definition skipBlanks (sourceCode : jsstring) (p : nat) : nat :=
  p + (length (drop p sourceCode) - length (trimStart (drop p sourceCode))).

Definition extractFrom (sourceCode : jsstring) (sourceFile : node) : list event :=
  extract sourceCode oneLine (skipBlanks sourceCode) sourceFile.

(** A method call whose second argument follows a comment. *)
Definition commented_src : jsstring := lit "a.f(x, /*c*/ y)".

Definition commented_call : node :=
  CallExpression 0 15
    (PropertyAccessExpression 0 3 (Identifier 0 1 (lit "a")) None
       (Identifier 2 3 (lit "f")))
    None [] [Identifier 4 5 (lit "x"); Identifier 6 14 (lit "y")].

Definition commented_tree : node :=
  OtherNode "SourceFile" 0 15
    [ OtherNode "ExpressionStatement" 0 15 [commented_call];
      OtherNode "EndOfFileToken" 15 15 [] ].

(** A method call inside a [try] block. *)
Definition try_src : jsstring := lit "try { a.f(); } catch (e) {}".

Definition try_tree : node :=
  OtherNode "SourceFile" 0 27
    [ OtherNode "TryStatement" 0 27
        [ OtherNode "Block" 3 14
            [ OtherNode "ExpressionStatement" 5 12
                [ CallExpression 5 11
                    (PropertyAccessExpression 5 9 (Identifier 5 7 (lit "a"))
                       None (Identifier 8 9 (lit "f")))
                    None [] [] ] ];
          OtherNode "CatchClause" 14 27
            [ OtherNode "VariableDeclaration" 22 23
                [Identifier 22 23 (lit "e")];
              OtherNode "Block" 24 27 [] ] ];
      OtherNode "EndOfFileToken" 27 27 [] ].

(** A call of a plain function. *)
Definition plain_src : jsstring := lit "foo(1)".

Definition plain_tree : node :=
  OtherNode "SourceFile" 0 6
    [ OtherNode "ExpressionStatement" 0 6
        [ CallExpression 0 6 (Identifier 0 3 (lit "foo")) None []
            [OtherNode "NumericLiteral" 4 5 []] ];
      OtherNode "EndOfFileToken" 6 6 [] ].

(** An awaited method call on a chain, with a construction as argument:
    the two calls start at the same offset. *)
Definition await_src : jsstring := lit "await a.f().g(new B(1))".

Definition await_inner_call : node :=
  CallExpression 5 11
    (PropertyAccessExpression 5 9 (Identifier 5 7 (lit "a")) None
       (Identifier 8 9 (lit "f")))
    None [] [].

Definition await_new : node :=
  NewExpression 14 22 (Identifier 17 19 (lit "B")) []
    (Some [OtherNode "NumericLiteral" 20 21 []]).

Definition await_outer_call : node :=
  CallExpression 5 23
    (PropertyAccessExpression 5 13 await_inner_call None
       (Identifier 12 13 (lit "g")))
    None [] [await_new].

Definition await_tree : node :=
  OtherNode "SourceFile" 0 23
    [ OtherNode "ExpressionStatement" 0 23
        [ AwaitExpression 0 23 await_outer_call ];
      OtherNode "EndOfFileToken" 23 23 [] ].

End Samples.

(** ** The sequence-diagram components *)

Module Renderer.
Import JS.

Local Open Scope Z_scope.

(** A message of the diagram data, with the optional properties of the
    three [Message] interfaces. A property that is absent is [None], or
    the empty list for [args]. *)
Record Message := mkMessage {
  from : jsstring;
  to : jsstring;
  method : jsstring;
  args : list jsstring;
  is_conditional : bool;
  condition : option jsstring;
  loop_control : option jsstring;
  id : jsstring;
  creates_track : option jsstring;
  returns_to_track : option jsstring
}.

Record ConditionalBlock := mkBlock {
  start_message_id : jsstring;
  end_message_id : jsstring;
  block_condition : jsstring;
  type : jsstring;
  has_else : bool;
  nesting_level : nat;
  is_loop : bool
}.

(** Truthiness of an optional string property. *)
Definition isSet (o : option jsstring) : bool :=
  match o with Some s => truthy s | None => false end.

(** A template literal prints an absent property as [undefined]. *)
Definition interpolate (o : option jsstring) : jsstring :=
  default (lit "undefined") o.

Definition actorWidth : Z := 100.
Definition actorSpacing : Z := 150.
Definition actorY : Z := 50.
Definition messageHeight : Z := 50.

(** An entry of [lifelines]: the actor, by its index, and its x. The
    objects [lifelines] and [messagePositions], which the components
    create by [{}] and use as maps from names to entries, are read by
    [getProp]. *)
Record lifeline := mkLifeline { actor : nat; x : Z }.

Definition lifelineFields : list jsstring := [lit "actor"; lit "x"].

(** A number that a cell is given: [None] is what the arithmetic of the
    component makes of a property that is not there, [undefined] for a
    coordinate of a link and [NaN] for the place or the height of a
    block. *)
Definition coordinate : Type := option Z.

(** The cells added to the graph. Of the attributes of a cell, the model
    keeps the geometry, the text and the identifier; colours and stroke
    styles are left out. *)
Inductive cell : Type :=
| ActorCell (text : jsstring) (px py : Z)
| MessageCell (sx : coordinate) (sy : Z) (tx : coordinate) (ty : Z)
              (text : jsstring)
| BlockCell (shape : string) (px : Z) (py : coordinate) (width : Z)
            (height : coordinate) (text blockId : jsstring)
| AsyncBoundaryCell (px py width height : Z) (text : jsstring).

(** [lifelines[name]], as the guard [!fromLifeline] and the read of [x]
    see it: [None] when the value is falsy, so that the callback
    returns, else the [x] of the value. The value is the entry of the
    participant [name]; or, for a name that is no participant, a
    built-in of [Object.prototype], which is truthy and has no [x]; or,
    when [__proto__] is a participant, for the names [actor] and [x] the
    fields of its entry: the actor element, which has no property [x]
    (the library keeps the position of an element in its attributes),
    and the number [x], which is truthy unless zero and has no [x]. *)
Definition lifelineX (lifelines : gmap jsstring lifeline) (name : jsstring)
  : option coordinate :=
  match getProp lifelineFields lifelines name with
  | Own entry => Some (Some (x entry))
  | Inherited prototype =>
      if decide (name = lit "x")
      then (if decide (x prototype = 0) then None else Some None)
      else Some None
  | Builtin => Some None
  | Absent => None
  end.

(** The loop over [data.participants], the same in the three components.
    The assignment [lifelines[participant] = { actor, x }] is the
    insertion in the map, for the participant [__proto__] as well (see
    [getProp]). *)
Definition addParticipant (acc : list cell * gmap jsstring lifeline)
    (index : nat) (participant : jsstring)
  : list cell * gmap jsstring lifeline :=
  let x := Z.of_nat index * actorSpacing + 100 in
  (acc.1 ++ [ActorCell participant (x - actorWidth / 2) actorY],
   <[participant := mkLifeline index x]> acc.2).

Fixpoint renderParticipantsFrom (index : nat) (participants : list jsstring)
    (acc : list cell * gmap jsstring lifeline)
  : list cell * gmap jsstring lifeline :=
  match participants with
  | [] => acc
  | participant :: participants' =>
      renderParticipantsFrom (S index) participants'
        (addParticipant acc index participant)
  end.

Definition renderParticipants (participants : list jsstring)
  : list cell * gmap jsstring lifeline :=
  renderParticipantsFrom 0 participants ([], ∅).

Definition messageText (message : Message) : jsstring :=
  match args message with
  | [] => method message
  | _ :: _ =>
      method message ++ lit "(" ++ join (lit ", ") (args message) ++ lit ")"
  end.

(** The text of the link after the styling steps that set it. *)
Definition conditionalText (message : Message) : jsstring :=
  let t := messageText message in
  if is_conditional message
  then lit "[" ++ interpolate (condition message) ++ lit "] " ++ t
  else t.

Definition linkText (message : Message) : jsstring :=
  match loop_control message with
  | Some control =>
      if truthy control then control ++ lit ": " ++ messageText message
      else conditionalText message
  | None => conditionalText message
  end.

(** *** ConditionalSequenceDiagram.tsx *)

(** An entry of [messagePositions]. Its [x] is [(fromX + toX) / 2] and is
    not kept; [fromX] and [toX] are the [x] read from the lifelines. *)
Record position := mkPosition {
  my : Z; fromX : coordinate; toX : coordinate
}.

Definition positionFields : list jsstring :=
  [lit "x"; lit "y"; lit "fromX"; lit "toX"].

(** Truthiness of a number: zero, [NaN] and [undefined] are falsy. *)
Definition truthyNumber (n : coordinate) : bool :=
  match n with Some z => negb (z =? 0) | None => false end.

(** The field [key] of a position, up to truthiness: for [x], the sum of
    [fromX] and [toX], which is zero or [NaN] when their half is. *)
Definition positionField (pos : position) (key : jsstring) : coordinate :=
  if decide (key = lit "x") then
    match fromX pos, toX pos with
    | Some a, Some b => Some (a + b)
    | _, _ => None
    end
  else if decide (key = lit "y") then Some (my pos)
  else if decide (key = lit "fromX") then fromX pos
  else toX pos.

(** [messagePositions[id]], as the guard [!startPos] and the read of [y]
    see it: [None] when the value is falsy, else the [y] of the value.
    The value is the position of the message [id]; or a built-in of
    [Object.prototype], which has no [y]; or, when a drawn message has
    the identifier [__proto__], for the names of its fields the numbers
    they hold, which have no [y]. *)
Definition positionY (positions : gmap jsstring position) (key : jsstring)
  : option coordinate :=
  match getProp positionFields positions key with
  | Own pos => Some (Some (my pos))
  | Inherited prototype =>
      if truthyNumber (positionField prototype key) then Some None else None
  | Builtin => Some None
  | Absent => None
  end.

Record conditionalState := mkConditionalState {
  cells : list cell;
  currentY : Z;
  messagePositions : gmap jsstring position
}.

(** The callback of [data.messages.forEach], lines 336-448. *)
Definition renderMessage (lifelines : gmap jsstring lifeline)
    (st : conditionalState) (message : Message) : conditionalState :=
  match lifelineX lifelines (from message), lifelineX lifelines (to message) with
  | Some fromX, Some toX =>
      let link :=
        MessageCell fromX (currentY st) toX (currentY st) (linkText message) in
      mkConditionalState
        (cells st ++ [link])
        (currentY st + messageHeight)
        (<[id message := mkPosition (currentY st) fromX toX]>
           (messagePositions st))
  | _, _ => st
  end.

(** The block between [startPos.y] and [endPos.y]. *)
Definition blockCell (participants : list jsstring)
    (startY endY : coordinate) (block : ConditionalBlock) : cell :=
  let blockX := 50 in
  let blockY := (fun y => y - 15) <$> startY in
  let blockWidth := (Z.of_nat (length participants) - 1) * actorSpacing + 150 in
  let blockHeight :=
    match endY, startY with
    | Some e, Some s => Some ((e - s) + 30)
    | _, _ => None
    end in
  let blockId :=
    start_message_id block ++ lit "_to_" ++ end_message_id block in
  if is_loop block then
    BlockCell "LoopBlock" blockX blockY blockWidth blockHeight
      (lit "loop " ++ block_condition block) blockId
  else if decide (type block = lit "try_except") then
    BlockCell "TryBlock" blockX blockY blockWidth blockHeight
      (lit "try-except") blockId
  else if decide (type block = lit "try_catch") then
    BlockCell "TryBlock" blockX blockY blockWidth blockHeight
      (lit "try-catch") blockId
  else
    BlockCell "ConditionalBlock" blockX blockY blockWidth blockHeight
      (lit "if " ++ block_condition block) blockId.

(** The callback of [data.conditional_blocks.forEach], lines 451-521. *)
Definition renderBlock (participants : list jsstring)
    (positions : gmap jsstring position) (cells : list cell)
    (block : ConditionalBlock) : list cell :=
  match positionY positions (start_message_id block),
        positionY positions (end_message_id block) with
  | Some startY, Some endY =>
      cells ++ [blockCell participants startY endY block]
  | _, _ => cells
  end.

Record ConditionalSequenceDiagramData := mkConditionalData {
  participants : list jsstring;
  messages : list Message;
  conditional_blocks : list ConditionalBlock
}.

(** The rendering effect of lines 99-523: the cells added to the cleared
    graph, in the order of [graph.addCell]. *)
Definition renderConditional (data : ConditionalSequenceDiagramData)
  : list cell :=
  let '(actors, lifelines) := renderParticipants (participants data) in
  let st :=
    foldl (renderMessage lifelines)
          (mkConditionalState actors (actorY + 50) ∅) (messages data) in
  foldl (renderBlock (participants data) (messagePositions st))
        (cells st) (conditional_blocks data).

(** [messagePositions] after the loop over the messages. *)
Definition positionsOf (participants : list jsstring)
    (messages : list Message) : gmap jsstring position :=
  let '(actors, lifelines) := renderParticipants participants in
  messagePositions
    (foldl (renderMessage lifelines)
           (mkConditionalState actors (actorY + 50) ∅) messages).

(** *** SequenceDiagram.tsx *)

(** The callback of [data.messages.forEach]: the link, and the next y. *)
Definition renderPlainMessage (lifelines : gmap jsstring lifeline)
    (st : list cell * Z) (message : Message) : list cell * Z :=
  match lifelineX lifelines (from message), lifelineX lifelines (to message) with
  | Some fromX, Some toX =>
      (st.1 ++ [MessageCell fromX st.2 toX st.2 (conditionalText message)],
       st.2 + messageHeight)
  | _, _ => st
  end.

Definition renderPlain (participants : list jsstring)
    (messages : list Message) : list cell :=
  let '(actors, lifelines) := renderParticipants participants in
  (foldl (renderPlainMessage lifelines) (actors, actorY + 50) messages).1.

(** *** AsyncSequenceDiagram.tsx *)

Record region := mkRegion { startY : Z; endY : Z; name : jsstring }.

(** The variables of the loop over one track, lines 297-301, with the
    cells added and the track's [regions]. *)
Record trackState := mkTrackState {
  links : list cell;
  trackY : Z;                       (* currentY *)
  regionStartY : Z;
  currentRegion : jsstring;
  regions : list region
}.

(** The callback of [track.messages.forEach], lines 304-425. An element
    of the track that is [undefined] (an index with no message) makes the
    read of its [from] throw: [None]. *)
Definition renderTrackMessage (lifelines : gmap jsstring lifeline)
    (st : trackState) (message : option Message) : option trackState :=
  match message with
  | None => None
  | Some message =>
      match lifelineX lifelines (from message),
            lifelineX lifelines (to message) with
      | Some fromX, Some toX =>
          let currentY := trackY st in
          let '(regionStartY, currentRegion) :=
            if isSet (creates_track message)
            then (currentY, default [] (creates_track message))
            else (regionStartY st, currentRegion st) in
          let '(currentRegion, regions) :=
            if isSet (returns_to_track message) && truthy currentRegion
            then ([], regions st
                      ++ [mkRegion regionStartY (currentY + messageHeight)
                                   currentRegion])
            else (currentRegion, regions st) in
          Some (mkTrackState
                  (links st ++ [MessageCell fromX currentY toX currentY
                                  (conditionalText message)])
                  (currentY + messageHeight)
                  regionStartY currentRegion regions)
      | _, _ => Some st
      end
  end.

Fixpoint forEachMessage (lifelines : gmap jsstring lifeline)
    (st : trackState) (messages : list (option Message)) : option trackState :=
  match messages with
  | [] => Some st
  | message :: messages' =>
      match renderTrackMessage lifelines st message with
      | Some st' => forEachMessage lifelines st' messages'
      | None => None
      end
  end.

(** Lines 427-434: a region still open after the loop is closed at the
    current y. *)
Definition closeRegion (st : trackState) : list region :=
  if truthy (currentRegion st)
  then regions st ++ [mkRegion (regionStartY st) (trackY st) (currentRegion st)]
  else regions st.

Section Async.

(** [name.charAt(0).toUpperCase() + name.slice(1)], by the parameter
    [toUpperCase] on strings of one code unit. *)
Variable toUpperCase : jsstring -> jsstring.

Definition capitalize (name : jsstring) : jsstring :=
  toUpperCase (take 1 name) ++ drop 1 name.

(** Lines 437-453: the boundary drawn for a region. *)
Definition regionCell (participants : list jsstring) (r : region) : cell :=
  let trackWidth := (Z.of_nat (length participants) - 1) * actorSpacing + 150 in
  AsyncBoundaryCell 50 (startY r - 15) trackWidth (endY r - startY r + 30)
    (capitalize (name r)).

(** The body of the loop over the tracks, lines 297-454, for one track
    whose first message is drawn at [y] (lines 283-294 compute it from
    the tracks before): the cells added and the track's regions. *)
Definition renderTrack (participants : list jsstring)
    (lifelines : gmap jsstring lifeline) (y : Z)
    (messages : list (option Message)) : option (list cell * list region) :=
  match forEachMessage lifelines (mkTrackState [] y 0 [] []) messages with
  | Some st =>
      let regions := closeRegion st in
      Some (links st ++ map (regionCell participants) regions, regions)
  | None => None
  end.

End Async.

(** Line 274: the messages of a track, by index into [data.messages]. *)
Definition trackMessages (messages : list Message) (messageIndices : list nat)
  : list (option Message) :=
  map (fun idx => messages !! idx) messageIndices.

(** The messages that are drawn: the guard finds a truthy value at both
    names. *)
Definition drawn (lifelines : gmap jsstring lifeline) (message : Message)
  : bool :=
  bool_decide (is_Some (lifelineX lifelines (from message)))
  && bool_decide (is_Some (lifelineX lifelines (to message))).

(** The blocks that are drawn: the guard finds a truthy value at both
    identifiers. *)
Definition blockDrawn (positions : gmap jsstring position)
    (block : ConditionalBlock) : bool :=
  bool_decide (is_Some (positionY positions (start_message_id block)))
  && bool_decide (is_Some (positionY positions (end_message_id block))).




Definition isActorCell (c : cell) : Prop :=
  exists text px py, c = ActorCell text px py.

Definition isMessageCell (c : cell) : bool :=
  match c with MessageCell _ _ _ _ _ => true | _ => false end.

Definition isBlockCell (c : cell) : bool :=
  match c with BlockCell _ _ _ _ _ _ _ => true | _ => false end.

(** The y of the links among the cells, in the order of drawing. *)
Definition linkRows (cells : list cell) : list Z :=
  omap (fun c => match c with MessageCell _ sy _ _ _ => Some sy | _ => None end)
       cells.

(** The y of [n] consecutive rows from [y]. *)
Definition rowsFrom (y : Z) (n : nat) : list Z :=
  map (fun i => y + messageHeight * Z.of_nat i) (seq 0 n).

(** *** The regions that the flags of a track bracket *)





(** The link between the variables of the loop and the stack of open
    regions of [bracketedRegions], before the message of row [row]. *)
Definition tracks (y : Z) (opened : list (jsstring * nat)) (row : nat)
    (st : trackState) : Prop :=
  trackY st = y + messageHeight * Z.of_nat row /\
  ((opened = [] /\ currentRegion st = []) \/
   (exists name first,
      opened = [(name, first)] /\ truthy name = true /\
      currentRegion st = name /\
      regionStartY st = y + messageHeight * Z.of_nat first /\
      (first < row)%nat)).

End Renderer.

(** ** Sample diagram data *)

Module DiagramSamples.
Import JS Renderer.

Definition msg (from to method id : string)
    (creates returns : option string) : Message :=
  mkMessage (lit from) (lit to) (lit method) [] false None None (lit id)
            (lit <$> creates) (lit <$> returns).

Definition twoActors : list jsstring := [lit "main"; lit "worker"].

(** A spawn that is joined two messages later. *)
Definition spawnJoin : list Message :=
  [ msg "main" "worker" "start" "0" (Some "task_1") None;
    msg "worker" "worker" "step" "1" None None;
    msg "main" "worker" "result" "2" None (Some "main") ].

(** Two spawns, the second inside the first, and their two joins. *)
Definition nestedSpawns : list Message :=
  [ msg "main" "worker" "start" "0" (Some "task_1") None;
    msg "worker" "worker" "fork" "1" (Some "task_2") None;
    msg "worker" "worker" "join" "2" None (Some "task_1");
    msg "main" "worker" "result" "3" None (Some "main") ].

(** A message from a participant that is not in the list, and a block
    that ends at it. *)
Definition strayMessages : list Message :=
  [ msg "main" "worker" "start" "0" None None;
    msg "ghost" "worker" "poke" "1" None None;
    msg "worker" "main" "done" "2" None None ].

Definition strayBlocks : list ConditionalBlock :=
  [ mkBlock (lit "0") (lit "1") (lit "x") (lit "if") false 0 false;
    mkBlock (lit "0") (lit "2") (lit "y") (lit "if") false 0 false;
    mkBlock (lit "7") (lit "2") (lit "z") (lit "loop") false 0 true ].

(** A message from a name that is no participant but a property name
    of [Object.prototype], and a block that starts at such a name, the
    identifier of no message. *)
Definition inheritedNames : ConditionalSequenceDiagramData :=
  mkConditionalData twoActors
    [ msg "main" "worker" "start" "m0" None None;
      msg "constructor" "worker" "poke" "m1" None None ]
    [ mkBlock (lit "toString") (lit "m1") (lit "x") (lit "if") false 0 false ].

Definition sampleLifelines : gmap jsstring lifeline :=
  (renderParticipants twoActors).2.

End DiagramSamples.

(** ** The Interaction Model Assembler *)

Module Assembler.
Import JS.

(** Modelled from the spec: the Interaction Model Assembler of section
    4.3, which the sources do not contain. The model covers what the
    section says of participants, messages, the block stack and blocks;
    its input is the resolved event stream with the region-entry and
    region-exit markers that the section lets the extractor supply. *)

(** A call or construction event after the Participant Resolver. *)
Record ResolvedEvent := mkResolved {
  ev_from : jsstring;
  ev_to : jsstring;
  ev_method : jsstring;
  ev_args : list jsstring
}.

Inductive item : Type :=
| Call (e : ResolvedEvent)
| EnterRegion (type condition : jsstring) (is_loop has_else : bool)
| LeaveRegion.

Record Message := mkMessage {
  id : nat;
  from : jsstring;
  to : jsstring;
  method : jsstring;
  args : list jsstring;
  in_conditional_block : bool;
  is_conditional : bool
}.

(** An entry of the block stack. *)
Record BlockEntry := mkEntry {
  entry_type : jsstring;
  entry_condition : jsstring;
  entry_start : nat;
  entry_level : nat;
  entry_is_loop : bool;
  entry_has_else : bool
}.

Record ConditionalBlock := mkBlock {
  start_message_id : nat;
  end_message_id : nat;
  condition : jsstring;
  type : jsstring;
  nesting_level : nat;
  has_else : bool;
  is_loop : bool
}.

Record state := mkState {
  participants : list jsstring;
  messages : list Message;
  blocks : list ConditionalBlock;
  next_id : nat;                  (* the monotonic counter *)
  block_stack : list BlockEntry;  (* innermost entry first *)
  entered : bool                  (* a region was entered and no message
                                     has been emitted in it yet *)
}.

Definition initial : state := mkState [] [] [] 0 [] false.

(** "Register from/to participants if new (insertion order fixed)." *)
Definition register (name : jsstring) (registry : list jsstring)
  : list jsstring :=
  if bool_decide (name ∈ registry) then registry else registry ++ [name].

(** "Emit a Message with id = next monotonic counter value." *)
Definition emit (e : ResolvedEvent) (st : state) : state :=
  mkState
    (register (ev_to e) (register (ev_from e) (participants st)))
    (messages st
     ++ [mkMessage (next_id st) (ev_from e) (ev_to e) (ev_method e) (ev_args e)
           (negb (bool_decide (block_stack st = []))) (entered st)])
    (blocks st) (S (next_id st)) (block_stack st) false.

(** "Push a block entry with start_message_id = id of the next message
    to be emitted, nesting_level = current stack depth before push." *)
Definition enter (type condition : jsstring) (is_loop has_else : bool)
    (st : state) : state :=
  mkState (participants st) (messages st) (blocks st) (next_id st)
    (mkEntry type condition (next_id st) (length (block_stack st))
             is_loop has_else :: block_stack st)
    true.

(** "Pop the block entry, set end_message_id = id of the last message
    emitted while the entry was open; if no message was emitted during
    the region's lifetime, discard the block entirely." With no open
    entry the exit is a MalformedBlockState: [None]. *)
Definition leave (st : state) : option state :=
  match block_stack st with
  | [] => None
  | entry :: stack =>
      let blocks :=
        if bool_decide (entry_start entry < next_id st)
        then blocks st
             ++ [mkBlock (entry_start entry) (next_id st - 1)
                   (entry_condition entry) (entry_type entry)
                   (entry_level entry) (entry_has_else entry)
                   (entry_is_loop entry)]
        else blocks st in
      Some (mkState (participants st) (messages st) blocks (next_id st)
                    stack false)
  end.

Definition step (st : state) (i : item) : option state :=
  match i with
  | Call e => Some (emit e st)
  | EnterRegion type condition is_loop has_else =>
      Some (enter type condition is_loop has_else st)
  | LeaveRegion => leave st
  end.

(** The result of a pass: the state reached, and whether the pass was
    cut short by a MalformedBlockState, in which case the state holds
    what was assembled before the fault. *)
Fixpoint run (st : state) (stream : list item) : state * bool :=
  match stream with
  | [] => (st, false)
  | i :: stream' =>
      match step st i with
      | Some st' => run st' stream'
      | None => (st, true)
      end
  end.

Definition assemble (stream : list item) : state := (run initial stream).1.

(** The number of call events of a piece of the stream. *)
Fixpoint calls (stream : list item) : nat :=
  match stream with
  | [] => 0
  | Call _ :: stream' => S (calls stream')
  | _ :: stream' => calls stream'
  end.

(** The number of regions open after a piece of the stream that starts
    with [open] regions open; [None] when the piece leaves a region that
    it has not entered and that was not open before. *)
Fixpoint depth (open : nat) (stream : list item) : option nat :=
  match stream with
  | [] => Some open
  | Call _ :: stream' => depth open stream'
  | EnterRegion _ _ _ _ :: stream' => depth (S open) stream'
  | LeaveRegion :: stream' =>
      match open with
      | 0 => None
      | S open' => depth open' stream'
      end
  end.

(** A piece that leaves exactly the regions it enters. *)
Definition balanced (stream : list item) : Prop := depth 0 stream = Some 0.

(** The place of a block in the stream: the marker that enters its
    region after [before], the piece [inside] up to the marker that
    leaves it, and the rest. *)
Definition block_of_region (stream : list item) (b : ConditionalBlock)
  : Prop :=
  exists before inside after,
    stream
    = before
      ++ EnterRegion (type b) (condition b) (is_loop b) (has_else b)
      :: inside ++ LeaveRegion :: after /\
    balanced inside /\
    depth 0 before = Some (nesting_level b) /\
    1 <= calls inside /\
    start_message_id b = calls before /\
    end_message_id b = calls before + calls inside - 1.

(** The block stack after a piece of the stream: empty after a balanced
    piece; and an entry on top for a region entered and not yet left,
    with a balanced piece since, on the stack of the piece before. *)
Inductive stack_of : list item -> list BlockEntry -> Prop :=
| stack_of_balanced stream :
    balanced stream -> stack_of stream []
| stack_of_entered before inside type condition is_loop has_else stack :
    stack_of before stack -> balanced inside ->
    stack_of (before ++ EnterRegion type condition is_loop has_else :: inside)
      (mkEntry type condition (calls before) (length stack) is_loop has_else
       :: stack).

(** What holds of the state after a piece of the stream. *)
Definition assembled (stream : list item) (st : state) : Prop :=
  next_id st = calls stream /\
  map id (messages st) = seq 0 (calls stream) /\
  stack_of stream (block_stack st) /\
  Forall (block_of_region stream) (blocks st).

End Assembler.

(** ** From a unit to its interaction model *)

Module Pipeline.
Import JS.

(** Modelled from the spec: the path Extractor, Resolver, Assembler of
    section 2 for a unit without conditional, loop or try regions, whose
    stream therefore holds call events only. The Participant Resolver of
    section 4.2, which the sources do not contain, is the parameter
    [resolve]; it maps one event to one resolved event. *)
Definition interactionModel (sourceCode : jsstring)
    (getLineAndCharacterOfPosition : nat -> nat * nat)
    (skipTrivia : nat -> nat)
    (resolve : Extractor.event -> Assembler.ResolvedEvent)
    (sourceFile : Extractor.node) : Assembler.state :=
  Assembler.assemble
    (map (fun e => Assembler.Call (resolve e))
         (Extractor.extract sourceCode getLineAndCharacterOfPosition
            skipTrivia sourceFile)).

(** A resolver by the third rule of section 4.2 alone: the trimmed text
    of the caller, and of the callee or class. *)
Definition literalResolver (unit : jsstring) (e : Extractor.event)
  : Assembler.ResolvedEvent :=
  let text key :=
    match Extractor.get key e with
    | Some (Extractor.VString s) => trim s
    | _ => []
    end in
  let args :=
    match Extractor.get "args" e with
    | Some (Extractor.VArray items) => items
    | _ => []
    end in
  match Extractor.get "is_constructor" e with
  | Some _ => Assembler.mkResolved unit (text "class") (lit "new") args
  | None => Assembler.mkResolved unit (text "caller") (text "method") args
  end.

(** The stream of the specification's scenario [authenticate_user]. *)
Definition authenticate_user : list Assembler.item :=
  let call to method :=
    Assembler.Call
      (Assembler.mkResolved (lit "authenticate_user") (lit to) (lit method) []) in
  [ call "UserService" "new";
    call "UserService" "find_user";
    call "User" "check_password";
    Assembler.EnterRegion (lit "if") (lit "user and password check passes")
      false false;
    call "TokenService" "new";
    call "TokenService" "generate_token";
    Assembler.LeaveRegion ].

(** A loop around an empty conditional and one that holds a call. *)
Definition nested_regions : list Assembler.item :=
  let call to method :=
    Assembler.Call (Assembler.mkResolved (lit "f") (lit to) (lit method) []) in
  [ call "a" "m0";
    Assembler.EnterRegion (lit "loop") (lit "for x in xs") true false;
    Assembler.EnterRegion (lit "if") (lit "p") false false;
    Assembler.LeaveRegion;
    Assembler.EnterRegion (lit "if") (lit "q") false true;
    call "b" "m1";
    Assembler.LeaveRegion;
    Assembler.LeaveRegion;
    Assembler.LeaveRegion;
    call "c" "m2" ].

End Pipeline.

(** ** Dependency cycles *)

Module Cycles.
Import JS.

(** Modelled from the spec: the cycle detection of the Dependency Graph
    Assembler, section 4.4, which the sources do not contain. The
    strongly connected components are computed from reachability, and
    discovery order is the order in which the nodes first occur in the
    list of internal edges. The Cycle of a component is a closed walk
    (section 3) from its first-discovered node through all its nodes:
    the specification leaves the walk open, and the model takes
    shortest paths to the nodes not yet visited, in discovery order,
    and a shortest path back. *)

Record DependencyEdge := mkEdge {
  source : jsstring;
  target : jsstring;
  type : jsstring      (* internal or external *)
}.

(** "Cycle: an ordered sequence of node ids forming a closed walk (first
    id repeats as last)." *)
Definition Cycle : Type := list jsstring.

(** The length of a cycle: the number of its steps. *)
Definition cycle_length (c : Cycle) : nat := length c - 1.

(** "The internal-edge-only graph." *)
Definition internal (edges : list DependencyEdge) : list DependencyEdge :=
  List.filter (fun e => bool_decide (type e = lit "internal")) edges.

(** The nodes of a graph, in the order of their first occurrence. *)
Definition nodes (graph : list DependencyEdge) : list jsstring :=
  reverse (remove_dups
             (reverse (flat_map (fun e => [source e; target e]) graph))).

Definition successors (graph : list DependencyEdge) (v : jsstring)
  : list jsstring :=
  map target (List.filter (fun e => bool_decide (source e = v)) graph).

(** One round of the search: the targets of the edges that leave the
    nodes seen so far are seen too. *)
Definition expand (graph : list DependencyEdge) (seen : gset jsstring)
  : gset jsstring :=
  seen ∪ list_to_set (flat_map (successors graph) (elements seen)).

(** The nodes reached from [v], itself among them, after as many rounds
    as the graph has nodes. *)
Definition reached (graph : list DependencyEdge) (v : jsstring)
  : gset jsstring :=
  Nat.iter (length (nodes graph)) (expand graph) {[v]}.

Definition connected (graph : list DependencyEdge) (u v : jsstring) : bool :=
  bool_decide (v ∈ reached graph u) && bool_decide (u ∈ reached graph v).

(** The strongly connected component of a node, in discovery order. *)
Definition component (graph : list DependencyEdge) (v : jsstring)
  : list jsstring :=
  List.filter (connected graph v) (nodes graph).

Definition self_loop (graph : list DependencyEdge) (v : jsstring) : bool :=
  bool_decide (v ∈ successors graph v).

(** A node leads its component when it is the first of it to be
    discovered, and the component is reported when it has more than one
    node or is a node with a self-loop. *)
Definition leads_cycle (graph : list DependencyEdge) (v : jsstring) : bool :=
  bool_decide (head (component graph v) = Some v)
  && ((1 <? length (component graph v)) || self_loop graph v).

(** A path from [u] to [w] of at least one and at most [n] edges, as the
    nodes after [u]: the edge to [w] if there is one, else through the
    first successor of [u] from which there is a path of at most [n - 1]
    edges. *)
Fixpoint pathWithin (graph : list DependencyEdge) (n : nat) (u w : jsstring)
  : option (list jsstring) :=
  match n with
  | 0 => None
  | S n' =>
      if bool_decide (w ∈ successors graph u) then Some [w]
      else head (omap (fun s => cons s <$> pathWithin graph n' s w)
                      (successors graph u))
  end.

(** A path with the least number of edges for which there is one. *)
Definition shortestPath (graph : list DependencyEdge) (u w : jsstring)
  : option (list jsstring) :=
  head (omap (fun n => pathWithin graph n u w)
             (seq 1 (S (length (nodes graph))))).

(** The walk [visited], continued through the nodes of [targets] that it
    has not visited, in their order. *)
Fixpoint tour (graph : list DependencyEdge) (visited : list jsstring)
    (targets : list jsstring) : list jsstring :=
  match targets with
  | [] => visited
  | t :: targets' =>
      if bool_decide (t ∈ visited) then tour graph visited targets'
      else
        match last visited ≫= fun cur => shortestPath graph cur t with
        | Some path => tour graph (visited ++ path) targets'
        | None => tour graph visited targets'
        end
  end.

(** The closed walk from [v] through its component and back. *)
Definition closed_walk (graph : list DependencyEdge) (v : jsstring) : Cycle :=
  let visited := tour graph [v] (component graph v) in
  match last visited ≫= fun cur => shortestPath graph cur v with
  | Some back => visited ++ back
  | None => visited
  end.

(** "Every SCC of size greater than one, plus every self-loop, is
    reported as one Cycle, ordered by node discovery order." *)
Definition detect_cycles (edges : list DependencyEdge) : list Cycle :=
  let graph := internal edges in
  map (closed_walk graph) (List.filter (leads_cycle graph) (nodes graph)).

(** An edge of the graph, as a relation on node ids. *)
Definition edge (graph : list DependencyEdge) (u v : jsstring) : Prop :=
  exists e, e ∈ graph /\ source e = u /\ target e = v.

(** A walk: consecutive ids are joined by an edge. *)
Fixpoint walk (graph : list DependencyEdge) (c : list jsstring) : Prop :=
  match c with
  | u :: (v :: _) as c' => edge graph u v /\ walk graph c'
  | _ => True
  end.

(** What the tour keeps: a walk from [f] within its component. *)
Definition touring (graph : list DependencyEdge) (f : jsstring)
    (visited : list jsstring) : Prop :=
  walk graph visited /\ head visited = Some f /\
  Forall (fun x => connected graph f x = true) visited.

(** The rounds of the search from [v]. *)
Definition round (graph : list DependencyEdge) (v : jsstring) (k : nat)
  : gset jsstring :=
  Nat.iter k (expand graph) {[v]}.

(** A node with a self-loop, or in a strongly connected component with
    another node. *)
Definition on_cycle (graph : list DependencyEdge) (v : jsstring) : Prop :=
  edge graph v v \/
  exists u, u <> v /\ rtc (edge graph) v u /\ rtc (edge graph) u v.

(** The two graphs of the specification. *)
Definition internalEdge (u v : string) : DependencyEdge :=
  mkEdge (lit u) (lit v) (lit "internal").

Definition triangle : list DependencyEdge :=
  [internalEdge "A" "B"; internalEdge "B" "C"; internalEdge "C" "A"].

Definition chain3 : list DependencyEdge :=
  [internalEdge "A" "B"; internalEdge "B" "C"].

(** A square whose nodes are discovered in another order than the edges
    run. *)
Definition square : list DependencyEdge :=
  [ internalEdge "A" "B"; internalEdge "D" "A"; internalEdge "B" "C";
    internalEdge "C" "D" ].

(** Two triangles that share the node A. *)
Definition bowtie : list DependencyEdge :=
  [ internalEdge "A" "B"; internalEdge "B" "C"; internalEdge "C" "A";
    internalEdge "A" "D"; internalEdge "D" "E"; internalEdge "E" "A" ].

(** Two components, a self-loop and an import of a package. *)
Definition mixed : list DependencyEdge :=
  [ internalEdge "m" "a"; internalEdge "a" "b"; internalEdge "b" "a";
    internalEdge "b" "c"; internalEdge "c" "c"; internalEdge "c" "d";
    internalEdge "d" "e"; internalEdge "e" "d";
    mkEdge (lit "e") (lit "react") (lit "external");
    mkEdge (lit "react") (lit "e") (lit "external") ].

End Cycles.

(** ** TreeStats.tsx *)

Module TreeStats.
Import JS.

Local Open Scope Z_scope.

(** The decimal digits of an integer. [String(n)] prints them for an
    integer below 1e21 in absolute value. *)
Definition decimal (n : Z) : jsstring :=
  lit (DecimalString.NilZero.string_of_int (Z.to_int n)).

(** [Number.isSafeInteger]: the integers that a double holds exactly
    and that no other integer rounds to. *)
Definition MAX_SAFE_INTEGER : Z := 2 ^ 53 - 1.

Definition isSafeInteger (n : Z) : bool :=
  (- MAX_SAFE_INTEGER <=? n) && (n <=? MAX_SAFE_INTEGER).

(** The integer [h] for which [h / 100] is nearest to [size / unit], the
    larger one of two. *)
Definition hundredths (size unit : Z) : Z :=
  (200 * size + unit) / (2 * unit).

Definition twoDigits (n : Z) : jsstring :=
  if n <? 10 then lit "0" ++ decimal n else decimal n.

(** [(size / unit).toFixed(2)] for a safe integer [size] that is not
    negative and a power of two [unit], whose quotient a double holds
    exactly: the digits of [hundredths], with a point before the last
    two. From 1e21 on [toFixed] prints an exponent instead; no quotient
    of a safe integer is that large, and for the other sizes the model
    has no answer ([None]). *)
Definition toFixed2 (size unit : Z) : option jsstring :=
  if isSafeInteger size && (0 <=? size) then
    let h := hundredths size unit in
    Some (decimal (h / 100) ++ lit "." ++ twoDigits (h mod 100))
  else None.

(** [formatFileSize], on a size that is a safe integer; [None] for the
    other numbers, which are outside the model: the fractions, and the
    integers from 2^53 on, which a double rounds and which are printed
    with an exponent from 1e21 on. *)
Definition formatFileSize (size : Z) : option jsstring :=
  if isSafeInteger size then
    if size <? 1024 then Some (decimal size ++ lit " bytes")
    else if size <? 1024 * 1024 then
      (fun s => s ++ lit " KB") <$> toFixed2 size 1024
    else if size <? 1024 * 1024 * 1024 then
      (fun s => s ++ lit " MB") <$> toFixed2 size (1024 * 1024)
    else (fun s => s ++ lit " GB") <$> toFixed2 size (1024 * 1024 * 1024)
  else None.

(** The unit and the hundredths that [formatFileSize] shows. *)
Inductive shown : Type :=
| Bytes (n : Z)
| Scaled (unit : Z) (suffix : string) (h : Z).

Definition shownSize (size : Z) : shown :=
  if size <? 1024 then Bytes size
  else if size <? 1024 * 1024 then Scaled 1024 " KB" (hundredths size 1024)
  else if size <? 1024 * 1024 * 1024 then
    Scaled (1024 * 1024) " MB" (hundredths size (1024 * 1024))
  else Scaled (1024 * 1024 * 1024) " GB"
         (hundredths size (1024 * 1024 * 1024)).

Definition printShown (s : shown) : jsstring :=
  match s with
  | Bytes n => decimal n ++ lit " bytes"
  | Scaled _ suffix h =>
      decimal (h / 100) ++ lit "." ++ twoDigits (h mod 100) ++ lit suffix
  end.

(** The comparator [(a, b) => b[1] - a[1]] puts [a] after [b] when its
    count is smaller. [Array.prototype.sort] is stable: the result is
    the one that insertion from the right gives, each entry going in
    front of the first entry whose count is not larger. *)
Fixpoint insertDescending (a : jsstring * Z) (l : list (jsstring * Z))
  : list (jsstring * Z) :=
  match l with
  | [] => [a]
  | b :: l' =>
      if a.2 <? b.2 then b :: insertDescending a l' else a :: l
  end.

Definition sortDescending (l : list (jsstring * Z)) : list (jsstring * Z) :=
  foldr insertDescending [] l.

(** [getTopItems], on the entries of the object in the order of
    [Object.entries]. *)
Definition getTopItems (entries : list (jsstring * Z)) (count : nat)
  : list (jsstring * Z) :=
  take count (sortDescending entries).

(** The order of the result: an entry does not come after one with a
    smaller count. *)
Definition descending (a b : jsstring * Z) : Prop := b.2 <= a.2.

End TreeStats.

(** ** A unit of two lines for the extractor *)

Module LineSamples.
Import JS Extractor.

(** [g();] and, on the second line, [a.f( new B());]. *)
Definition second_line_src : jsstring :=
  lit "g();" ++ [10%N] ++ lit "a.f( new B());".

(** The line map of this text: the second line starts at offset 5. *)
Definition twoLines (p : nat) : nat * nat :=
  if p <? 5 then (0, p) else (1, p - 5).

Definition second_line_tree : node :=
  OtherNode "SourceFile" 0 19
    [ OtherNode "ExpressionStatement" 0 4
        [ CallExpression 0 3 (Identifier 0 1 (lit "g")) None [] [] ];
      OtherNode "ExpressionStatement" 4 19
        [ CallExpression 4 18
            (PropertyAccessExpression 4 8 (Identifier 4 6 (lit "a")) None
               (Identifier 7 8 (lit "f")))
            None []
            [ NewExpression 9 17 (Identifier 13 15 (lit "B")) [] (Some []) ] ];
      OtherNode "EndOfFileToken" 19 19 [] ].

(** A call of a private method, [this.#h(1)]. *)
Definition private_src : jsstring := lit "this.#h(1)".

Definition private_tree : node :=
  OtherNode "SourceFile" 0 10
    [ OtherNode "ExpressionStatement" 0 10
        [ CallExpression 0 10
            (PropertyAccessExpression 0 7 (OtherNode "ThisKeyword" 0 4 []) None
               (PrivateIdentifier 5 7 (lit "#h")))
            None [] [ OtherNode "NumericLiteral" 8 9 [] ] ];
      OtherNode "EndOfFileToken" 10 10 [] ].

End LineSamples.

(** ** The sequence-diagram components: layout *)

Module Layout.
Import JS Renderer.

Local Open Scope Z_scope.

(** Regions that follow each other downwards between [lo] and [hi]
    without overlap, each at least one row high and with a name. *)
Fixpoint stacked (lo : Z) (regions : list region) (hi : Z) : Prop :=
  match regions with
  | [] => lo <= hi
  | r :: regions' =>
      lo <= startY r /\ startY r + messageHeight <= endY r /\
      name r <> [] /\ stacked (endY r) regions' hi
  end.

(** A region that spans the rows of a track at [y] from the row [first]
    to the row [last], of the [rows] rows drawn. *)
Definition onRows (y : Z) (rows : nat) (r : region) : Prop :=
  exists first last,
    (first <= last < rows)%nat /\
    startY r = y + messageHeight * Z.of_nat first /\
    endY r = y + messageHeight * Z.of_nat last + messageHeight.

(** What the loop over a track at [y] keeps true of its variables, after
    [rows] drawn messages. *)
Definition trackInvariant (y : Z) (rows : nat) (st : trackState) : Prop :=
  trackY st = y + messageHeight * Z.of_nat rows /\
  linkRows (links st) = rowsFrom y rows /\
  Forall (onRows y rows) (regions st) /\
  exists bound,
    stacked y (regions st) bound /\
    if truthy (currentRegion st)
    then bound <= regionStartY st /\
         exists first,
           (first < rows)%nat /\
           regionStartY st = y + messageHeight * Z.of_nat first
    else bound <= trackY st.

(** *** AsyncSequenceDiagram.tsx: the tracks *)

(** An assignment [o[key] = v] to an object whose properties are kept in
    the order in which they were created: a property that exists keeps
    its place. Track names are taken not to be array indices, which
    JavaScript enumerates first. *)
Fixpoint assign {A} (key : jsstring) (v : A) (o : list (jsstring * A))
  : list (jsstring * A) :=
  match o with
  | [] => [(key, v)]
  | (k, v0) :: o' =>
      if decide (k = key) then (k, v) :: o' else (k, v0) :: assign key v o'
  end.

(** Lines 263-279: [executionTracks], as its properties in the order of
    [Object.keys]: the main track, then the tracks of
    [data.execution_tracks], which is given as the list of its
    properties in the order of [for ... in]. The assignment of a track
    named [__proto__] creates no property: it makes the track the
    prototype of [executionTracks] (see [getProp]). *)
Definition groupTracks (messages : list Message)
    (execution_tracks : list (jsstring * list nat))
  : list (jsstring * list (option Message)) :=
  foldl (fun executionTracks track =>
           if decide (track.1 = lit "__proto__") then executionTracks
           else assign track.1 (trackMessages messages track.2)
                       executionTracks)
        [(lit "main", [])] execution_tracks.

(** The names that [for ... in] over [executionTracks] reaches after its
    properties: the fields of the track that is its prototype that no
    property hides. *)
Definition inheritedTracks (messages : list Message)
    (execution_tracks : list (jsstring * list nat)) : list jsstring :=
  if bool_decide (lit "__proto__" ∈ map fst execution_tracks) then
    List.filter
      (fun field =>
         negb (bool_decide
                 (field ∈ map fst (groupTracks messages execution_tracks))))
      [lit "y"; lit "messages"; lit "regions"]
  else [].

Definition trackSpacing : Z := 20.

(** Lines 282-293: the y of each track, from [nextY]. *)
Fixpoint placeTracks (nextY : Z)
    (executionTracks : list (jsstring * list (option Message)))
  : list (Z * list (option Message)) :=
  match executionTracks with
  | [] => []
  | (_, trackMessages) :: executionTracks' =>
      let trackHeight := Z.of_nat (length trackMessages) * messageHeight in
      (nextY, trackMessages)
      :: placeTracks (nextY + (trackHeight + trackSpacing)) executionTracks'
  end.

(** Lines 296-455: the loop over the tracks; the reading of a message
    that is [undefined] ends it with an exception. *)
Fixpoint renderTracks (toUpperCase : jsstring -> jsstring)
    (participants : list jsstring) (lifelines : gmap jsstring lifeline)
    (placed : list (Z * list (option Message)))
  : option (list (list cell * list region)) :=
  match placed with
  | [] => Some []
  | (y, trackMessages) :: placed' =>
      match renderTrack toUpperCase participants lifelines y trackMessages with
      | Some drawn =>
          match renderTracks toUpperCase participants lifelines placed' with
          | Some rest => Some (drawn :: rest)
          | None => None
          end
      | None => None
      end
  end.

(** The rendering effect of lines 234-455: the actors, and for each
    track its cells and regions. After the tracks, the loop of line 297
    comes to the names of [inheritedTracks]: the value at such a name
    is a number or an array and has no [messages], and the call of
    [forEach] on it throws. *)
Definition renderAsync (toUpperCase : jsstring -> jsstring)
    (participants : list jsstring) (messages : list Message)
    (execution_tracks : list (jsstring * list nat))
  : option (list cell * list (list cell * list region)) :=
  let '(actors, lifelines) := renderParticipants participants in
  let placed := placeTracks (actorY + 50) (groupTracks messages execution_tracks) in
  match renderTracks toUpperCase participants lifelines placed with
  | Some tracks =>
      match inheritedTracks messages execution_tracks with
      | [] => Some (actors, tracks)
      | _ :: _ => None
      end
  | None => None
  end.

(** The rows between [lo] and [hi]: the y of a link drawn there. *)
Definition inRows (lo hi : Z) (cells : list cell) : Prop :=
  Forall (fun y => lo <= y /\ y + messageHeight <= hi) (linkRows cells).

(** Tracks that follow each other downwards from [lo]: the links of a
    track lie in rows of its own, its regions are stacked there, and the
    next track starts [trackSpacing] below. *)
Fixpoint tracksStacked (lo : Z) (tracks : list (list cell * list region))
  : Prop :=
  match tracks with
  | [] => True
  | (cells, regions) :: tracks' =>
      exists hi, inRows lo hi cells /\ stacked lo regions hi /\
                 tracksStacked (hi + trackSpacing) tracks'
  end.


End Layout.
(** ** The track context of the Interaction Model Assembler *)

Module Tracks.
Import JS Renderer.

(** Modelled from the spec: the track context of the Interaction Model
    Assembler, section 4.3, which the sources do not contain; its
    output is the data that [AsyncSequenceDiagram] draws. The section
    leaves three things open, which the model settles as the component
    needs them: an awaited event matches the entry that was opened last;
    its message is assigned to the track that it returns to, where the
    message of the spawn is; and the synthesized names are [task_1],
    [task_2], ... The tracks are numbered in the order of their
    creation, [main] being track 0. *)

Inductive flag : Type :=
| Plain
| Spawns     (* is_async_context without is_await, spawning control flow *)
| Awaited.   (* is_awaited *)

(** A resolved event with its flag. *)
Record event := mkEvent {
  ev_from : jsstring;
  ev_to : jsstring;
  ev_method : jsstring;
  ev_args : list jsstring;
  ev_flag : flag
}.

(** An entry of the stack of open spawns: [{track_name,
    start_message_id}], with the track that was current when the entry
    was pushed. *)
Record entry := mkEntry {
  track : nat;
  start_message_id : nat;
  previous : nat
}.

(** The region of a spawned track, and whether a join closed it. *)
Record trackRegion := mkTrackRegion {
  region_track : nat;
  region_start : nat;
  region_end : nat;
  joined : bool
}.

Record state := mkState {
  registry : list jsstring;       (* the participants *)
  emitted : list Message;         (* the messages; the id is the index *)
  assigned : list nat;            (* the track of each message *)
  spawned : nat;                  (* the number of spawned tracks *)
  current : nat;                  (* the current track *)
  open_spawns : list entry;       (* innermost entry first *)
  closed : list trackRegion       (* the regions closed by a join *)
}.

Definition initial : state := mkState [] [] [] 0 0 [] [].

Definition trackName (k : nat) : jsstring :=
  match k with
  | 0 => lit "main"
  | S _ => lit "task_" ++ TreeStats.decimal (Z.of_nat k)
  end.

(** "Register from/to participants if new" and "emit a Message with id =
    next monotonic counter value", assigned to a track. *)
Definition emit (e : event) (onTrack : nat)
    (creates returns : option jsstring) (st : state) : state :=
  mkState
    (Assembler.register (ev_to e)
       (Assembler.register (ev_from e) (registry st)))
    (emitted st
     ++ [mkMessage (ev_from e) (ev_to e) (ev_method e) (ev_args e) false
           None None (TreeStats.decimal (Z.of_nat (length (emitted st))))
           creates returns])
    (assigned st ++ [onTrack])
    (spawned st) (current st) (open_spawns st) (closed st).

(** "Push a track-context entry, assign a synthesized unique track name,
    record creates_track on the message, and switch the current track
    used for subsequent message-to-track assignment." *)
Definition spawn (e : event) (st : state) : state :=
  let new := S (spawned st) in
  let st' := emit e (current st) (Some (trackName new)) None st in
  mkState (registry st') (emitted st') (assigned st') new new
    (mkEntry new (length (emitted st)) (current st) :: open_spawns st)
    (closed st).

(** "Pop it, record returns_to_track on the message, close the track's
    region at the current message id, and restore the previous current
    track." *)
Definition join (e : event) (opened : entry) (stack : list entry)
    (st : state) : state :=
  let st' :=
    emit e (previous opened) None (Some (trackName (previous opened))) st in
  mkState (registry st') (emitted st') (assigned st') (spawned st)
    (previous opened) stack
    (closed st
     ++ [mkTrackRegion (track opened) (start_message_id opened)
           (length (emitted st)) true]).

Definition step (st : state) (e : event) : state :=
  match ev_flag e, open_spawns st with
  | Spawns, _ => spawn e st
  | Awaited, opened :: stack => join e opened stack st
  | _, _ => emit e (current st) None None st
  end.

Definition assemble (events : list event) : state := foldl step initial events.

(** "At end of pass, any still-open track-context entries are closed
    with end_message_id = id of the last emitted message." *)
Definition regions (st : state) : list trackRegion :=
  closed st
  ++ map (fun opened =>
            mkTrackRegion (track opened) (start_message_id opened)
              (length (emitted st) - 1) false)
         (open_spawns st).


(** The ids of the messages of track [k], in order. *)
Definition idsOf (k : nat) (assigned : list nat) : list nat :=
  List.filter (fun i => bool_decide (assigned !! i = Some k))
              (seq 0 (length assigned)).

(** The ExecutionTrack map: the name of each track with its message
    ids, [main] first. *)
Definition execution_tracks (st : state) : list (jsstring * list nat) :=
  map (fun k => (trackName k, idsOf k (assigned st)))
      (seq 0 (S (spawned st))).





(** The stack of open spawns leads from the current track down to
    [main], each entry to the track that was current before it. *)
Fixpoint chain (cur : nat) (stack : list entry) : Prop :=
  match stack with
  | [] => cur = 0
  | opened :: stack' =>
      track opened = cur /\ previous opened < cur /\
      chain (previous opened) stack'
  end.










Definition plain (from to method : string) (f : flag) : event :=
  mkEvent (lit from) (lit to) (lit method) [] f.

(** The scenario of the specification: work is spawned and later
    awaited. *)
Definition spawnThenAwait : list event :=
  [ plain "main" "worker" "start" Spawns;
    plain "worker" "db" "query" Plain;
    plain "main" "worker" "result" Awaited ].

(** A spawn inside a spawn, and their joins. *)
Definition nestedTasks : list event :=
  [ plain "main" "worker" "start" Spawns;
    plain "worker" "worker" "fork" Spawns;
    plain "worker" "db" "query" Plain;
    plain "worker" "worker" "join" Awaited;
    plain "main" "worker" "result" Awaited ].


End Tracks.

(** ** FileIcon.tsx, FolderIcon.tsx *)

Module Icons.
Import JS StructureService.

(** The two pictographs, U+1F4C4 and U+1F5BC U+FE0F, in code units. *)
Definition page : jsstring := [55357; 56516]%N.
Definition picture : jsstring := [55357; 56764; 65039]%N.

(** The case labels of the switch of [getIconForExtension], in the
    order of the source, each with what its clause returns. *)
Definition cases : list (string * jsstring) :=
  [ (".js", page ++ lit " JS"); (".jsx", page ++ lit " JS");
    (".ts", page ++ lit " TS"); (".tsx", page ++ lit " TS");
    (".py", page ++ lit " PY"); (".java", page ++ lit " JV");
    (".go", page ++ lit " GO"); (".rb", page ++ lit " RB");
    (".php", page ++ lit " PHP");
    (".c", page ++ lit " C/C++"); (".cpp", page ++ lit " C/C++");
    (".h", page ++ lit " C/C++"); (".hpp", page ++ lit " C/C++");
    (".html", page ++ lit " HTML"); (".htm", page ++ lit " HTML");
    (".css", page ++ lit " CSS");
    (".scss", page ++ lit " SCSS"); (".sass", page ++ lit " SCSS");
    (".json", page ++ lit " JSON"); (".xml", page ++ lit " XML");
    (".yml", page ++ lit " YAML"); (".yaml", page ++ lit " YAML");
    (".csv", page ++ lit " CSV"); (".md", page ++ lit " MD");
    (".jpg", picture); (".jpeg", picture); (".png", picture);
    (".gif", picture); (".svg", picture);
    (".gitignore", page ++ lit " GIT"); (".env", page ++ lit " ENV") ].

(** The error of reading [toLowerCase] from [undefined]. *)
Definition undefinedToLowerCase : exn :=
  mkExn "TypeError"
    (lit "Cannot read properties of undefined (reading 'toLowerCase')").

Section FileIcon.

(** [String.prototype.toLowerCase]. *)
Variable toLowerCase : jsstring -> jsstring.

(** Lines 9-75. The argument is [None] when the value passed is
    [undefined], whose [toLowerCase] cannot be read. *)
Definition getIconForExtension (ext : option jsstring) : outcome jsstring exn :=
  match ext with
  | None => Rejected undefinedToLowerCase
  | Some ext =>
      let key := toLowerCase ext in
      Resolved
        match List.find (fun c => bool_decide (lit c.1 = key)) cases with
        | Some c => c.2
        | None => page
        end
  end.

(** The component, on its props object: the properties by name. What
    it returns is a span with the class names and the icon as its text. *)
Definition FileIcon (props : gmap string jsstring)
  : outcome (jsstring * jsstring) exn :=
  let extension := props !! "extension"%string in
  let className := default [] (props !! "className"%string) in
  match getIconForExtension extension with
  | Rejected e => Rejected e
  | Resolved icon =>
      Resolved (lit "inline-flex items-center justify-center " ++ className, icon)
  end.

End FileIcon.

(** [FolderIcon]: the open folder U+1F4C2 or the folder U+1F4C1. *)
Definition FolderIcon (isOpen : option bool) (className : option jsstring)
  : jsstring * jsstring :=
  (lit "inline-flex items-center justify-center " ++ default [] className,
   if default false isOpen then [55357; 56514]%N else [55357; 56513]%N).

End Icons.

(** ** TreeSearch.tsx: what the component shows *)

Module TreeSearchView.
Import JS StructureService TreeSearch Icons.

(** An entry of the result list: the icon, the name and the path. *)
Record resultRow := mkResultRow {
  rowIcon : jsstring * jsstring;
  rowName : jsstring;
  rowPath : jsstring
}.

Inductive view : Type :=
| Hidden
| Searching
| Results (rows : list resultRow)
| NoResults.

Section View.
Variable toLowerCase : jsstring -> jsstring.

(** Lines 88-103: one entry of the list. The file icon is given the
    property [filename]. *)
Definition resultEntry (node : TreeNode) : outcome resultRow exn :=
  let icon :=
    if isDirectory node then Resolved (FolderIcon None None)
    else FileIcon toLowerCase {[ "filename"%string := name node ]} in
  match icon with
  | Rejected e => Rejected e
  | Resolved icon => Resolved (mkResultRow icon (name node) (path node))
  end.

Fixpoint resultEntries (nodes : list TreeNode) : outcome (list resultRow) exn :=
  match nodes with
  | [] => Resolved []
  | node :: nodes' =>
      match resultEntry node with
      | Rejected e => Rejected e
      | Resolved row =>
          match resultEntries nodes' with
          | Rejected e => Rejected e
          | Resolved rows => Resolved (row :: rows)
          end
      end
  end.

(** Lines 81-109: the part of the component below the input, with the
    components inside it rendered; an exception of one of them is the
    outcome of the whole. *)
Definition resultsView (st : state) : outcome view exn :=
  if bool_decide (trim (searchTerm st) <> []) then
    if isSearching st then Resolved Searching
    else if (0 <? length (searchResults st))%nat then
      match resultEntries (searchResults st) with
      | Rejected e => Rejected e
      | Resolved rows => Resolved (Results rows)
      end
    else Resolved NoResults
  else Resolved Hidden.

End View.

End TreeSearchView.

(** ** TreeVisualization.tsx, FileTreeNode.tsx *)

Module TreeView.
Import JS StructureService Icons.

(** A node of the repository tree, with the properties that the two
    components read. *)
Inductive TreeNode : Type :=
| mkNode (id name type path : jsstring) (children : option (list TreeNode))
    (extension : option jsstring) (size : option Z).

Definition id (n : TreeNode) : jsstring :=
  match n with mkNode i _ _ _ _ _ _ => i end.
Definition name (n : TreeNode) : jsstring :=
  match n with mkNode _ m _ _ _ _ _ => m end.
Definition type (n : TreeNode) : jsstring :=
  match n with mkNode _ _ t _ _ _ _ => t end.
Definition path (n : TreeNode) : jsstring :=
  match n with mkNode _ _ _ p _ _ _ => p end.
Definition children (n : TreeNode) : option (list TreeNode) :=
  match n with mkNode _ _ _ _ c _ _ => c end.

(** [{ ...node, isDirectory: node.type === 'directory' }], with the
    properties that [TreeSearch] reads. *)
Definition searchNode (node : TreeNode) : TreeSearch.TreeNode :=
  TreeSearch.mkTreeNode (id node) (name node) (path node)
    (bool_decide (type node = lit "directory")).

(** [traverse] of [flattenedNodes], with the array [nodes] that it
    pushes to passed through. *)
Fixpoint traverse (node : TreeNode) (nodes : list TreeSearch.TreeNode)
  {struct node} : list TreeSearch.TreeNode :=
  let nodes := nodes ++ [searchNode node] in
  match node with
  | mkNode _ _ _ _ (Some children) _ _ =>
      fold_left (fun nodes child => traverse child nodes) children nodes
  | mkNode _ _ _ _ None _ _ => nodes
  end.

Definition flattenedNodes (rootNode : TreeNode) : list TreeSearch.TreeNode :=
  traverse rootNode [].

(** A value of the property [isExpanded]: a boolean, or a built-in of
    [Object.prototype], which is what [expandedNodes[rootNode.id]] gives
    when the identifier is the name of one and [expandedNodes] has no
    entry for it; the built-in is an object or a function, truthy and
    not [undefined]. *)
Inductive expanded : Type :=
| Flag (b : bool)
| BuiltinValue.

Definition isTruthy (v : expanded) : bool :=
  match v with Flag b => b | BuiltinValue => true end.

(** A row of the tree view: the node, the depth that sets its
    indentation, whether it is highlighted, the value given to
    [aria-expanded], and the icon. *)
Record row := mkRow {
  rowId : jsstring;
  rowDepth : nat;
  rowSelected : bool;
  rowExpanded : option expanded;
  rowIcon : jsstring * jsstring
}.

(** The folder icon as [FileTreeNode] asks for it. *)
Definition folder (nodeIsExpanded : bool) : jsstring * jsstring :=
  FolderIcon (Some nodeIsExpanded) (Some (lit "mr-2 text-yellow-500")).

Section FileTreeNode.
Variable toLowerCase : jsstring -> jsstring.

(** The component [FileTreeNode] with the components inside it
    rendered: the row of the node, followed by the rows of the children
    that are shown. The file icon is given the property [filename]. *)
Fixpoint FileTreeNode (node : TreeNode) (depth : nat) (isSelected : bool)
    (isExpanded : option expanded) {struct node} : outcome (list row) exn :=
  match node with
  | mkNode nodeId nodeName nodeType _ nodeChildren _ _ =>
      let isDirectory := bool_decide (nodeType = lit "directory") in
      let hasChildren :=
        isDirectory
        && match nodeChildren with Some (_ :: _) => true | _ => false end in
      let nodeIsExpanded :=
        match isExpanded with
        | Some isExpanded => isExpanded
        | None => Flag (depth <? 2)%nat
        end in
      let icon :=
        if isDirectory
        then Resolved (folder (isTruthy nodeIsExpanded))
        else FileIcon toLowerCase
               {[ "filename"%string := nodeName;
                  "className"%string := lit "mr-2" ]} in
      match icon with
      | Rejected e => Rejected e
      | Resolved icon =>
          let nodeRow :=
            mkRow nodeId depth isSelected
              (if hasChildren then Some nodeIsExpanded else None) icon in
          let fix each (children : list TreeNode) : outcome (list row) exn :=
            match children with
            | [] => Resolved []
            | childNode :: children' =>
                match
                  FileTreeNode childNode (S depth)
                    (isSelected && bool_decide (id childNode = nodeId))
                    match isExpanded with
                    | Some isExpanded =>
                        if bool_decide (type childNode = lit "directory")
                        then Some isExpanded else None
                    | None => None
                    end
                with
                | Rejected e => Rejected e
                | Resolved rows =>
                    match each children' with
                    | Rejected e => Rejected e
                    | Resolved rows' => Resolved (rows ++ rows')
                    end
                end
            end in
          match nodeChildren with
          | Some children =>
              if hasChildren && isTruthy nodeIsExpanded then
                match each children with
                | Rejected e => Rejected e
                | Resolved rows => Resolved (nodeRow :: rows)
                end
              else Resolved [nodeRow]
          | None => Resolved [nodeRow]
          end
      end
  end.

(** The rows of the children of a node that is expanded, as the
    component renders them. *)
Fixpoint childRows (nodeId : jsstring) (depth : nat) (isSelected : bool)
    (isExpanded : option expanded) (children : list TreeNode)
  : outcome (list row) exn :=
  match children with
  | [] => Resolved []
  | childNode :: children' =>
      match
        FileTreeNode childNode (S depth)
          (isSelected && bool_decide (id childNode = nodeId))
          match isExpanded with
          | Some isExpanded =>
              if bool_decide (type childNode = lit "directory")
              then Some isExpanded else None
          | None => None
          end
      with
      | Rejected e => Rejected e
      | Resolved rows =>
          match childRows nodeId depth isSelected isExpanded children' with
          | Rejected e => Rejected e
          | Resolved rows' => Resolved (rows ++ rows')
          end
      end
  end.

End FileTreeNode.

(** *** TreeVisualization.tsx: the state of the tree view *)

(** The state behind the tree: the selected node and the object
    [expandedNodes], as the finite map of its properties. Its
    prototype is [Object.prototype] throughout: the object literals of
    lines 324 and 402 create a property for every key, and the
    assignment of line 388 that would set a prototype is given a
    boolean and does nothing. *)
Record viewState := mkViewState {
  selectedNode : option TreeNode;
  expandedNodes : gmap jsstring bool
}.

(** [expandedNodes[nodeId]]: the entry, or a built-in of
    [Object.prototype], or [undefined]. *)
Definition expandedEntry (expandedNodes : gmap jsstring bool)
    (nodeId : jsstring) : option expanded :=
  match getProp [] expandedNodes nodeId with
  | Own b => Some (Flag b)
  | Inherited _ | Builtin => Some BuiltinValue
  | Absent => None
  end.

(** Lines 323-328: [{ ...prev, [nodeId]: !prev[nodeId] }]. *)
Definition toggleNodeCollapse (nodeId : jsstring) (st : viewState) : viewState :=
  mkViewState (selectedNode st)
    (<[nodeId := negb (from_option isTruthy false
                         (expandedEntry (expandedNodes st) nodeId))]>
       (expandedNodes st)).

(** Lines 330-341, without the call of [onNodeSelect]. *)
Definition handleNodeClick (node : TreeNode) (st : viewState) : viewState :=
  let st := mkViewState (Some node) (expandedNodes st) in
  if bool_decide (type node = lit "directory")
  then toggleNodeCollapse (id node) st
  else st.

(** Lines 384-392; the nodes of [flattenedNodes] keep their [type],
    which their [isDirectory] tells. The assignment
    [allExpanded[node.id] = true] creates a property, except for the
    identifier [__proto__], where it calls the setter of
    [Object.prototype], which ignores a boolean. *)
Definition handleExpandAll (rootNode : TreeNode) (st : viewState) : viewState :=
  mkViewState (selectedNode st)
    (foldl (fun allExpanded node =>
              if TreeSearch.isDirectory node
                 && negb (bool_decide (TreeSearch.id node = lit "__proto__"))
              then <[TreeSearch.id node := true]> allExpanded
              else allExpanded)
           ∅ (flattenedNodes rootNode)).

(** Lines 394-396. *)
Definition handleCollapseAll (st : viewState) : viewState :=
  mkViewState (selectedNode st) ∅.

(** Lines 399-406: the effect that runs when the component is mounted. *)
Definition mounted (rootNode : TreeNode) (st : viewState) : viewState :=
  mkViewState (selectedNode st) (<[id rootNode := true]> (expandedNodes st)).

(** Lines 438-444: the tree that the component shows. *)
Definition treeRows (toLowerCase : jsstring -> jsstring) (rootNode : TreeNode)
    (st : viewState) : outcome (list row) exn :=
  FileTreeNode toLowerCase rootNode 0
    (bool_decide (id <$> selectedNode st = Some (id rootNode)))
    (expandedEntry (expandedNodes st) (id rootNode)).

(** The nodes of the rows, or the exception. *)
Definition rowIds (shown : outcome (list row) exn) : outcome (list jsstring) exn :=
  match shown with
  | Resolved rows => Resolved (map rowId rows)
  | Rejected e => Rejected e
  end.

(** The nodes down to [levels] levels below a node, in pre-order. *)
Fixpoint within (levels : nat) (node : TreeNode) : list TreeNode :=
  node ::
  match levels with
  | 0 => []
  | S levels' => flat_map (within levels') (default [] (children node))
  end.

(** Every node of the tree is a directory. *)
Definition allDirectories (node : TreeNode) : Prop :=
  Forall (fun n => TreeSearch.isDirectory n = true) (flattenedNodes node).

(** [src] with a directory and a file in it. *)
Definition sampleTree : TreeNode :=
  mkNode (lit "1") (lit "src") (lit "directory") (lit "/src")
    (Some [ mkNode (lit "2") (lit "components") (lit "directory")
              (lit "/src/components") (Some []) None None;
            mkNode (lit "3") (lit "App.tsx") (lit "file") (lit "/src/App.tsx")
              None (Some (lit ".tsx")) (Some 120%Z) ])
    None None.

(** Directories only. *)
Definition directoryTree : TreeNode :=
  mkNode (lit "1") (lit "src") (lit "directory") (lit "/src")
    (Some [ mkNode (lit "2") (lit "components") (lit "directory")
              (lit "/src/components")
              (Some [ mkNode (lit "3") (lit "common") (lit "directory")
                        (lit "/src/components/common") None None None ])
              None None;
            mkNode (lit "4") (lit "utils") (lit "directory") (lit "/src/utils")
              (Some []) None None ])
    None None.

(** Four levels of directories under a root with the identifier
    [constructor]. *)
Definition deepTree : TreeNode :=
  mkNode (lit "constructor") (lit "src") (lit "directory") (lit "/src")
    (Some [ mkNode (lit "2") (lit "a") (lit "directory") (lit "/src/a")
              (Some [ mkNode (lit "3") (lit "b") (lit "directory")
                        (lit "/src/a/b")
                        (Some [ mkNode (lit "4") (lit "c") (lit "directory")
                                  (lit "/src/a/b/c") None None None ])
                        None None ])
              None None ])
    None None.

(** The node with another identifier. *)
Definition renamed (nodeId : jsstring) (node : TreeNode) : TreeNode :=
  match node with
  | mkNode _ nodeName nodeType nodePath nodeChildren extension size =>
      mkNode nodeId nodeName nodeType nodePath nodeChildren extension size
  end.

End TreeView.

(** ** DependencyGraph.tsx *)

Module DependencyGraph.
Import JS.

Record DependencyNode := mkNode {
  id : jsstring; name : jsstring; path : jsstring; type : jsstring
}.

Record DependencyEdge := mkEdge {
  source : jsstring; target : jsstring; edgeType : jsstring
}.

Section Graph.
Variable nodes : list DependencyNode.
Variable edges : list DependencyEdge.

(** Lines 154-160. *)
Definition getNodeDependencies (nodeId : jsstring) : list DependencyNode :=
  let dependencyIds :=
    map target (List.filter (fun edge => bool_decide (source edge = nodeId)) edges) in
  List.filter (fun node => bool_decide (id node ∈ dependencyIds)) nodes.

(** Lines 163-169. *)
Definition getNodeDependents (nodeId : jsstring) : list DependencyNode :=
  let dependentIds :=
    map source (List.filter (fun edge => bool_decide (target edge = nodeId)) edges) in
  List.filter (fun node => bool_decide (id node ∈ dependentIds)) nodes.

End Graph.

(** The state of the pan by dragging, lines 20-23. Pointer positions
    are whole numbers of pixels. *)
Record dragState := mkDragState {
  pan : Z * Z;
  isDragging : bool;
  dragStart : Z * Z
}.

(** The mouse events that the graph area listens to. *)
Inductive mouseEvent : Type :=
| MouseDown (button clientX clientY : Z)
| MouseMove (clientX clientY : Z)
| MouseUp
| MouseLeave.

Local Open Scope Z_scope.

(** Lines 130-151: the handlers, each on the state that the event
    before it has left. *)
Definition handleMouse (st : dragState) (e : mouseEvent) : dragState :=
  match e with
  | MouseDown button clientX clientY =>
      if button =? 0
      then mkDragState (pan st) true (clientX, clientY)
      else st
  | MouseMove clientX clientY =>
      if isDragging st then
        let dx := clientX - (dragStart st).1 in
        let dy := clientY - (dragStart st).2 in
        mkDragState ((pan st).1 + dx, (pan st).2 + dy) true (clientX, clientY)
      else st
  | MouseUp | MouseLeave => mkDragState (pan st) false (dragStart st)
  end.

End DependencyGraph.

(** ** SequenceDiagramContainer.tsx *)

Module SequenceDiagramContainer.

Local Open Scope Z_scope.

Definition PAN_STEP : Z := 30.

Inductive direction : Type := up | down | left | right.

Record panPosition := mkPan { x : Z; y : Z }.

(** The update of [handlePan], lines 78-93. *)
Definition handlePan (prevPosition : panPosition) (d : direction)
  : panPosition :=
  match d with
  | up => mkPan (x prevPosition) (y prevPosition + PAN_STEP)
  | down => mkPan (x prevPosition) (y prevPosition - PAN_STEP)
  | left => mkPan (x prevPosition + PAN_STEP) (y prevPosition)
  | right => mkPan (x prevPosition - PAN_STEP) (y prevPosition)
  end.

(** The number of presses of one direction. *)
Definition presses (d : direction) (ds : list direction) : Z :=
  Z.of_nat (length (List.filter
    (fun d' => match d, d' with
               | up, up | down, down | left, left | right, right => true
               | _, _ => false
               end) ds)).

End SequenceDiagramContainer.

(** * Properties *)

(** ** Strings *)

Module JSFacts.
Import JS.

Lemma startsWith_spec needle hay :
  startsWith needle hay = true <-> exists post, hay = needle ++ post.
Proof.
  revert hay. induction needle as [|c needle IH]; intros hay; simpl.
  - split; [eauto|done].
  - destruct hay as [|d hay].
    + split; [done|]. intros [post H]. discriminate H.
    + rewrite andb_true_iff, N.eqb_eq, IH. split.
      * intros [-> [post ->]]. eauto.
      * intros [post H]. injection H as -> ->. eauto.
Qed.

Lemma includes_spec hay needle :
  includes hay needle = true <->
  exists pre post, hay = pre ++ needle ++ post.
Proof.
  induction hay as [|d hay IH]; simpl;
    rewrite orb_true_iff, startsWith_spec.
  - split.
    + intros [[post H]|?]; [|done]. exists [], post. done.
    + intros (pre & post & H). left.
      destruct pre; [eauto|discriminate H].
  - rewrite IH. split.
    + intros [[post H]|(pre & post & H)].
      * exists [], post. done.
      * exists (d :: pre), post. simpl. by rewrite H.
    + intros (pre & post & H). destruct pre as [|p pre]; simpl in H.
      * left. eauto.
      * right. injection H as -> ->. eauto.
Qed.

Lemma trimStart_spec s :
  exists ws, s = ws ++ trimStart s /\ forallb isWhiteSpace ws = true /\
    match trimStart s with c :: _ => isWhiteSpace c = false | [] => True end.
Proof.
  induction s as [|c s (ws & Hs & Hws & Hhd)]; simpl.
  - exists []. done.
  - destruct (isWhiteSpace c) eqn:Hc.
    + exists (c :: ws). simpl. rewrite Hc, Hws. split; [by f_equal|done].
    + exists []. simpl. by rewrite Hc.
Qed.

Lemma trimStart_all_ws s :
  trimStart s = [] <-> forallb isWhiteSpace s = true.
Proof.
  induction s as [|c s IH]; simpl; [done|].
  destruct (isWhiteSpace c); simpl; [done|]. split; discriminate.
Qed.

Lemma forallb_isWhiteSpace_Forall s :
  forallb isWhiteSpace s = true <-> blank s.
Proof.
  unfold blank. rewrite forallb_forall, Forall_forall.
  split; intros H c Hc; apply H; by apply list_elem_of_In.
Qed.

Lemma trimEnd_spec s :
  exists ws, s = trimEnd s ++ ws /\ blank ws /\
    match last (trimEnd s) with
    | Some c => isWhiteSpace c = false
    | None => True
    end.
Proof.
  unfold trimEnd. destruct (trimStart_spec (rev s)) as (ws & Hs & Hws & Hhd).
  exists (rev ws). split; [|split].
  - rewrite <- rev_app_distr, <- Hs. by rewrite rev_involutive.
  - apply forallb_isWhiteSpace_Forall in Hws. unfold blank in *.
    by apply Forall_rev.
  - destruct (trimStart (rev s)) as [|c r]; [done|]. simpl.
    by rewrite last_snoc.
Qed.

(** [trim] takes white space off both ends and nothing else: the text is
    the trimmed text between two blank pieces, and the trimmed text, when
    it is not empty, begins and ends with a code unit that is not white
    space. *)
Lemma trim_spec s :
  exists ws1 ws2, s = ws1 ++ trim s ++ ws2 /\ blank ws1 /\ blank ws2 /\
    match head (trim s), last (trim s) with
    | Some c, Some d => isWhiteSpace c = false /\ isWhiteSpace d = false
    | None, None => trim s = []
    | _, _ => False
    end.
Proof.
  unfold trim.
  destruct (trimStart_spec s) as (ws1 & Hs & Hws1 & Hhd).
  destruct (trimEnd_spec (trimStart s)) as (ws2 & Hs2 & Hws2 & Hlast).
  exists ws1, ws2. split; [by rewrite <- Hs2|].
  split; [by apply forallb_isWhiteSpace_Forall|]. split; [done|].
  destruct (trimEnd (trimStart s)) as [|c r] eqn:E; [done|].
  destruct (last (c :: r)) as [d|] eqn:El.
  - split; [|done]. rewrite Hs2 in Hhd. simpl in *. done.
  - by apply last_None in El.
Qed.

End JSFacts.

(** ** TreeSearch *)

Module TreeSearchFacts.
Import JS JSFacts TreeSearch.

(** [trim] leaves nothing exactly when every code unit is white space. *)
Lemma trim_nil_iff s :
  trim s = [] <-> blank s.
Proof.
  rewrite <- forallb_isWhiteSpace_Forall. unfold trim, trimEnd.
  destruct (trimStart_spec s) as (ws & Hs & Hws & Hhd). split.
  - intros H. apply (f_equal (@rev N)) in H. rewrite rev_involutive in H.
    simpl in H. apply trimStart_all_ws in H.
    rewrite forallb_forall in H. rewrite Hs, forallb_app, Hws. simpl.
    apply forallb_forall. intros c Hc. apply H, in_rev.
    by rewrite rev_involutive.
  - intros H. apply trimStart_all_ws in H. by rewrite H.
Qed.

Lemma filter_bool_Prop {A} (f : A -> bool) (P : A -> Prop)
    `{!forall x, Decision (P x)} (l : list A) :
  (forall x, f x = true <-> P x) -> List.filter f l = filter P l.
Proof.
  intros Hf. induction l as [|x l IH]; [done|].
  simpl. rewrite filter_cons, IH. destruct (decide (P x)) as [HP|HP].
  - apply Hf in HP. by rewrite HP.
  - destruct (f x) eqn:E; [|done]. by apply Hf in E.
Qed.

Section Search.
Variable toLowerCase : jsstring -> jsstring.

Lemma matches_bool term node :
  includes (toLowerCase (name node)) (toLowerCase term)
  || includes (toLowerCase (path node)) (toLowerCase term) = true
  <-> node_matches toLowerCase term node.
Proof.
  unfold node_matches, contains_ci.
  by rewrite orb_true_iff, !includes_spec.
Qed.

(** C10. For a term that is empty or made of white space only, the search
    leaves an empty result list; for any other term the result list is the
    node list filtered, in its input order, down to exactly the nodes whose
    lower-cased name or lower-cased path contains the lower-cased term. *)
Theorem performSearch_selects (nodes : list TreeNode) (st : state) :
  let term := searchTerm st in
  let st' := performSearch toLowerCase nodes st in
  isSearching st' = false /\ searchTerm st' = term /\
  (whitespace_only term -> searchResults st' = []) /\
  (~ whitespace_only term ->
     forall (D : forall n, Decision (node_matches toLowerCase term n)),
       searchResults st' = filter (node_matches toLowerCase term) nodes) /\
  (~ whitespace_only term ->
     searchResults st' `sublist_of` nodes /\
     forall n, n ∈ searchResults st' <->
               n ∈ nodes /\ node_matches toLowerCase term n).
Proof.
  intros term st'. subst st'. unfold performSearch.
  destruct (trim (searchTerm st)) as [|c r] eqn:Ht; simpl.
  - apply trim_nil_iff in Ht. fold term in Ht.
    repeat split; try done; intros H; by destruct H.
  - assert (Hn : ~ whitespace_only term).
    { intros H. apply trim_nil_iff in H. unfold term in H. congruence. }
    split; [done|]. split; [done|]. split; [done|].
    assert (Hf : forall D : (forall n, Decision (node_matches toLowerCase term n)),
      List.filter (fun node =>
        includes (toLowerCase (name node)) (toLowerCase (searchTerm st))
        || includes (toLowerCase (path node)) (toLowerCase (searchTerm st)))
        nodes = filter (node_matches toLowerCase term) nodes).
    { intros D. apply filter_bool_Prop. intros n. apply matches_bool. }
    split; [intros _ D; apply Hf|]. intros _.
    pose (D := fun n => decide_rel (=) _ true
       : Decision (includes (toLowerCase (name n)) (toLowerCase term)
          || includes (toLowerCase (path n)) (toLowerCase term) = true)).
    assert (D' : forall n, Decision (node_matches toLowerCase term n)).
    { intros n. destruct (D n) as [H|H].
      - left. by apply matches_bool.
      - right. intros H'. by apply H, matches_bool. }
    rewrite (Hf D'). split.
    + apply sublist_filter.
    + intros n. rewrite list_elem_of_filter. tauto.
Qed.

End Search.

(** The searches of [TreeSearch.test.tsx]: 'tsx', 'TSX' and 'utils'. *)
Example performSearch_tsx :
  map name (searchResults
    (performSearch asciiLower mockNodes (mkState (lit "TSX") [] false)))
  = [lit "App.tsx"; lit "index.tsx"; lit "Button.tsx"]
  /\ map name (searchResults
    (performSearch asciiLower mockNodes (mkState (lit "utils") [] false)))
  = [lit "utils"; lit "helpers.ts"]
  /\ searchResults
    (performSearch asciiLower mockNodes (mkState (lit "   ") mockNodes false))
  = [].
Proof. by vm_compute. Qed.

End TreeSearchFacts.

(** ** structureService *)

Module StructureServiceFacts.
Import JS StructureService.

Section Service.
Variable number : Type.
Variable isZero : number -> bool.
Variable NumberToString : number -> jsstring.
Variable fetch : jsstring -> outcome (Response number) exn.

Abbreviation fetch_json := (fetch_json number isZero NumberToString fetch).

(** An ok response: the fetcher settles as [response.json()] does. *)
Lemma fetch_json_ok url failure response :
  fetch url = Resolved response -> ok response = true ->
  fetch_json url failure = json_ response.
Proof. intros Hf Hok. unfold StructureService.fetch_json. by rewrite Hf, Hok. Qed.

(** A response that is not ok and whose body is an object with a non-empty
    string [detail]: the error carries that string. *)
Lemma fetch_json_detail url failure response members d :
  fetch url = Resolved response -> ok response = false ->
  json_ response = Resolved (JObject members) ->
  lookup_member number (lit "detail") members = Some (JString d) ->
  d <> [] ->
  fetch_json url failure = Rejected (mkExn "Error" d).
Proof.
  intros Hf Hok Hj Hd Hne. unfold StructureService.fetch_json.
  rewrite Hf, Hok, Hj. simpl. rewrite Hd. simpl. by destruct d.
Qed.

(** A response that is not ok and whose body does not parse: the error
    carries the fallback message, which ends in the status text. *)
Lemma fetch_json_unparsed url failure response e :
  fetch url = Resolved response -> ok response = false ->
  json_ response = Rejected e ->
  fetch_json url failure
  = Rejected (mkExn "Error" (failure ++ statusText response)).
Proof.
  intros Hf Hok Hj. unfold StructureService.fetch_json.
  by rewrite Hf, Hok, Hj.
Qed.

(** A response that is not ok and whose body is an object without a
    [detail] member: the fallback message again. *)
Lemma fetch_json_no_detail url failure response members :
  fetch url = Resolved response -> ok response = false ->
  json_ response = Resolved (JObject members) ->
  lookup_member number (lit "detail") members = None ->
  fetch_json url failure
  = Rejected (mkExn "Error" (failure ++ statusText response)).
Proof.
  intros Hf Hok Hj Hd. unfold StructureService.fetch_json.
  rewrite Hf, Hok, Hj. simpl. by rewrite Hd.
Qed.

End Service.

(** A server that answers every request with status 500 and the JSON
    text [null]. *)
Definition null_body_server (url : jsstring) : outcome (Response Z) exn :=
  Resolved (mkResponse false (lit "Internal Server Error") (Resolved JNull)).

(** C9. On a response that is not ok and whose body is the JSON text
    [null], both fetchers reject with the [TypeError] of reading [detail]
    from [null], and not with an [Error] that carries the fallback message
    and the status text. *)
Theorem fetchers_null_body_TypeError :
  let run (f : (jsstring -> outcome (Response Z) exn) -> jsstring ->
                option (list jsstring) -> outcome (json Z) exn) :=
    f null_body_server (lit "repo") None in
  let getRepositoryStructure :=
    getRepositoryStructure Z (Z.eqb 0) (fun _ => []) (fun s => s) in
  let getRepositoryDependencies :=
    getRepositoryDependencies Z (Z.eqb 0) (fun _ => []) (fun s => s) in
  run getRepositoryStructure
  = Rejected (mkExn "TypeError"
      (lit "Cannot read properties of null (reading 'detail')")) /\
  run getRepositoryDependencies
  = Rejected (mkExn "TypeError"
      (lit "Cannot read properties of null (reading 'detail')")) /\
  run getRepositoryStructure
  <> Rejected (mkExn "Error"
      (lit "Failed to fetch repository structure: Internal Server Error")) /\
  run getRepositoryDependencies
  <> Rejected (mkExn "Error"
      (lit "Failed to fetch repository dependencies: Internal Server Error")).
Proof. repeat split; by vm_compute. Qed.

(** The two error responses of [structureService.test.ts]. *)
Example fetchers_not_found :
  let server (url : jsstring) : outcome (Response Z) exn :=
    Resolved (mkResponse false (lit "Not Found")
      (Resolved (JObject [(lit "detail", JString (lit "Repository not found"))]))) in
  getRepositoryStructure Z (Z.eqb 0) (fun _ => []) (fun s => s) server
    (lit "test-repo-123") None
  = Rejected (mkExn "Error" (lit "Repository not found")).
Proof. by vm_compute. Qed.

End StructureServiceFacts.

(** ** The call extractor *)

Module ExtractorFacts.
Import JS JSFacts Extractor.

(** Induction on a syntax tree, with the hypothesis for every child. *)
Lemma node_children_ind (P : node -> Prop) :
  (forall n, Forall P (forEachChild n) -> P n) -> forall n, P n.
Proof.
  intros H. fix IH 1. intros n. apply H.
  assert (Hl : forall l (rec : forall c, P c), Forall P l).
  { intros l rec. induction l; constructor; auto. }
  destruct n as [p e' e q tas args|p e' e tas args|p e' e q name|p e' e
                |p e' t|p e' t|k p e' children]; simpl.
  - constructor; [apply IH|]. apply Forall_app. split.
    + destruct q as [t|]; simpl; [constructor; [apply IH|constructor]|constructor].
    + apply Forall_app. split.
      * induction tas; constructor; [apply IH|assumption].
      * induction args; constructor; [apply IH|assumption].
  - constructor; [apply IH|]. apply Forall_app. split.
    + induction tas; constructor; [apply IH|assumption].
    + destruct args as [args|]; simpl; [|constructor].
      induction args; constructor; [apply IH|assumption].
  - constructor; [apply IH|]. apply Forall_app. split.
    + destruct q as [t|]; simpl; [constructor; [apply IH|constructor]|constructor].
    + constructor; [apply IH|constructor].
  - constructor; [apply IH|constructor].
  - constructor.
  - constructor.
  - induction children; constructor; [apply IH|assumption].
Qed.

Section Walk.
Variable sourceCode : jsstring.
Variable getLineAndCharacterOfPosition : nat -> nat * nat.
Variable skipTrivia : nat -> nat.

Abbreviation visit := (visit sourceCode getLineAndCharacterOfPosition skipTrivia).
Abbreviation extract := (extract sourceCode getLineAndCharacterOfPosition skipTrivia).
Abbreviation methodCallEvents :=
  (methodCallEvents sourceCode getLineAndCharacterOfPosition).
Abbreviation constructorEvents :=
  (constructorEvents sourceCode getLineAndCharacterOfPosition skipTrivia).

Abbreviation eventsAt :=
  (eventsAt sourceCode getLineAndCharacterOfPosition skipTrivia).
Abbreviation positionAt := (positionAt getLineAndCharacterOfPosition).

Lemma preorder_children parent n :
  preorder parent n
  = (parent, n) :: flat_map (preorder (Some n)) (forEachChild n).
Proof.
  destruct n as [p e' e q tas args|p e' e tas args|p e' e q name|p e' e
                |p e' t|p e' t|k p e' children]; simpl; f_equal.
  - destruct q; simpl; by rewrite ?flat_map_app, ?app_nil_r.
  - destruct args; simpl; by rewrite ?flat_map_app, ?app_nil_r.
  - destruct q; simpl; by rewrite ?app_nil_r.
  - by rewrite app_nil_r.
Qed.

Lemma visit_children parent n methodCalls :
  visit parent n methodCalls
  = fold_left (fun methodCalls child => visit (Some n) child methodCalls)
      (forEachChild n)
      (methodCalls ++ eventsAt (parent, n)).
Proof.
  unfold Extractor.eventsAt. rewrite app_assoc.
  destruct n as [p e' e q tas args|p e' e tas args|p e' e q name|p e' e
                |p e' t|p e' t|k p e' children]; simpl;
    rewrite ?fold_left_app; try done.
  - by destruct q.
  - by destruct args.
  - by destruct q.
Qed.

Lemma fold_visit_preorder (children : list node) :
  Forall (fun c => forall parent methodCalls,
            visit parent c methodCalls
            = methodCalls ++ flat_map eventsAt (preorder parent c)) children ->
  forall parent methodCalls,
    fold_left (fun methodCalls child => visit parent child methodCalls)
      children methodCalls
    = methodCalls ++ flat_map eventsAt (flat_map (preorder parent) children).
Proof.
  induction 1 as [|c cs Hc _ IH]; intros parent methodCalls; simpl.
  - by rewrite app_nil_r.
  - by rewrite Hc, IH, flat_map_app, app_assoc.
Qed.

(** The walk appends, to the array it is given, what it pushes at the
    nodes of the tree taken in depth-first pre-order. *)
Lemma visit_preorder n :
  forall parent methodCalls,
    visit parent n methodCalls
    = methodCalls ++ flat_map eventsAt (preorder parent n).
Proof.
  induction n as [n IH] using node_children_ind. intros parent methodCalls.
  rewrite visit_children, preorder_children, (fold_visit_preorder _ IH).
  simpl. by rewrite <- !app_assoc.
Qed.

Lemma extract_preorder t :
  extract t = flat_map eventsAt (preorder None t).
Proof. unfold Extractor.extract. by rewrite visit_preorder. Qed.

Lemma eventsAt_reported parent n :
  (reported n = true /\ exists e, eventsAt (parent, n) = [e] /\
     position e = positionAt n) \/
  (reported n = false /\ eventsAt (parent, n) = []).
Proof.
  unfold Extractor.eventsAt, reported, Extractor.positionAt,
    Extractor.methodCallEvents, Extractor.constructorEvents. simpl.
  destruct n as [p e' e q tas args|p e' e tas args|p e' e q name|p e' e
                |p e' t|p e' t|k p e' children]; simpl; try (by right).
  - destruct e; simpl; try (by right).
    destruct (getLineAndCharacterOfPosition p) as [line character].
    left. split; [done|]. eexists. split; [done|]. done.
  - destruct (getLineAndCharacterOfPosition p) as [line character].
    left. split; [done|]. eexists. split; [done|]. done.
Qed.

Lemma events_of_sites (sites : list (option node * node)) :
  map position (flat_map eventsAt sites)
  = map positionAt (List.filter reported (map snd sites)).
Proof.
  induction sites as [|[parent n] sites IH]; [done|]. simpl.
  rewrite map_app, IH.
  destruct (eventsAt_reported parent n) as [(-> & e & -> & He)|(-> & ->)];
    simpl; by rewrite ?He.
Qed.

(** C1, the extractor's part: the walk reports one event per method call
    (a call whose callee is a property access) and per [new] expression. *)
Lemma extract_length t :
  length (extract t) = length (reportedSites t).
Proof.
  rewrite <- (length_map position), extract_preorder, events_of_sites.
  by rewrite length_map.
Qed.

(** The full starts of the nodes of a subtree, in pre-order. *)
Definition starts (parent : option node) (n : node) : list nat :=
  map (fun site => pos site.2) (preorder parent n).

Lemma chain_starts (children : list node) (parent : option node) :
  forall lo hi,
    chain lo children hi ->
    Forall (fun c => StronglySorted le (starts parent c) /\
                     Forall (fun x => pos c <= x <= end_ c) (starts parent c))
           children ->
    StronglySorted le (flat_map (starts parent) children) /\
    Forall (fun x => lo <= x <= hi) (flat_map (starts parent) children) /\
    lo <= hi.
Proof.
  induction children as [|c cs IH]; intros lo hi Hch Hcs; simpl in *.
  - repeat constructor. done.
  - destruct Hch as [Hlo Hch]. apply Forall_cons in Hcs as [[Hs Hb] Hcs].
    destruct (IH _ _ Hch Hcs) as (Hs' & Hb' & Hle).
    assert (Hc : pos c <= end_ c).
    { unfold starts in Hb. rewrite preorder_children in Hb. simpl in Hb.
      apply Forall_cons in Hb as [Hb _]. lia. }
    split; [|split; [|lia]].
    + apply StronglySorted_app_2; [|done..].
      intros x1 x2 H1 H2.
      rewrite Forall_forall in Hb, Hb'.
      specialize (Hb _ H1). specialize (Hb' _ H2). lia.
    + apply Forall_app. split.
      * eapply Forall_impl; [exact Hb|]. simpl. intros x Hx. lia.
      * eapply Forall_impl; [exact Hb'|]. simpl. intros x Hx. lia.
Qed.

Lemma starts_children parent n :
  starts parent n = pos n :: flat_map (starts (Some n)) (forEachChild n).
Proof.
  unfold starts. rewrite preorder_children. simpl. f_equal.
  induction (forEachChild n) as [|c cs IH]; [done|].
  simpl. by rewrite map_app, IH.
Qed.

Lemma preorder_nodes_parent parent parent' n :
  map snd (preorder parent n) = map snd (preorder parent' n).
Proof.
  by rewrite !preorder_children.
Qed.

Lemma subtree_of_child parent n c m :
  c ∈ forEachChild n -> m ∈ map snd (preorder (Some n) c) ->
  m ∈ map snd (preorder parent n).
Proof.
  intros Hc Hm. rewrite preorder_children. simpl. right.
  apply list_elem_of_fmap in Hm as ([p' m'] & -> & Hm).
  apply list_elem_of_fmap. exists (p', m'). split; [done|].
  apply list_elem_of_In, in_flat_map. exists c.
  split; by apply list_elem_of_In.
Qed.

(** In a tree whose ranges are nested, the pre-order lists the nodes by
    non-decreasing full start, all within the range of the root. *)
Lemma nested_starts_sorted n :
  forall parent,
    (forall m, m ∈ map snd (preorder parent n) ->
               chain (pos m) (forEachChild m) (end_ m)) ->
    StronglySorted le (starts parent n) /\
    Forall (fun x => pos n <= x <= end_ n) (starts parent n).
Proof.
  induction n as [n IH] using node_children_ind. intros parent Hn.
  assert (Hroot : chain (pos n) (forEachChild n) (end_ n)).
  { apply Hn. rewrite preorder_children. simpl. left. }
  destruct (chain_starts (forEachChild n) (Some n) _ _ Hroot)
    as (Hs & Hb & Hle).
  { rewrite Forall_forall in IH. apply Forall_forall. intros c Hc.
    apply IH; [done|]. intros m Hm. eapply Hn, subtree_of_child; eauto. }
  rewrite starts_children. split.
  - constructor; [done|]. eapply Forall_impl; [exact Hb|]. simpl. lia.
  - constructor; [lia|]. eapply Forall_impl; [exact Hb|]. simpl. lia.
Qed.

Lemma position_leb_le p q : position_leb p q = true <-> position_le p q.
Proof.
  unfold position_leb, position_le.
  rewrite orb_true_iff, andb_true_iff, Nat.ltb_lt, Nat.eqb_eq, Nat.leb_le.
  done.
Qed.

(** The stable sort leaves a list alone that is already in position order:
    events of equal position stay as they were pushed. *)
Lemma sort_by_position_sorted (l : list event) :
  StronglySorted position_le (map position l) -> sort_by_position l = l.
Proof.
  induction l as [|e l IH]; [done|]. simpl. intros H.
  apply StronglySorted_cons in H as [Hhd Hs]. rewrite (IH Hs).
  destruct l as [|e' l]; [done|]. simpl in *.
  apply Forall_cons in Hhd as [Hhd _].
  apply position_leb_le in Hhd. by rewrite Hhd.
Qed.

Lemma StronglySorted_filter_bool {A} (R : relation A) (f : A -> bool) l :
  StronglySorted R l -> StronglySorted R (List.filter f l).
Proof.
  induction 1 as [|x l Hs IH Hx]; simpl; [constructor|].
  destruct (f x); [|done]. constructor; [done|].
  apply Forall_forall. intros y Hy. apply list_elem_of_In, filter_In in Hy.
  rewrite Forall_forall in Hx. apply Hx, list_elem_of_In, Hy.
Qed.

(** C4. On a tree whose ranges are nested as the parser produces them,
    and with line and column growing with the offset, the extractor's
    output is what it pushes at the nodes taken in depth-first pre-order;
    it is in position order; and a stable sort by position leaves it as
    it is, so events of one position keep their extraction order. *)
Theorem extract_in_source_order (t : node) :
  (forall p q, p <= q ->
     position_le (getLineAndCharacterOfPosition p)
                 (getLineAndCharacterOfPosition q)) ->
  ranges_nested t ->
  extract t = flat_map eventsAt (preorder None t) /\
  StronglySorted position_le (map position (extract t)) /\
  sort_by_position (extract t) = extract t.
Proof.
  intros Hmono Hnested.
  assert (Hsorted : StronglySorted position_le (map position (extract t))).
  { rewrite extract_preorder, events_of_sites.
    destruct (nested_starts_sorted t None Hnested) as [Hs _].
    assert (Hs' : StronglySorted le (map pos (map snd (preorder None t))))
      by (rewrite map_map; exact Hs).
    clear Hs. rename Hs' into Hs.
    apply (StronglySorted_fmap _ (fun n m => pos n <= pos m)).
    - intros n m Hnm. specialize (Hmono _ _ Hnm).
      unfold Extractor.positionAt, position_le in *.
      destruct (getLineAndCharacterOfPosition (pos n)),
               (getLineAndCharacterOfPosition (pos m)). simpl in *. lia.
    - apply StronglySorted_filter_bool.
      revert Hs. generalize (map snd (preorder None t)).
      induction l as [|x l IH]; simpl; intros H; [constructor|].
      apply StronglySorted_cons in H as [Hx Hl].
      constructor; [by apply IH|].
      apply Forall_forall. intros y Hy. rewrite Forall_forall in Hx.
      apply Hx, list_elem_of_fmap. by exists y. }
  split; [apply extract_preorder|]. split; [done|].
  by apply sort_by_position_sorted.
Qed.

(** Every event of the output was pushed at a node of the tree. *)
Lemma extract_site t e :
  e ∈ extract t ->
  exists parent n, (parent, n) ∈ preorder None t /\ e ∈ eventsAt (parent, n).
Proof.
  rewrite extract_preorder. intros H.
  apply list_elem_of_In, in_flat_map in H as ([parent n] & Hs & He).
  exists parent, n. split; by apply list_elem_of_In.
Qed.

(** C5. Every event was pushed at a node of the tree and has one of two
    shapes. A method-call event has the properties caller, method, args,
    lineno, col_offset and is_async, and is_async tells whether the parent
    of the call is an await expression. A construction event has the
    properties is_constructor (true), class, args, lineno and col_offset.
    No event has a property for try, loop or conditional nesting. *)
Theorem event_context_flags (t : node) (e : event) :
  e ∈ extract t ->
  exists parent n, (parent, n) ∈ preorder None t /\
    e ∈ eventsAt (parent, n) /\
    ((isMethodCall n = true /\
      map fst e = ["caller"; "method"; "args"; "lineno"; "col_offset";
                   "is_async"] /\
      get "is_async" e
      = Some (VBool (from_option isAwaitExpression false parent)))
     \/
     (isNewExpression n = true /\
      map fst e = ["is_constructor"; "class"; "args"; "lineno";
                   "col_offset"] /\
      get "is_constructor" e = Some (VBool true))).
Proof.
  intros He. destruct (extract_site t e He) as (parent & n & Hs & Hin).
  exists parent, n. split; [done|]. split; [done|].
  unfold Extractor.eventsAt, Extractor.methodCallEvents,
    Extractor.constructorEvents in Hin. simpl in Hin.
  destruct n as [p e' callee q tas args|p e' callee tas args|p e' x q name
                |p e' x|p e' x|p e' x|k p e' children]; simpl in Hin;
    try (by apply elem_of_nil in Hin).
  - destruct callee; simpl in Hin; try (by apply elem_of_nil in Hin).
    destruct (getLineAndCharacterOfPosition p) as [line character].
    rewrite app_nil_r in Hin. apply list_elem_of_singleton in Hin as ->.
    left. by destruct parent.
  - destruct (getLineAndCharacterOfPosition p) as [line character].
    apply list_elem_of_singleton in Hin as ->. by right.
Qed.

(** C6. The args of every event are, argument by argument, the text of
    the argument's full range with the white space at both ends taken
    off: the range text is a blank piece, the captured text, and another
    blank piece. *)
Theorem event_args_trimmed_ranges (t : node) (e : event) :
  e ∈ extract t ->
  exists parent n captured,
    (parent, n) ∈ preorder None t /\ e ∈ eventsAt (parent, n) /\
    reported n = true /\
    get "args" e = Some (VArray captured) /\
    Forall2 (fun arg text =>
               text = trim (substring sourceCode (pos arg) (end_ arg)) /\
               exists ws1 ws2,
                 substring sourceCode (pos arg) (end_ arg)
                 = ws1 ++ text ++ ws2 /\ blank ws1 /\ blank ws2)
            (arguments n) captured.
Proof.
  intros He. destruct (extract_site t e He) as (parent & n & Hs & Hin).
  exists parent, n,
    (map (fun arg => trim (substring sourceCode (pos arg) (end_ arg)))
         (arguments n)).
  split; [done|]. split; [done|].
  assert (Hall : forall args : list node,
    Forall2 (fun arg text =>
               text = trim (substring sourceCode (pos arg) (end_ arg)) /\
               exists ws1 ws2,
                 substring sourceCode (pos arg) (end_ arg)
                 = ws1 ++ text ++ ws2 /\ blank ws1 /\ blank ws2)
            args
            (map (fun arg => trim (substring sourceCode (pos arg) (end_ arg)))
                 args)).
  { intros args. induction args as [|arg args IH]; constructor; [|done].
    split; [done|].
    destruct (trim_spec (substring sourceCode (pos arg) (end_ arg)))
      as (ws1 & ws2 & H & H1 & H2 & _). eauto. }
  unfold Extractor.eventsAt, Extractor.methodCallEvents,
    Extractor.constructorEvents in Hin. simpl in Hin.
  destruct n as [p e' callee q tas args|p e' callee tas args|p e' x q name
                |p e' x|p e' x|p e' x|k p e' children]; simpl in Hin;
    try (by apply elem_of_nil in Hin).
  - destruct callee; simpl in Hin; try (by apply elem_of_nil in Hin).
    destruct (getLineAndCharacterOfPosition p) as [line character].
    rewrite app_nil_r in Hin. apply list_elem_of_singleton in Hin as ->.
    done.
  - destruct (getLineAndCharacterOfPosition p) as [line character].
    apply list_elem_of_singleton in Hin as ->.
    split; [done|]. split; [|done]. by destruct args.
Qed.

End Walk.

Import Samples.

Lemma oneLine_monotone p q :
  p <= q -> position_le (oneLine p) (oneLine q).
Proof. unfold position_le, oneLine. simpl. lia. Qed.

Lemma await_tree_nested : ranges_nested await_tree.
Proof.
  intros n Hn. vm_compute in Hn.
  repeat (apply elem_of_cons in Hn as [->|Hn]; [vm_compute; lia|]).
  by apply elem_of_nil in Hn.
Qed.

(** [await a.f().g(new B(1))]: nested ranges, and two calls of one
    position, reported in the order of the walk. *)
Lemma extract_in_source_order_witness :
  extractFrom await_src await_tree
  = flat_map (eventsAt await_src oneLine (skipBlanks await_src))
             (preorder None await_tree) /\
  StronglySorted position_le (map position (extractFrom await_src await_tree)) /\
  sort_by_position (extractFrom await_src await_tree) = extractFrom await_src await_tree.
Proof.
  exact (extract_in_source_order await_src oneLine (skipBlanks await_src)
           await_tree oneLine_monotone await_tree_nested).
Defined.

Example await_tree_positions :
  map position (extractFrom await_src await_tree) = [(1, 5); (1, 5); (1, 14)] /\
  map (get "method") (extractFrom await_src await_tree)
  = [Some (VString (lit "g")); Some (VString (lit "f")); None].
Proof. by vm_compute. Qed.

(** C5, as stated, fails on [try { a.f(); } catch (e) {}]: the one event
    of the unit has no property for the try block around the call, nor
    for loops or conditionals. *)
Lemma try_call_without_flags :
  exists e, extractFrom try_src try_tree = [e] /\
    get "in_try" e = None /\ get "in_loop" e = None /\
    get "in_conditional" e = None /\ ~ has_context_flags e.
Proof.
  eexists. split; [by vm_compute|]. repeat split; try done.
  intros (_ & [v Hv] & _). vm_compute in Hv. discriminate Hv.
Qed.

Lemma event_context_flags_witness :
  exists parent n, (parent, n) ∈ preorder None await_tree /\
    default [] (head (extractFrom await_src await_tree))
    ∈ eventsAt await_src oneLine (skipBlanks await_src) (parent, n) /\
    ((isMethodCall n = true /\
      map fst (default [] (head (extractFrom await_src await_tree)))
      = ["caller"; "method"; "args"; "lineno"; "col_offset"; "is_async"] /\
      get "is_async" (default [] (head (extractFrom await_src await_tree)))
      = Some (VBool (from_option isAwaitExpression false parent)))
     \/
     (isNewExpression n = true /\
      map fst (default [] (head (extractFrom await_src await_tree)))
      = ["is_constructor"; "class"; "args"; "lineno"; "col_offset"] /\
      get "is_constructor" (default [] (head (extractFrom await_src await_tree)))
      = Some (VBool true))).
Proof.
  apply (event_context_flags await_src oneLine (skipBlanks await_src)
           await_tree).
  vm_compute. left.
Defined.

(** C6, as stated, fails on [a.f(x, /*c*/ y)]: the text captured for the
    second argument is neither the text of its range, which starts with a
    space, nor the text of the expression [y]. *)
Lemma commented_argument_not_exact :
  exists e, extractFrom commented_src commented_tree = [e] /\
    get "args" e = Some (VArray [lit "x"; lit "/*c*/ y"]) /\
    map (fun arg => substring commented_src (pos arg) (end_ arg))
        (arguments commented_call)
    = [lit "x"; lit " /*c*/ y"] /\
    get "args" e
    <> Some (VArray (map (fun arg => substring commented_src (pos arg) (end_ arg))
                         (arguments commented_call))) /\
    get "args" e <> Some (VArray [lit "x"; lit "y"]).
Proof.
  eexists. split; [by vm_compute|]. repeat split; by vm_compute.
Qed.

Lemma event_args_trimmed_ranges_witness :
  exists parent n captured,
    (parent, n) ∈ preorder None commented_tree /\
    default [] (head (extractFrom commented_src commented_tree))
    ∈ eventsAt commented_src oneLine (skipBlanks commented_src) (parent, n) /\
    reported n = true /\
    get "args" (default [] (head (extractFrom commented_src commented_tree)))
    = Some (VArray captured) /\
    Forall2 (fun arg text =>
               text = trim (substring commented_src (pos arg) (end_ arg)) /\
               exists ws1 ws2,
                 substring commented_src (pos arg) (end_ arg)
                 = ws1 ++ text ++ ws2 /\ blank ws1 /\ blank ws2)
            (arguments n) captured.
Proof.
  apply (event_args_trimmed_ranges commented_src oneLine
           (skipBlanks commented_src) commented_tree).
  vm_compute. left.
Defined.

End ExtractorFacts.

(** ** The sequence-diagram components *)

Module RendererFacts.
Import JS Renderer.

Local Open Scope Z_scope.

#[local] Arguments renderTrackMessage : simpl never.
#[local] Arguments renderBlock : simpl never.

Section Messages.
Variable lifelines : gmap jsstring lifeline.

Lemma drawn_true message :
  drawn lifelines message = true <->
  exists f t,
    lifelineX lifelines (from message) = Some f /\
    lifelineX lifelines (to message) = Some t.
Proof.
  unfold drawn. rewrite andb_true_iff, !bool_decide_eq_true.
  unfold is_Some. split.
  - intros [[f Hf] [t Ht]]. eauto.
  - intros (f & t & Hf & Ht). eauto.
Qed.

Lemma drawn_false message :
  drawn lifelines message = false ->
  lifelineX lifelines (from message) = None \/
  lifelineX lifelines (to message) = None.
Proof.
  intros H. destruct (lifelineX lifelines (from message)) eqn:Ef; [|by left].
  destruct (lifelineX lifelines (to message)) eqn:Et; [|by right].
  assert (drawn lifelines message = true) by (apply drawn_true; eauto).
  congruence.
Qed.

(** A name of the object itself gives its entry, and a name that is
    ordinary gives nothing else. *)
Lemma lifelineX_own name entry :
  lifelines !! name = Some entry ->
  lifelineX lifelines name = Some (Some (x entry)).
Proof. intros H. unfold lifelineX, getProp. by rewrite H. Qed.


(** A name that is a built-in of [Object.prototype] and no property of
    the object gives a truthy value with no [x]. *)
Lemma lifelineX_builtin name :
  inObjectPrototype name = true -> lifelines !! name = None ->
  lifelineX lifelines name = Some None.
Proof.
  intros Hb Hn. unfold lifelineX, getProp. rewrite Hn, Hb.
  destruct (lifelines !! lit "__proto__"); [|done].
  rewrite bool_decide_eq_false_2; [done|].
  intros Hin. revert Hb. unfold inObjectPrototype, lifelineFields in *.
  set_unfold in Hin. destruct Hin as [->|[->|[]]]; by vm_compute.
Qed.

(** A message without a lifeline at one end leaves the state alone. *)
Lemma renderMessage_skip st message :
  drawn lifelines message = false -> renderMessage lifelines st message = st.
Proof.
  intros H. unfold renderMessage.
  destruct (drawn_false _ H) as [-> | ->]; [done|].
  by destruct (lifelineX lifelines (from message)).
Qed.

Lemma renderMessages_filter messages : forall st,
  foldl (renderMessage lifelines) st messages
  = foldl (renderMessage lifelines) st (List.filter (drawn lifelines) messages).
Proof.
  induction messages as [|m ms IH]; intros st; [done|]. simpl.
  destruct (drawn lifelines m) eqn:E; simpl; [apply IH|].
  rewrite renderMessage_skip by done. apply IH.
Qed.

(** Drawn messages: one link each at consecutive rows, and a position
    for each identifier. *)
Lemma renderMessages_drawn messages : forall st,
  Forall (fun m => drawn lifelines m = true) messages ->
  let st' := foldl (renderMessage lifelines) st messages in
  currentY st' = currentY st + messageHeight * Z.of_nat (length messages) /\
  (exists new, cells st' = cells st ++ new /\
     Forall (fun c => isMessageCell c = true) new /\
     length new = length messages /\
     linkRows new
     = map (fun i => currentY st + messageHeight * Z.of_nat i)
           (seq 0 (length messages))) /\
  (forall k, is_Some (messagePositions st' !! k) <->
             is_Some (messagePositions st !! k) \/ k ∈ map id messages).
Proof.
  induction messages as [|m ms IH]; intros st Hall; simpl.
  - split; [unfold messageHeight; lia|]. split.
    + exists []. by rewrite app_nil_r.
    + intros k. rewrite elem_of_nil. tauto.
  - apply Forall_cons in Hall as [Hm Hms].
    destruct (IH (renderMessage lifelines st m) Hms)
      as (Hy & (new & Hc & Hn & Hl & Hr) & Hp).
    apply drawn_true in Hm as (f & t & Hf & Ht).
    assert (Hst : renderMessage lifelines st m
      = mkConditionalState
          (cells st ++ [MessageCell f (currentY st) t (currentY st)
                          (linkText m)])
          (currentY st + messageHeight)
          (<[id m := mkPosition (currentY st) f t]> (messagePositions st))).
    { unfold renderMessage. by rewrite Hf, Ht. }
    rewrite Hst in Hy, Hc, Hr, Hp |- *. simpl in Hy, Hc, Hr, Hp.
    split; [unfold messageHeight in *; lia|]. split.
    + eexists (_ :: new). split; [by rewrite Hc, <- app_assoc|].
      split; [by constructor|]. split; [simpl; lia|].
      simpl. f_equal; [unfold messageHeight; lia|].
      rewrite Hr, <- seq_shift, map_map. apply map_ext. intros i.
      unfold messageHeight. lia.
    + intros k. rewrite Hp, elem_of_cons.
      destruct (decide (id m = k)) as [<-|Hne].
      * rewrite lookup_insert_eq. split; [intros _; right; by left|eauto].
      * rewrite lookup_insert_ne by done. split.
        -- intros [?|?]; [by left|right; by right].
        -- intros [?|[?|?]]; [by left|congruence|by right].
Qed.

Lemma renderPlainMessage_skip st message :
  drawn lifelines message = false ->
  renderPlainMessage lifelines st message = st.
Proof.
  intros H. unfold renderPlainMessage.
  destruct (drawn_false _ H) as [-> | ->]; [done|].
  by destruct (lifelineX lifelines (from message)).
Qed.

Lemma renderPlain_filter messages : forall st,
  foldl (renderPlainMessage lifelines) st messages
  = foldl (renderPlainMessage lifelines) st
      (List.filter (drawn lifelines) messages).
Proof.
  induction messages as [|m ms IH]; intros st; [done|]. simpl.
  destruct (drawn lifelines m) eqn:E; simpl; [apply IH|].
  rewrite renderPlainMessage_skip by done. apply IH.
Qed.

Lemma renderPlain_drawn messages : forall st,
  Forall (fun m => drawn lifelines m = true) messages ->
  exists new,
    (foldl (renderPlainMessage lifelines) st messages).1 = st.1 ++ new /\
    linkRows new
    = map (fun i => st.2 + messageHeight * Z.of_nat i)
          (seq 0 (length messages)).
Proof.
  induction messages as [|m ms IH]; intros st Hall; simpl.
  - exists []. by rewrite app_nil_r.
  - apply Forall_cons in Hall as [Hm Hms].
    apply drawn_true in Hm as (f & t & Hf & Ht).
    destruct (IH (renderPlainMessage lifelines st m) Hms) as (new & Hc & Hr).
    assert (Hst : renderPlainMessage lifelines st m
      = (st.1 ++ [MessageCell f st.2 t st.2 (conditionalText m)],
         st.2 + messageHeight)).
    { unfold renderPlainMessage. by rewrite Hf, Ht. }
    rewrite Hst in Hc, Hr |- *. simpl in Hc, Hr.
    eexists (_ :: new). split; [by rewrite Hc, <- app_assoc|].
    simpl. f_equal; [unfold messageHeight; lia|].
    rewrite Hr, <- seq_shift, map_map. apply map_ext. intros i.
    unfold messageHeight. lia.
Qed.

Lemma renderTrackMessage_skip st message :
  drawn lifelines message = false ->
  renderTrackMessage lifelines st (Some message) = Some st.
Proof.
  intros H. unfold renderTrackMessage.
  destruct (drawn_false _ H) as [-> | ->]; [done|].
  by destruct (lifelineX lifelines (from message)).
Qed.

Lemma forEachMessage_filter messages : forall st,
  forEachMessage lifelines st (map Some messages)
  = forEachMessage lifelines st
      (map Some (List.filter (drawn lifelines) messages)).
Proof.
  induction messages as [|m ms IH]; intros st; [done|]. simpl.
  destruct (drawn lifelines m) eqn:E; simpl.
  - destruct (renderTrackMessage lifelines st (Some m)); [apply IH|done].
  - rewrite renderTrackMessage_skip by done. apply IH.
Qed.

(** What the callback does with a message that is drawn. *)
Lemma renderTrackMessage_drawn st message :
  drawn lifelines message = true ->
  exists link,
    isMessageCell link = true /\ linkRows [link] = [trackY st] /\
    renderTrackMessage lifelines st (Some message)
    = Some
        (let creates := isSet (creates_track message) in
         let returns := isSet (returns_to_track message) in
         let start := if creates then trackY st else regionStartY st in
         let open :=
           if creates then default [] (creates_track message)
           else currentRegion st in
         let closes := returns && truthy open in
         mkTrackState (links st ++ [link]) (trackY st + messageHeight) start
           (if closes then [] else open)
           (if closes
            then regions st ++ [mkRegion start (trackY st + messageHeight) open]
            else regions st)).
Proof.
  intros H. apply drawn_true in H as (f & t & Hf & Ht).
  eexists (MessageCell _ _ _ _ _). split; [done|]. split; [done|].
  unfold renderTrackMessage. rewrite Hf, Ht.
  destruct (isSet (creates_track message)); simpl;
    destruct (isSet (returns_to_track message)); simpl; try done.
  - by destruct (truthy (default [] (creates_track message))).
  - by destruct (truthy (currentRegion st)).
Qed.

Lemma forEachMessage_drawn messages : forall st,
  Forall (fun m => drawn lifelines m = true) messages ->
  exists st' new,
    forEachMessage lifelines st (map Some messages) = Some st' /\
    links st' = links st ++ new /\
    Forall (fun c => isMessageCell c = true) new /\
    trackY st' = trackY st + messageHeight * Z.of_nat (length messages) /\
    linkRows new
    = map (fun i => trackY st + messageHeight * Z.of_nat i)
          (seq 0 (length messages)).
Proof.
  induction messages as [|m ms IH]; intros st Hall; simpl.
  - exists st, []. rewrite app_nil_r. repeat split; try done.
    unfold messageHeight. lia.
  - apply Forall_cons in Hall as [Hm Hms].
    destruct (renderTrackMessage_drawn st m Hm) as (link & Hl & Hrow & Hst).
    cbv zeta in Hst. rewrite Hst.
    match type of Hst with
    | _ = Some ?s => destruct (IH s Hms) as (st' & new & -> & Hc & Hn & Hy & Hr)
    end.
    exists st', (link :: new). split; [done|].
    simpl in Hc, Hy, Hr.
    split; [by rewrite Hc, <- app_assoc|]. split; [by constructor|].
    split; [unfold messageHeight in *; lia|].
    change (link :: new) with ([link] ++ new).
    unfold linkRows in *. rewrite omap_app, Hrow, Hr. simpl. f_equal.
    + unfold messageHeight. lia.
    + rewrite <- seq_shift, map_map. apply map_ext. intros i.
      unfold messageHeight. lia.
Qed.

(** A cell that is drawn stays, and a message that the guard lets
    through gets its link. *)
Lemma renderMessages_keep messages : forall st c,
  c ∈ cells st -> c ∈ cells (foldl (renderMessage lifelines) st messages).
Proof.
  induction messages as [|m ms IH]; intros st c Hc; [done|]. simpl.
  apply IH. unfold renderMessage.
  destruct (lifelineX lifelines (from m)); [|done].
  destruct (lifelineX lifelines (to m)); [|done].
  simpl. apply elem_of_app. by left.
Qed.

Lemma renderMessages_elem messages message f t :
  message ∈ messages ->
  lifelineX lifelines (from message) = Some f ->
  lifelineX lifelines (to message) = Some t ->
  forall st, exists y,
    MessageCell f y t y (linkText message)
    ∈ cells (foldl (renderMessage lifelines) st messages) /\
    is_Some (messagePositions (foldl (renderMessage lifelines) st messages)
             !! id message).
Proof.
  intros Hin Hf Ht. induction messages as [|m ms IH]; intros st;
    [by apply elem_of_nil in Hin|].
  simpl. apply elem_of_cons in Hin as [<-|Hin]; [|by apply IH].
  exists (currentY st).
  assert (Hst : renderMessage lifelines st message
    = mkConditionalState
        (cells st ++ [MessageCell f (currentY st) t (currentY st)
                        (linkText message)])
        (currentY st + messageHeight)
        (<[id message := mkPosition (currentY st) f t]>
           (messagePositions st))).
  { unfold renderMessage. by rewrite Hf, Ht. }
  rewrite Hst. split.
  - apply renderMessages_keep. simpl. apply elem_of_app. right.
    by apply list_elem_of_singleton.
  - clear IH Hst. 
    assert (Hkeep : forall ms' st', is_Some (messagePositions st' !! id message) ->
      is_Some (messagePositions (foldl (renderMessage lifelines) st' ms')
               !! id message)).
    { induction ms' as [|m' ms' IH']; intros st' Hs; [done|]. simpl.
      apply IH'. unfold renderMessage.
      destruct (lifelineX lifelines (from m')); [|done].
      destruct (lifelineX lifelines (to m')); [|done]. simpl.
      destruct (decide (id m' = id message)) as [->|Hne].
      - rewrite lookup_insert_eq. eauto.
      - by rewrite lookup_insert_ne. }
    apply Hkeep. simpl. rewrite lookup_insert_eq. eauto.
Qed.

Lemma forEachMessage_elem messages message f t :
  message ∈ messages ->
  lifelineX lifelines (from message) = Some f ->
  lifelineX lifelines (to message) = Some t ->
  forall st st',
    forEachMessage lifelines st (map Some messages) = Some st' ->
    exists y, MessageCell f y t y (conditionalText message) ∈ links st'.
Proof.
  intros Hin Hf Ht.
  assert (Hkeep : forall ms st st' c,
    forEachMessage lifelines st (map Some ms) = Some st' ->
    c ∈ links st -> c ∈ links st').
  { induction ms as [|m ms IH]; intros st st' c Hst Hc; simpl in Hst.
    - by injection Hst as <-.
    - destruct (renderTrackMessage lifelines st (Some m)) as [st1|] eqn:E;
        [|done].
      apply (IH st1 st' c Hst). unfold renderTrackMessage in E.
      destruct (lifelineX lifelines (from m)); [|by injection E as <-].
      destruct (lifelineX lifelines (to m)); [|by injection E as <-].
      destruct (isSet (creates_track m)), (isSet (returns_to_track m));
        simpl in E;
        repeat match type of E with
               | context [if ?b then _ else _] => destruct b
               end;
        injection E as <-; simpl; apply elem_of_app; by left. }
  induction messages as [|m ms IH]; intros st st' Hst;
    [by apply elem_of_nil in Hin|].
  simpl in Hst.
  destruct (renderTrackMessage lifelines st (Some m)) as [st1|] eqn:E; [|done].
  apply elem_of_cons in Hin as [->|Hin]; [|by apply (IH Hin st1)].
  exists (trackY st). apply (Hkeep ms st1 st' _ Hst).
  unfold renderTrackMessage in E. rewrite Hf, Ht in E.
  destruct (isSet (creates_track m)), (isSet (returns_to_track m));
    simpl in E;
    repeat match type of E with
           | context [if ?b then _ else _] => destruct b
           end;
    injection E as <-; simpl; apply elem_of_app; right;
    by apply list_elem_of_singleton.
Qed.

End Messages.

Lemma renderParticipantsFrom_actors participants : forall index acc,
  Forall isActorCell acc.1 ->
  Forall isActorCell (renderParticipantsFrom index participants acc).1.
Proof.
  induction participants as [|p ps IH]; intros index acc Hacc; [done|].
  simpl. apply IH. simpl. apply Forall_app. split; [done|].
  constructor; [|done]. unfold isActorCell. eauto.
Qed.

Lemma renderParticipants_actors participants :
  Forall isActorCell (renderParticipants participants).1.
Proof. by apply renderParticipantsFrom_actors. Qed.

Lemma actors_no_links actors :
  Forall isActorCell actors ->
  List.filter isMessageCell actors = [] /\
  List.filter isBlockCell actors = [] /\ linkRows actors = [].
Proof.
  induction 1 as [|c cs (text & px & py & ->) _ (H1 & H2 & H3)]; [done|].
  simpl. by rewrite H1, H2, H3.
Qed.

Lemma filter_all {A} (f : A -> bool) l :
  Forall (fun a => f a = true) l -> List.filter f l = l.
Proof. induction 1 as [|a l Ha _ IH]; simpl; [done|]. by rewrite Ha, IH. Qed.


Lemma filter_true_Forall {A} (f : A -> bool) l :
  Forall (fun a => f a = true) (List.filter f l).
Proof.
  induction l as [|a l IH]; simpl; [done|].
  destruct (f a) eqn:E; [by constructor|done].
Qed.

Lemma filter_idemp {A} (f : A -> bool) l :
  List.filter f (List.filter f l) = List.filter f l.
Proof. apply filter_all, filter_true_Forall. Qed.

Lemma linkRows_app l1 l2 : linkRows (l1 ++ l2) = linkRows l1 ++ linkRows l2.
Proof. apply omap_app. Qed.

Lemma blocks_no_links new :
  Forall (fun c => isBlockCell c = true) new ->
  linkRows new = [] /\ List.filter isMessageCell new = [] /\
  List.filter isBlockCell new = new.
Proof.
  induction 1 as [|c cs Hc _ (H1 & H2 & H3)]; [done|].
  destruct c; try discriminate Hc. simpl. by rewrite H1, H2, H3.
Qed.

Lemma links_no_blocks new :
  Forall (fun c => isMessageCell c = true) new ->
  List.filter isBlockCell new = [] /\ List.filter isMessageCell new = new.
Proof.
  induction 1 as [|c cs Hc _ (H1 & H2)]; [done|].
  destruct c; try discriminate Hc. simpl. by rewrite H1, H2.
Qed.

Section Positions.
Variable positions : gmap jsstring position.

Lemma positionY_own key pos :
  positions !! key = Some pos ->
  positionY positions key = Some (Some (my pos)).
Proof. intros H. unfold positionY, getProp. by rewrite H. Qed.


Lemma positionY_builtin key :
  inObjectPrototype key = true -> positions !! key = None ->
  positionY positions key = Some None.
Proof.
  intros Hb Hn. unfold positionY, getProp. rewrite Hn, Hb.
  destruct (positions !! lit "__proto__"); [|done].
  rewrite bool_decide_eq_false_2; [done|].
  intros Hin. revert Hb. unfold inObjectPrototype, positionFields in *.
  set_unfold in Hin. destruct Hin as [->|[->|[->|[->|[]]]]]; by vm_compute.
Qed.

Lemma blockDrawn_true block :
  blockDrawn positions block = true <->
  exists s e,
    positionY positions (start_message_id block) = Some s /\
    positionY positions (end_message_id block) = Some e.
Proof.
  unfold blockDrawn. rewrite andb_true_iff, !bool_decide_eq_true.
  unfold is_Some. split.
  - intros [[s Hs] [e He]]. eauto.
  - intros (s & e & Hs & He). eauto.
Qed.

Lemma renderBlock_skip participants cells0 block :
  blockDrawn positions block = false ->
  renderBlock participants positions cells0 block = cells0.
Proof.
  intros H. unfold renderBlock.
  destruct (positionY positions (start_message_id block)) eqn:Es; [|done].
  destruct (positionY positions (end_message_id block)) eqn:Ee; [|done].
  assert (blockDrawn positions block = true)
    by (apply blockDrawn_true; eauto).
  congruence.
Qed.

Lemma blockCell_isBlockCell participants s e block :
  isBlockCell (blockCell participants s e block) = true.
Proof.
  unfold blockCell. destruct (is_loop block); [done|]. by repeat case_decide.
Qed.

(** The loop over the blocks draws the blocks for which the guard finds
    both ends, one cell each, and passes over the others. *)
Lemma renderBlocks_drawn participants blocks :
  forall cells0, exists new,
    foldl (renderBlock participants positions) cells0 blocks = cells0 ++ new /\
    foldl (renderBlock participants positions) cells0
      (List.filter (blockDrawn positions) blocks) = cells0 ++ new /\
    Forall (fun c => isBlockCell c = true) new /\
    length new = length (List.filter (blockDrawn positions) blocks).
Proof.
  induction blocks as [|b bs IH]; intros cells0; simpl.
  - exists []. by rewrite app_nil_r.
  - destruct (blockDrawn positions b) eqn:Hb.
    + apply blockDrawn_true in Hb as (s & e & Hs & He).
      assert (Hr : renderBlock participants positions cells0 b
                   = cells0 ++ [blockCell participants s e b]).
      { unfold renderBlock. by rewrite Hs, He. }
      simpl. rewrite Hr.
      destruct (IH (cells0 ++ [blockCell participants s e b]))
        as (new & H1 & H2 & H3 & H4).
      exists (blockCell participants s e b :: new).
      rewrite H1, H2, <- !app_assoc. repeat split; try done.
      * constructor; [apply blockCell_isBlockCell|done].
      * simpl. by rewrite H4.
    + rewrite renderBlock_skip by done. apply IH.
Qed.

Lemma renderBlocks_keep participants blocks : forall cells0 c,
  c ∈ cells0 -> c ∈ foldl (renderBlock participants positions) cells0 blocks.
Proof.
  induction blocks as [|b bs IH]; intros cells0 c Hc; [done|]. simpl.
  apply IH. unfold renderBlock.
  destruct (positionY positions (start_message_id b)); [|done].
  destruct (positionY positions (end_message_id b)); [|done].
  apply elem_of_app. by left.
Qed.

Lemma renderBlocks_elem participants block s e blocks :
  block ∈ blocks ->
  positionY positions (start_message_id block) = Some s ->
  positionY positions (end_message_id block) = Some e ->
  forall cells0,
    blockCell participants s e block
    ∈ foldl (renderBlock participants positions) cells0 blocks.
Proof.
  intros Hin Hs He. induction blocks as [|b bs IH]; intros cells0;
    [by apply elem_of_nil in Hin|].
  simpl. apply elem_of_cons in Hin as [<-|Hin]; [|by apply IH].
  apply renderBlocks_keep. unfold renderBlock. rewrite Hs, He.
  apply elem_of_app. right. by apply list_elem_of_singleton.
Qed.


End Positions.

Lemma trackMessages_in_range (messages : list Message) (indices : list nat) :
  Forall (fun i => (i < length messages)%nat) indices ->
  trackMessages messages indices
  = map Some (omap (fun i => messages !! i) indices).
Proof.
  induction 1 as [|i idxs Hi _ IH]; [done|]. simpl.
  apply lookup_lt_is_Some_2 in Hi as [m Hm]. by rewrite Hm, IH.
Qed.

(** The lifelines have a property for each participant, and no other. *)
Lemma renderParticipantsFrom_lookup participants : forall index acc key,
  is_Some ((renderParticipantsFrom index participants acc).2 !! key) <->
  key ∈ participants \/ is_Some (acc.2 !! key).
Proof.
  induction participants as [|p ps IH]; intros index acc key; simpl.
  - rewrite elem_of_nil. tauto.
  - rewrite IH, elem_of_cons. simpl.
    destruct (decide (p = key)) as [->|Hne].
    + rewrite lookup_insert_eq. split; [intros _; left; by left|eauto].
    + rewrite lookup_insert_ne by done. split.
      * intros [?|?]; [left; by right|by right].
      * intros [[?|?]|?]; [congruence|by left|by right].
Qed.

Lemma renderParticipants_lookup participants key :
  is_Some ((renderParticipants participants).2 !! key) <-> key ∈ participants.
Proof.
  unfold renderParticipants. rewrite renderParticipantsFrom_lookup. simpl.
  rewrite lookup_empty. split; [intros [?|[? ?]]; done|by left].
Qed.



Section Skip.
Variable toUpperCase : jsstring -> jsstring.

(** A message for which the guard finds no truthy value at one of its
    names, and a block for which it finds none at one of its
    identifiers, are passed over: each component draws what it would
    draw if they were not in the data, puts the remaining messages on
    consecutive rows and draws every remaining block. On a track whose
    indices all refer to messages, the loop over the track ends without
    an exception. *)
Lemma renderers_skip_undrawn (participants : list jsstring)
    (messages : list Message) (blocks : list ConditionalBlock)
    (indices : list nat) (y : Z) :
  Forall (fun i => (i < length messages)%nat) indices ->
  let lifelines := (renderParticipants participants).2 in
  let kept := List.filter (drawn lifelines) messages in
  let keptBlocks :=
    List.filter (blockDrawn (positionsOf participants messages)) blocks in
  let onTrack := omap (fun i => messages !! i) indices in
  let keptOnTrack := List.filter (drawn lifelines) onTrack in
  let conditional :=
    renderConditional (mkConditionalData participants messages blocks) in
  (conditional
   = renderConditional (mkConditionalData participants kept keptBlocks) /\
   linkRows conditional = rowsFrom (actorY + 50) (length kept) /\
   length (List.filter isBlockCell conditional) = length keptBlocks /\
   forall k, is_Some (positionsOf participants messages !! k)
             <-> k ∈ map id kept) /\
  (renderPlain participants messages = renderPlain participants kept /\
   linkRows (renderPlain participants messages)
   = rowsFrom (actorY + 50) (length kept)) /\
  (exists cells regions,
     renderTrack toUpperCase participants lifelines y
       (trackMessages messages indices) = Some (cells, regions) /\
     renderTrack toUpperCase participants lifelines y (map Some keptOnTrack)
     = Some (cells, regions) /\
     linkRows cells = rowsFrom y (length keptOnTrack)).
Proof.
  intros Hidx lifelines kept keptBlocks onTrack keptOnTrack conditional.
  pose proof (renderParticipants_actors participants) as Hactors.
  subst conditional keptBlocks. unfold renderConditional, renderPlain, positionsOf.
  simpl.
  subst lifelines kept keptOnTrack.
  destruct (renderParticipants participants) as [actors lifelines].
  simpl in *.
  destruct (actors_no_links _ Hactors) as (Ham & Hab & Har).
  set (kept := List.filter (drawn lifelines) messages).
  assert (Hkept : Forall (fun m => drawn lifelines m = true) kept)
    by apply filter_true_Forall.
  split; [|split].
  - rewrite renderMessages_filter. fold kept.
    set (st0 := mkConditionalState actors (actorY + 50) ∅).
    destruct (renderMessages_drawn lifelines kept st0 Hkept)
      as (_ & (new & Hc & Hn & _ & Hr) & Hp).
    set (st := foldl (renderMessage lifelines) st0 kept) in *.
    destruct (renderBlocks_drawn (messagePositions st) participants blocks
                (cells st)) as (newb & H1 & H2 & H3 & H4).
    rewrite H1, H2. split; [done|].
    destruct (blocks_no_links _ H3) as (Hbr & _ & Hbb).
    destruct (links_no_blocks _ Hn) as (Hnb & _).
    rewrite Hc. simpl. split; [|split].
    + by rewrite !linkRows_app, Har, Hbr, app_nil_r.
    + by rewrite !List.filter_app, Hab, Hnb, Hbb.
    + intros k. rewrite Hp. simpl. rewrite lookup_empty.
      split; [intros [[? ?]|?]; done|by right].
  - rewrite renderPlain_filter. fold kept. split; [done|].
    destruct (renderPlain_drawn lifelines kept (actors, actorY + 50) Hkept)
      as (new & Hc & Hr).
    rewrite Hc. simpl. by rewrite linkRows_app, Har.
  - unfold renderTrack. rewrite trackMessages_in_range by done.
    rewrite (forEachMessage_filter lifelines onTrack).
    set (keptOnTrack := List.filter (drawn lifelines) onTrack).
    destruct (forEachMessage_drawn lifelines keptOnTrack
                (mkTrackState [] y 0 [] []))
      as (st' & new & -> & Hc & Hn & _ & Hr).
    { apply filter_true_Forall. }
    simpl. eexists _, _. split; [done|]. split; [done|].
    simpl in Hc. rewrite Hc, linkRows_app, Hr.
    assert (Hreg : forall rs,
      linkRows (map (regionCell toUpperCase participants) rs) = []).
    { induction rs; [done|]. simpl. done. }
    by rewrite Hreg, app_nil_r.
Qed.


(** C8. A name that is a property name of [Object.prototype] reaches a
    built-in where the guards look for a lifeline or a position, and the
    built-in is truthy. So a message from such a name that is no
    participant is not passed over: the conditional component and the
    loop over a track draw its link, from an x that is [undefined]; and
    a block that starts at such a name, the identifier of no message, is
    not passed over either: it is drawn with a place and a height that
    are [NaN]. *)
Theorem inherited_names_not_skipped (participants : list jsstring)
    (messages : list Message) (blocks : list ConditionalBlock)
    (message : Message) (block : ConditionalBlock) (y0 : Z) :
  message ∈ messages ->
  inObjectPrototype (from message) = true ->
  from message ∉ participants ->
  to message ∈ participants ->
  block ∈ blocks ->
  inObjectPrototype (start_message_id block) = true ->
  start_message_id block ∉ map id messages ->
  end_message_id block = id message ->
  let data := mkConditionalData participants messages blocks in
  let lifelines := (renderParticipants participants).2 in
  (exists y tx,
     MessageCell None y (Some tx) y (linkText message)
     ∈ renderConditional data) /\
  (exists shape width text,
     BlockCell shape 50 None width None text
       (start_message_id block ++ lit "_to_" ++ end_message_id block)
     ∈ renderConditional data) /\
  (exists cells regions y tx,
     renderTrack toUpperCase participants lifelines y0 (map Some messages)
     = Some (cells, regions) /\
     MessageCell None y (Some tx) y (conditionalText message) ∈ cells).
Proof.
  intros Hin Hproto Hnot Hto Hblock Hstart Hfresh Hend data lifelines.
  assert (Hf : lifelineX lifelines (from message) = Some None).
  { apply lifelineX_builtin; [done|]. apply eq_None_not_Some.
    subst lifelines. by rewrite renderParticipants_lookup. }
  assert (Ht : exists tx, lifelineX lifelines (to message) = Some (Some tx)).
  { apply renderParticipants_lookup in Hto as [entry He].
    exists (x entry). by apply lifelineX_own. }
  destruct Ht as [tx Ht].
  pose proof (renderers_skip_undrawn participants messages blocks [] y0
                ltac:(constructor)) as Hskip.
  cbv zeta in Hskip. destruct Hskip as ((_ & _ & _ & Hpos) & _ & _).
  subst data lifelines.
  unfold renderConditional, positionsOf in *. simpl in *.
  destruct (renderParticipants participants) as [actors lifelines].
  simpl in *.
  set (st0 := mkConditionalState actors (actorY + 50) ∅) in *.
  destruct (renderMessages_elem lifelines messages message None (Some tx)
              Hin Hf Ht st0) as (y & Hcell & [pos Hown]).
  split; [|split].
  - exists y, tx. by apply renderBlocks_keep.
  - set (positions := messagePositions
                        (foldl (renderMessage lifelines) st0 messages)) in *.
    assert (Hs : positionY positions (start_message_id block) = Some None).
    { apply positionY_builtin; [done|]. apply eq_None_not_Some.
      rewrite Hpos. intros Hk. apply Hfresh.
      apply list_elem_of_fmap in Hk as (m & -> & Hm).
      apply list_elem_of_fmap. exists m. split; [done|].
      apply list_elem_of_In, filter_In in Hm as [Hm _].
      by apply list_elem_of_In. }
    assert (He : positionY positions (end_message_id block)
                 = Some (Some (my pos))).
    { rewrite Hend. by apply positionY_own. }
    pose proof (renderBlocks_elem positions participants block None
                  (Some (my pos)) blocks Hblock Hs He
                  (cells (foldl (renderMessage lifelines) st0 messages)))
      as Hdrawn.
    unfold blockCell in Hdrawn. simpl in Hdrawn.
    destruct (is_loop block); [by eexists _, _, _|].
    repeat case_decide; by eexists _, _, _.
  - unfold renderTrack.
    destruct (forEachMessage_drawn lifelines
                (List.filter (drawn lifelines) messages)
                (mkTrackState [] y0 0 [] []))
      as (st' & new & Hst & _).
    { apply filter_true_Forall. }
    rewrite <- forEachMessage_filter in Hst.
    destruct (forEachMessage_elem lifelines messages message None (Some tx)
                Hin Hf Ht _ _ Hst) as (y' & Hlink).
    rewrite Hst. eexists _, _, y', tx. split; [done|].
    apply elem_of_app. by left.
Qed.


Lemma isSet_truthy (o : option jsstring) :
  isSet o = true -> truthy (default [] o) = true.
Proof. by destruct o. Qed.



End Skip.

Import DiagramSamples.


Example spawnJoin_regions :
  (snd <$> renderTrack asciiUpper twoActors sampleLifelines 100
             (map Some spawnJoin))
  = Some [mkRegion 100 250 (lit "task_1")].
Proof. by vm_compute. Qed.


Lemma inherited_names_not_skipped_witness :
  (exists y tx,
     MessageCell None y (Some tx) y (lit "poke")
     ∈ renderConditional inheritedNames) /\
  (exists shape width text,
     BlockCell shape 50 None width None text (lit "toString_to_m1")
     ∈ renderConditional inheritedNames) /\
  (exists cells regions y tx,
     renderTrack asciiUpper twoActors (renderParticipants twoActors).2 100
       (map Some (messages inheritedNames)) = Some (cells, regions) /\
     MessageCell None y (Some tx) y (lit "poke") ∈ cells).
Proof.
  apply (inherited_names_not_skipped asciiUpper twoActors
           (messages inheritedNames) (conditional_blocks inheritedNames)
           (msg "constructor" "worker" "poke" "m1" None None)
           (mkBlock (lit "toString") (lit "m1") (lit "x") (lit "if") false 0
                    false) 100).
  - right. left.
  - reflexivity.
  - intros H. apply list_elem_of_In in H. vm_compute in H.
    intuition discriminate.
  - right. left.
  - left.
  - reflexivity.
  - intros H. apply list_elem_of_In in H. vm_compute in H.
    intuition discriminate.
  - reflexivity.
Defined.

(** What the components draw of [inheritedNames]: the link of the
    message from [constructor], the frame of the block from [toString],
    and on a track the link again. *)
Example inheritedNames_rendering :
  renderConditional inheritedNames
  = [ ActorCell (lit "main") 50 50; ActorCell (lit "worker") 200 50;
      MessageCell (Some 100) 100 (Some 250) 100 (lit "start");
      MessageCell None 150 (Some 250) 150 (lit "poke");
      BlockCell "ConditionalBlock" 50 None 300 None (lit "if x")
        (lit "toString_to_m1") ] /\
  renderPlain twoActors (messages inheritedNames)
  = [ ActorCell (lit "main") 50 50; ActorCell (lit "worker") 200 50;
      MessageCell (Some 100) 100 (Some 250) 100 (lit "start");
      MessageCell None 150 (Some 250) 150 (lit "poke") ] /\
  renderTrack asciiUpper twoActors (renderParticipants twoActors).2 100
    (map Some (messages inheritedNames))
  = Some ([ MessageCell (Some 100) 100 (Some 250) 100 (lit "start");
            MessageCell None 150 (Some 250) 150 (lit "poke") ], []).
Proof. by vm_compute. Qed.

(** A participant [__proto__] becomes the prototype of [lifelines]: it
    has its lifeline, and the names [actor] and [x] of its entry reach
    the entry's fields, which the guard takes for lifelines. *)
Example proto_participant :
  let lifelines := (renderParticipants [lit "main"; lit "__proto__"]).2 in
  lifelineX lifelines (lit "main") = Some (Some 100) /\
  lifelineX lifelines (lit "__proto__") = Some (Some 250) /\
  lifelineX lifelines (lit "actor") = Some None /\
  lifelineX lifelines (lit "x") = Some None /\
  lifelineX lifelines (lit "valueOf") = Some None /\
  lifelineX lifelines (lit "worker") = None /\
  lifelineX (renderParticipants [lit "main"]).2 (lit "x") = None.
Proof. by vm_compute. Qed.

Example stray_rendering :
  map id (List.filter (drawn sampleLifelines) strayMessages)
  = [lit "0"; lit "2"] /\
  linkRows (renderConditional
              (mkConditionalData twoActors strayMessages strayBlocks))
  = [100; 150] /\
  List.filter isBlockCell
    (renderConditional (mkConditionalData twoActors strayMessages strayBlocks))
  = [BlockCell "ConditionalBlock" 50 (Some 85) 300 (Some 80) (lit "if y")
       (lit "0_to_2")].
Proof. by vm_compute. Qed.

(** An index with no message makes the loop over the track throw. *)
Example track_index_out_of_range :
  renderTrack asciiUpper twoActors sampleLifelines 100
    (trackMessages strayMessages [0; 5]%nat) = None.
Proof. by vm_compute. Qed.


End RendererFacts.

(** ** The Interaction Model Assembler *)

Module AssemblerFacts.
Import JS Assembler.

Lemma calls_app p q : calls (p ++ q) = calls p + calls q.
Proof.
  induction p as [|[e|ty c l h|] p IH]; simpl; lia.
Qed.

Lemma depth_app p q open :
  depth open (p ++ q) = depth open p ≫= fun open' => depth open' q.
Proof.
  revert open. induction p as [|[e|ty c l h|] p IH]; intros open; simpl; auto.
  destruct open; [done|]. apply IH.
Qed.

(** A piece that can be read with fewer regions open can be read with
    more, and leaves as many more open. *)
Lemma depth_raise p : forall open d extra,
  depth open p = Some d -> depth (open + extra) p = Some (d + extra).
Proof.
  induction p as [|[e|ty c l h|] p IH]; intros open d extra H; simpl in *.
  - by injection H as ->.
  - by apply IH.
  - by apply (IH (S open)).
  - destruct open as [|open]; [done|]. by apply IH.
Qed.

Lemma balanced_depth p open : balanced p -> depth open p = Some open.
Proof. intros H. apply (depth_raise p 0 0 open H). Qed.

Lemma balanced_app p q : balanced p -> balanced q -> balanced (p ++ q).
Proof.
  unfold balanced. intros Hp Hq. by rewrite depth_app, Hp.
Qed.

Lemma balanced_call e : balanced [Call e].
Proof. done. Qed.

Lemma balanced_region ty c l h inside :
  balanced inside -> balanced (EnterRegion ty c l h :: inside ++ [LeaveRegion]).
Proof.
  intros H. unfold balanced. simpl.
  by rewrite depth_app, (balanced_depth inside 1 H).
Qed.

Lemma stack_of_depth stream stack :
  stack_of stream stack -> depth 0 stream = Some (length stack).
Proof.
  induction 1 as [stream H|before inside ty c l h stack _ IH Hin]; [done|].
  rewrite depth_app, IH. simpl. apply (balanced_depth inside _ Hin).
Qed.

Lemma stack_of_extend stream stack piece :
  stack_of stream stack -> balanced piece -> stack_of (stream ++ piece) stack.
Proof.
  intros Hs Hp. destruct Hs as [stream H|before inside ty c l h stack Hs Hin].
  - constructor. by apply balanced_app.
  - rewrite <- app_assoc. simpl. constructor; [done|]. by apply balanced_app.
Qed.

Lemma block_of_region_extend stream rest b :
  block_of_region stream b -> block_of_region (stream ++ rest) b.
Proof.
  intros (before & inside & after & -> & H). exists before, inside, (after ++ rest).
  split; [|done]. rewrite <- !app_assoc. simpl. by rewrite <- app_assoc.
Qed.

Lemma assembled_initial : assembled [] initial.
Proof. repeat split; try done. by constructor. Qed.

(** One item of the stream keeps the state in step with the stream. *)
Lemma step_assembled stream st i st' :
  assembled stream st -> step st i = Some st' -> assembled (stream ++ [i]) st'.
Proof.
  intros (Hid & Hms & Hst & Hbs) Hstep.
  assert (Hext : Forall (block_of_region (stream ++ [i])) (blocks st)).
  { eapply Forall_impl; [exact Hbs|]. intros b. apply block_of_region_extend. }
  destruct i as [e|ty c l h|]; simpl in Hstep.
  - injection Hstep as <-. unfold assembled, emit. simpl.
    rewrite calls_app, map_app, Hms, Hid. simpl.
    rewrite Nat.add_1_r, seq_S. repeat split; try done.
    apply stack_of_extend; [done|apply balanced_call].
  - injection Hstep as <-. unfold assembled, enter. simpl.
    rewrite calls_app, Hms, Hid. simpl. rewrite Nat.add_0_r.
    repeat split; try done.
    by apply (stack_of_entered stream []).
  - unfold leave in Hstep.
    destruct (block_stack st) as [|entry stack] eqn:Estack; [done|].
    injection Hstep as <-. unfold assembled. simpl.
    rewrite calls_app, Hms, Hid. simpl. rewrite Nat.add_0_r.
    inversion Hst as [|before inside ty c l h stack' Hbefore Hinside Hs He];
      subst.
    split; [done|]. split; [done|]. split.
    + rewrite <- app_assoc. simpl.
      apply stack_of_extend; [done|]. by apply balanced_region.
    + simpl. rewrite calls_app. simpl.
      case_bool_decide as Hlt; [|done].
      apply Forall_app. split; [done|]. constructor; [|done].
      exists before, inside, []. simpl.
      split; [by rewrite <- app_assoc|]. split; [done|].
      split; [by apply stack_of_depth|].
      split; [lia|]. split; [done|]. lia.
Qed.

(** A pass from a state in step with a piece ends in step with a longer
    piece of the whole stream. *)
Lemma run_assembled stream : forall done_ st,
  assembled done_ st ->
  exists used rest,
    done_ ++ stream = used ++ rest /\ assembled used (run st stream).1.
Proof.
  induction stream as [|i stream IH]; intros done_ st Hst; simpl.
  - exists done_, []. done.
  - destruct (step st i) as [st'|] eqn:Hstep.
    + destruct (IH (done_ ++ [i]) st') as (used & rest & Heq & Hused).
      { by eapply step_assembled. }
      exists used, rest. split; [|done]. by rewrite <- Heq, <- app_assoc.
    + exists done_, (i :: stream). done.
Qed.

(** C2. Every block that a pass emits is the block of a region of the
    stream: of a marker that enters the region, a balanced piece with at
    least one call event, and the marker that leaves it. Its nesting
    level is the number of regions open before the entering marker; its
    first and last message are the first and the last message emitted
    inside the region, so the first is not after the last; and both are
    messages of the pass, found at these places of the message list. *)
Theorem blocks_bracket_messages (stream : list item) (b : ConditionalBlock) :
  b ∈ blocks (assemble stream) ->
  block_of_region stream b /\
  start_message_id b <= end_message_id b /\
  exists first last,
    messages (assemble stream) !! start_message_id b = Some first /\
    id first = start_message_id b /\
    messages (assemble stream) !! end_message_id b = Some last /\
    id last = end_message_id b.
Proof.
  intros Hb. unfold assemble in *.
  destruct (run_assembled stream [] initial assembled_initial)
    as (used & rest & Heq & (Hid & Hms & _ & Hbs)).
  simpl in Heq. subst stream.
  rewrite Forall_forall in Hbs. specialize (Hbs b Hb).
  split; [by apply block_of_region_extend|].
  destruct Hbs as (before & inside & after & Hused & _ & _ & Hone & Hs & He).
  split; [lia|].
  assert (Hlen : calls used = calls before + calls inside + calls after).
  { rewrite Hused, calls_app. simpl. rewrite calls_app. simpl. lia. }
  assert (Hat : forall k, k < calls used ->
    exists m, messages (run initial (used ++ rest)).1 !! k = Some m /\ id m = k).
  { intros k Hk.
    assert (Hk' : map id (messages (run initial (used ++ rest)).1) !! k = Some k).
    { rewrite Hms. by apply lookup_seq_lt. }
    rewrite list_lookup_fmap in Hk'.
    destruct (messages (run initial (used ++ rest)).1 !! k) as [m|]; [|done].
    exists m. split; [done|]. by injection Hk'. }
  destruct (Hat (start_message_id b)) as (first & Hf1 & Hf2); [lia|].
  destruct (Hat (end_message_id b)) as (last & Hl1 & Hl2); [lia|].
  eauto 10.
Qed.

End AssemblerFacts.

(** ** From a unit to its interaction model *)

Module PipelineFacts.
Import JS Assembler AssemblerFacts Pipeline.

(** A stream of call events only: one message per event, the identifiers
    counting from zero, and no block. *)
Lemma run_calls_only (events : list ResolvedEvent) : forall st,
  block_stack st = [] ->
  let st' := (run st (map Call events)).1 in
  map id (messages st')
  = map id (messages st) ++ seq (next_id st) (length events) /\
  blocks st' = blocks st.
Proof.
  induction events as [|e events IH]; intros st Hstack; simpl.
  - by rewrite app_nil_r.
  - destruct (IH (emit e st)) as [Hm Hb]; [done|].
    split; [|done]. rewrite Hm. simpl. by rewrite map_app, <- app_assoc.
Qed.

(** C1. The extractor reports one event for every method call (a call
    whose callee is a property access) and every construction of the
    unit, and for none of its other nodes. From this event stream, which
    has no region markers, the assembler makes one message per event,
    with the identifiers counting from zero, and no block. *)
Theorem one_message_per_reported_site (sourceCode : jsstring)
    (getLineAndCharacterOfPosition : nat -> nat * nat)
    (skipTrivia : nat -> nat)
    (resolve : Extractor.event -> ResolvedEvent)
    (sourceFile : Extractor.node) :
  let events :=
    Extractor.extract sourceCode getLineAndCharacterOfPosition skipTrivia
      sourceFile in
  let model :=
    interactionModel sourceCode getLineAndCharacterOfPosition skipTrivia
      resolve sourceFile in
  let N := length (Extractor.reportedSites sourceFile) in
  length events = N /\
  length (messages model) = N /\
  map id (messages model) = seq 0 N /\
  blocks model = [].
Proof.
  intros events model N.
  assert (HN : length events = N) by apply ExtractorFacts.extract_length.
  subst model. unfold interactionModel, assemble. fold events.
  rewrite <- (map_map resolve Call).
  destruct (run_calls_only (map resolve events) initial eq_refl) as [Hm Hb].
  simpl in Hm, Hb. rewrite length_map, HN in Hm.
  split; [done|]. split; [|done].
  by rewrite <- (length_map id), Hm, length_seq.
Qed.

Import Samples.

(** C1, as stated, fails on [foo(1)]: the unit has one call site and no
    region, and its message list is empty. *)
Lemma plain_call_no_message :
  length (Extractor.callSites plain_tree) = 1 /\
  extractFrom plain_src plain_tree = [] /\
  messages (interactionModel plain_src oneLine (skipBlanks plain_src)
              (literalResolver (lit "unit")) plain_tree) = [].
Proof. by vm_compute. Qed.

Example await_tree_model :
  let model :=
    interactionModel await_src oneLine (skipBlanks await_src)
      (literalResolver (lit "unit")) await_tree in
  map (fun m => (id m, to m, method m)) (messages model)
  = [(0, lit "a.f()", lit "g"); (1, lit "a", lit "f"); (2, lit "B", lit "new")]
  /\ participants model = [lit "unit"; lit "a.f()"; lit "a"; lit "B"].
Proof. by vm_compute. Qed.

(** The scenario of the specification: one block of type if, of nesting
    level zero, around the last two messages. *)
Example authenticate_user_blocks :
  blocks (assemble authenticate_user)
  = [mkBlock 3 4 (lit "user and password check passes") (lit "if") 0
       false false]
  /\ participants (assemble authenticate_user)
     = [lit "authenticate_user"; lit "UserService"; lit "User";
        lit "TokenService"].
Proof. by vm_compute. Qed.

(** The empty conditional leaves no block; the loop is bracketed by the
    one message of the conditional inside it; the exit marker with no
    region open ends the pass before the last call. *)
Example nested_regions_blocks :
  blocks (assemble nested_regions)
  = [mkBlock 1 1 (lit "q") (lit "if") 1 true false;
     mkBlock 1 1 (lit "for x in xs") (lit "loop") 0 false true]
  /\ (run initial nested_regions).2 = true
  /\ length (messages (assemble nested_regions)) = 2.
Proof. by vm_compute. Qed.

Lemma blocks_bracket_messages_witness :
  let b := mkBlock 3 4 (lit "user and password check passes") (lit "if") 0
             false false in
  block_of_region authenticate_user b /\
  start_message_id b <= end_message_id b /\
  exists first last,
    messages (assemble authenticate_user) !! start_message_id b = Some first /\
    id first = start_message_id b /\
    messages (assemble authenticate_user) !! end_message_id b = Some last /\
    id last = end_message_id b.
Proof.
  apply (blocks_bracket_messages authenticate_user).
  vm_compute. left.
Defined.

End PipelineFacts.

(** ** Dependency cycles *)

Module CyclesFacts.
Import JS Cycles.

Section Graph.
Variable graph : list DependencyEdge.

Lemma elem_of_successors v w :
  w ∈ successors graph v <-> edge graph v w.
Proof.
  unfold successors, edge. rewrite list_elem_of_fmap. split.
  - intros (e & -> & He). apply list_elem_of_In, filter_In in He as [He Hs].
    apply bool_decide_eq_true in Hs. exists e.
    split; [by apply list_elem_of_In|done].
  - intros (e & He & Hs & Ht). exists e. split; [done|].
    apply list_elem_of_In, filter_In. split; [by apply list_elem_of_In|].
    by apply bool_decide_eq_true.
Qed.

Lemma elem_of_nodes v :
  v ∈ nodes graph <-> exists e, e ∈ graph /\ (source e = v \/ target e = v).
Proof.
  unfold nodes. rewrite elem_of_reverse, elem_of_remove_dups, elem_of_reverse.
  rewrite list_elem_of_In, in_flat_map. split.
  - intros (e & He & [Hv|[Hv|[]]]); exists e;
      (split; [by apply list_elem_of_In|]); [by left|by right].
  - intros (e & He & Hv). exists e. split; [by apply list_elem_of_In|].
    simpl. destruct Hv; [by left|right; by left].
Qed.

Lemma NoDup_nodes : NoDup (nodes graph).
Proof. unfold nodes. rewrite reverse_Permutation. apply NoDup_remove_dups. Qed.

Lemma edge_nodes u v : edge graph u v -> u ∈ nodes graph /\ v ∈ nodes graph.
Proof.
  intros (e & He & Hs & Ht). split; apply elem_of_nodes; exists e; eauto.
Qed.

Lemma elem_of_expand seen w :
  w ∈ expand graph seen <-> w ∈ seen \/ exists u, u ∈ seen /\ edge graph u w.
Proof.
  unfold expand. rewrite elem_of_union, elem_of_list_to_set.
  rewrite list_elem_of_In, in_flat_map. split.
  - intros [?|(u & Hu & Hw)]; [by left|]. right. exists u.
    split; [by apply elem_of_elements, list_elem_of_In|].
    by apply elem_of_successors, list_elem_of_In.
  - intros [?|(u & Hu & Hw)]; [by left|]. right. exists u.
    split; [by apply list_elem_of_In, elem_of_elements|].
    by apply list_elem_of_In, elem_of_successors.
Qed.

Abbreviation round := (round graph).

Lemma round_sound v k w : w ∈ round v k -> rtc (edge graph) v w.
Proof.
  revert w. induction k as [|k IH]; intros w; unfold round in *; simpl.
  - rewrite elem_of_singleton. by intros ->.
  - rewrite elem_of_expand. intros [H|(u & Hu & He)]; [by apply IH|].
    eapply rtc_r; [by apply IH|done].
Qed.

Lemma round_within v k w : w ∈ round v k -> w = v \/ w ∈ nodes graph.
Proof.
  revert w. induction k as [|k IH]; intros w; unfold round in *; simpl.
  - rewrite elem_of_singleton. by left.
  - rewrite elem_of_expand. intros [H|(u & Hu & He)]; [by apply IH|].
    right. by apply (edge_nodes u w).
Qed.

(** Each round either adds nothing or adds a node. *)
Lemma round_grows v k :
  expand graph (round v k) = round v k \/ k + 1 <= size (round v k).
Proof.
  induction k as [|k [IH|IH]].
  - right. change (round v 0) with ({[v]} : gset jsstring).
    by rewrite size_singleton.
  - left. unfold round in *. simpl. by rewrite !IH.
  - destruct (decide (expand graph (round v k) = round v k)) as [E|E].
    + left. unfold round in *. simpl. by rewrite !E.
    + right. change (round v (S k)) with (expand graph (round v k)).
      assert (round v k ⊂ expand graph (round v k)) as Hsub.
      { split.
        - intros w Hw. apply elem_of_expand. by left.
        - intros Hsup. apply E. apply set_eq. intros w. split; [apply Hsup|].
          intros Hw. apply elem_of_expand. by left. }
      apply subset_size in Hsub. lia.
Qed.

(** The last round adds nothing. *)
Lemma reached_closed v : expand graph (reached graph v) = reached graph v.
Proof.
  change (reached graph v) with (round v (length (nodes graph))).
  destruct (decide (v ∈ nodes graph)) as [Hv|Hv].
  - destruct (round_grows v (length (nodes graph))) as [H|H]; [done|].
    assert (size (round v (length (nodes graph))) <= length (nodes graph)).
    { rewrite <- (size_list_to_set (C:=gset jsstring) (nodes graph))
        by apply NoDup_nodes.
      apply subseteq_size. intros w Hw. apply elem_of_list_to_set.
      by destruct (round_within _ _ _ Hw) as [->|?]. }
    lia.
  - assert (Hfix : expand graph {[v]} = {[v]}).
    { apply set_eq. intros w. rewrite elem_of_expand. split; [|by left].
      intros [?|(u & Hu & He)]; [done|].
      apply elem_of_singleton in Hu as ->. by apply edge_nodes in He as [? ?]. }
    assert (Hall : forall k, round v k = {[v]}).
    { induction k as [|k IH]; [done|].
      change (round v (S k)) with (expand graph (round v k)).
      by rewrite IH. }
    by rewrite Hall.
Qed.

(** The search finds exactly the nodes to which a path of edges leads. *)
Lemma elem_of_reached v w : w ∈ reached graph v <-> rtc (edge graph) v w.
Proof.
  split; [apply round_sound|].
  intros H. revert w H. apply rtc_ind_r.
  - unfold reached. generalize (length (nodes graph)).
    induction n as [|n IHn]; [by apply elem_of_singleton|].
    simpl. apply elem_of_expand. by left.
  - intros u w Hvu Huw IH.
    rewrite <- reached_closed. apply elem_of_expand. right. eauto.
Qed.

Lemma connected_spec u v :
  connected graph u v = true <->
  rtc (edge graph) u v /\ rtc (edge graph) v u.
Proof.
  unfold connected.
  by rewrite andb_true_iff, !bool_decide_eq_true, !elem_of_reached.
Qed.

Lemma connected_refl v : connected graph v v = true.
Proof. by apply connected_spec. Qed.

Lemma connected_sym u v : connected graph u v = connected graph v u.
Proof. unfold connected. apply andb_comm. Qed.

Lemma connected_trans u v w :
  connected graph u v = true -> connected graph v w = true ->
  connected graph u w = true.
Proof.
  rewrite !connected_spec. intros [H1 H2] [H3 H4].
  split; by etrans.
Qed.

Lemma elem_of_component v u :
  u ∈ component graph v <-> u ∈ nodes graph /\ connected graph v u = true.
Proof.
  unfold component. by rewrite list_elem_of_In, filter_In, <- list_elem_of_In.
Qed.

Lemma component_connected u v :
  connected graph u v = true -> component graph u = component graph v.
Proof.
  intros H. unfold component. apply filter_ext. intros w.
  destruct (connected graph u w) eqn:E1, (connected graph v w) eqn:E2; try done.
  - rewrite connected_sym in H.
    by rewrite (connected_trans _ _ _ H E1) in E2.
  - by rewrite (connected_trans _ _ _ H E2) in E1.
Qed.

Lemma NoDup_component v : NoDup (component graph v).
Proof.
  unfold component. apply NoDup_ListNoDup, List.NoDup_filter, NoDup_ListNoDup.
  apply NoDup_nodes.
Qed.

Lemma rtc_nodes v u :
  rtc (edge graph) v u -> v ∈ nodes graph -> u ∈ nodes graph.
Proof.
  induction 1 as [|v w u Hvw _ IH]; [done|]. intros _.
  apply IH. by apply (edge_nodes v w).
Qed.

Lemma rtc_source_node v u :
  rtc (edge graph) v u -> u <> v -> v ∈ nodes graph.
Proof.
  intros H Hne. destruct H as [|v w u Hvw _]; [done|].
  by apply (edge_nodes v w).
Qed.

Lemma self_loop_spec v : self_loop graph v = true <-> edge graph v v.
Proof.
  unfold self_loop. by rewrite bool_decide_eq_true, elem_of_successors.
Qed.

Lemma in_own_component v : v ∈ nodes graph -> v ∈ component graph v.
Proof. intros H. apply elem_of_component. split; [done|apply connected_refl]. Qed.

(** What it is for a node to lead a reported component. *)
Lemma leads_cycle_spec v :
  leads_cycle graph v = true <->
  head (component graph v) = Some v /\
  (1 < length (component graph v) \/ edge graph v v).
Proof.
  unfold leads_cycle.
  rewrite andb_true_iff, bool_decide_eq_true, orb_true_iff, Nat.ltb_lt.
  by rewrite self_loop_spec.
Qed.

(** The first node of the component of a node of the graph leads it. *)
Lemma component_leader v :
  v ∈ nodes graph ->
  exists f, f ∈ nodes graph /\ connected graph f v = true /\
            head (component graph f) = Some f.
Proof.
  intros Hv. pose proof (in_own_component v Hv) as Hin.
  destruct (component graph v) as [|f comp] eqn:E; [by apply elem_of_nil in Hin|].
  assert (Hf : f ∈ component graph v) by (rewrite E; left).
  apply elem_of_component in Hf as [Hf Hc].
  exists f. split; [done|]. rewrite connected_sym in Hc. split; [done|].
  by rewrite (component_connected f v Hc), E.
Qed.

Lemma NoDup_two {A} `{EqDecision A} (l : list A) (x : A) :
  NoDup l -> 1 < length l -> exists y, y ∈ l /\ y <> x.
Proof.
  intros Hnd Hlen. destruct l as [|a [|b l]]; simpl in Hlen; try lia.
  destruct (decide (a = x)) as [->|Ha].
  - exists b. split; [right; left|]. intros ->.
    apply NoDup_cons in Hnd as [Hnd _]. apply Hnd. left.
  - exists a. split; [left|done].
Qed.

(** A node has a self-loop or shares its component with another node
    exactly when a node that leads a reported component is connected
    with it. *)
Lemma on_cycle_leader v :
  on_cycle graph v <->
  exists f, f ∈ nodes graph /\ leads_cycle graph f = true /\
            v ∈ component graph f.
Proof.
  split.
  - intros Hv.
    assert (Hn : v ∈ nodes graph).
    { destruct Hv as [He|(u & Hne & Hvu & _)].
      - by apply (edge_nodes v v).
      - by apply (rtc_source_node v u). }
    destruct (component_leader v Hn) as (f & Hf & Hc & Hhd).
    exists f. split; [done|]. split.
    + apply leads_cycle_spec. split; [done|].
      rewrite (component_connected f v Hc).
      destruct Hv as [He|(u & Hne & Hvu & Huv)].
      * destruct (decide (1 < length (component graph v))) as [?|Hlen];
          [by left|right].
        rewrite (component_connected f v Hc) in Hhd.
        pose proof (in_own_component v Hn) as Hin.
        destruct (component graph v) as [|a [|b l]]; simpl in *; try lia.
        -- by apply elem_of_nil in Hin.
        -- apply list_elem_of_singleton in Hin as ->.
           injection Hhd as ->. done.
      * left. pose proof (NoDup_component v) as Hnd.
        assert (Hu : u ∈ component graph v).
        { apply elem_of_component. split.
          - by apply (rtc_nodes v u).
          - by apply connected_spec. }
        pose proof (in_own_component v Hn) as Hin.
        destruct (component graph v) as [|a [|b l]]; simpl; try lia.
        -- by apply elem_of_nil in Hin.
        -- apply list_elem_of_singleton in Hin as ->.
           by apply list_elem_of_singleton in Hu.
    + apply elem_of_component. split; [done|]. done.
  - intros (f & Hf & Hl & Hv). apply leads_cycle_spec in Hl as [Hhd Hcyc].
    apply elem_of_component in Hv as [Hn Hc].
    rewrite (component_connected f v Hc) in Hhd, Hcyc.
    destruct Hcyc as [Hlen|He].
    + right. destruct (NoDup_two _ v (NoDup_component v) Hlen)
        as (u & Hu & Hne).
      exists u. split; [done|].
      apply elem_of_component in Hu as [_ Hu]. by apply connected_spec.
    + destruct (decide (f = v)) as [->|Hne]; [by left|]. right.
      exists f. split; [done|].
      rewrite connected_sym in Hc. by apply connected_spec.
Qed.

(** *** Walks *)

Lemma walk_cons u c :
  walk graph (u :: c) <->
  match c with v :: _ => edge graph u v /\ walk graph c | [] => True end.
Proof. by destruct c. Qed.

Lemma walk_app l p cur :
  walk graph l -> last l = Some cur -> walk graph (cur :: p) ->
  walk graph (l ++ p).
Proof.
  intros Hl Hlast Hp. induction l as [|a l IH]; [done|].
  destruct l as [|b l].
  - simpl in Hlast. injection Hlast as ->. done.
  - destruct Hl as [Hab Hl]. split; [done|]. by apply IH.
Qed.

Lemma walk_rtc_from u p x :
  walk graph (u :: p) -> x ∈ p -> rtc (edge graph) u x.
Proof.
  revert u. induction p as [|v p IH]; intros u Hw Hx;
    [by apply elem_of_nil in Hx|].
  destruct Hw as [Huv Hw]. apply elem_of_cons in Hx as [->|Hx].
  - by apply rtc_once.
  - eapply rtc_l; [exact Huv|]. by apply IH.
Qed.

Lemma walk_rtc_to l w :
  walk graph l -> last l = Some w ->
  forall x, x ∈ l -> rtc (edge graph) x w.
Proof.
  induction l as [|a l IH]; intros Hw Hlast x Hx; [by apply elem_of_nil in Hx|].
  destruct l as [|b l].
  - simpl in Hlast. injection Hlast as ->.
    apply list_elem_of_singleton in Hx as ->. done.
  - destruct Hw as [Hab Hw]. apply elem_of_cons in Hx as [->|Hx].
    + eapply rtc_l; [exact Hab|]. apply IH; [done|done|left].
    + by apply IH.
Qed.

Lemma head_omap_Some {A B} (f : A -> option B) (l : list A) (b : B) :
  head (omap f l) = Some b -> exists a, a ∈ l /\ f a = Some b.
Proof.
  induction l as [|a l IH]; [done|]. simpl.
  destruct (f a) as [b'|] eqn:E.
  - intros [= <-]. exists a. split; [left|done].
  - intros H. destruct (IH H) as (a' & Ha' & Hf). exists a'.
    split; [by right|done].
Qed.

Lemma head_omap_is_Some {A B} (f : A -> option B) (l : list A) (a : A) :
  a ∈ l -> is_Some (f a) -> is_Some (head (omap f l)).
Proof.
  intros Ha [b Hb]. induction l as [|a' l IH]; [by apply elem_of_nil in Ha|].
  simpl. destruct (f a') as [b'|] eqn:E; [by eexists|].
  apply elem_of_cons in Ha as [->|Ha]; [congruence|by apply IH].
Qed.

(** A path that is found is a walk from [u] that ends at [w]. *)
Lemma pathWithin_sound n : forall u w p,
  pathWithin graph n u w = Some p ->
  walk graph (u :: p) /\ last p = Some w.
Proof.
  induction n as [|n IH]; intros u w p; [done|]. simpl.
  case_bool_decide as Hd.
  - intros [= <-]. split; [|done]. split; [|done].
    by apply elem_of_successors.
  - intros H. apply head_omap_Some in H as (s & Hs & Hp).
    destruct (pathWithin graph n s w) as [q|] eqn:E; [|done].
    injection Hp as <-. destruct (IH s w q E) as [Hw Hlast].
    split.
    + split; [by apply elem_of_successors|done].
    + destruct q as [|b q]; [done|]. done.
Qed.

Lemma pathWithin_S n u w :
  pathWithin graph (S n) u w
  = if bool_decide (w ∈ successors graph u) then Some [w]
    else head (omap (fun s => cons s <$> pathWithin graph n s w)
                    (successors graph u)).
Proof. done. Qed.

(** A path is found when there is one within the bound. *)
Lemma pathWithin_complete n : forall u s w,
  edge graph u s -> bsteps (edge graph) n s w ->
  is_Some (pathWithin graph (S n) u w).
Proof.
  induction n as [|n IH]; intros u s w Hus Hsw; rewrite pathWithin_S.
  - inversion Hsw; subst.
    rewrite bool_decide_eq_true_2 by (by apply elem_of_successors).
    by eexists.
  - case_bool_decide as Hd; [by eexists|].
    apply (head_omap_is_Some _ _ s); [by apply elem_of_successors|].
    inversion Hsw as [|? ? s' ? Hss' Hs'w]; subst.
    + exfalso. apply Hd. by apply elem_of_successors.
    + destruct (IH s s' w Hss' Hs'w) as [q Hq]. rewrite Hq. by eexists.
Qed.

Lemma round_bsteps v k w : w ∈ round v k -> bsteps (edge graph) k v w.
Proof.
  revert w. induction k as [|k IH]; intros w; unfold Cycles.round in *; simpl.
  - rewrite elem_of_singleton. intros ->. constructor.
  - rewrite elem_of_expand. intros [H|(u & Hu & He)].
    + apply bsteps_S. by apply IH.
    + eapply bsteps_r; [by apply IH|done].
Qed.

Lemma shortestPath_sound u w p :
  shortestPath graph u w = Some p ->
  walk graph (u :: p) /\ last p = Some w.
Proof.
  unfold shortestPath. intros H.
  apply head_omap_Some in H as (n & _ & Hp). by eapply pathWithin_sound.
Qed.

Lemma shortestPath_complete u s w :
  edge graph u s -> rtc (edge graph) s w ->
  is_Some (shortestPath graph u w).
Proof.
  intros Hus Hsw. unfold shortestPath.
  apply (head_omap_is_Some _ _ (S (length (nodes graph)))).
  - apply elem_of_seq. lia.
  - apply (pathWithin_complete _ u s w Hus).
    apply round_bsteps. by apply elem_of_reached.
Qed.

(** The nodes of a path between two nodes of a component are in the
    component. *)
Lemma path_connected f cur t p x :
  connected graph f cur = true -> connected graph f t = true ->
  walk graph (cur :: p) -> last p = Some t -> x ∈ p ->
  connected graph f x = true.
Proof.
  rewrite !connected_spec. intros [Hfc Hcf] [Hft Htf] Hw Hlast Hx.
  split.
  - etrans; [exact Hfc|]. by eapply walk_rtc_from.
  - etrans; [|exact Htf]. eapply (walk_rtc_to p t); [|done|done].
    destruct p; [done|]. by destruct Hw.
Qed.

Abbreviation touring := (touring graph).

Lemma tour_spec f targets : forall visited,
  touring f visited ->
  Forall (fun t => connected graph f t = true) targets ->
  touring f (tour graph visited targets) /\
  (forall x, x ∈ visited -> x ∈ tour graph visited targets) /\
  (forall t, t ∈ targets -> t ∈ tour graph visited targets).
Proof.
  induction targets as [|t targets IH]; intros visited Hv Ht; simpl.
  - split; [done|]. split; [done|]. intros t Ht'. by apply elem_of_nil in Ht'.
  - apply Forall_cons in Ht as [Hft Ht].
    case_bool_decide as Hd.
    + destruct (IH visited Hv Ht) as (H1 & H2 & H3).
      split; [done|]. split; [done|].
      intros t' [->|Ht']%elem_of_cons; [by apply H2|by apply H3].
    + destruct Hv as (Hw & Hhd & Hall).
      destruct (last visited) as [cur|] eqn:Hlast;
        [|by destruct visited using rev_ind;
            [|rewrite last_snoc in Hlast]].
      assert (Hcur : connected graph f cur = true).
      { rewrite Forall_forall in Hall. apply Hall.
        apply last_Some in Hlast as [l' ->]. apply elem_of_app. right. left. }
      assert (Hne : cur <> t).
      { intros ->. apply Hd. apply last_Some in Hlast as [l' ->].
        apply elem_of_app. right. left. }
      assert (Hct : rtc (edge graph) cur t).
      { apply connected_spec in Hcur as [_ Hcf].
        apply connected_spec in Hft as [Hft _]. by etrans. }
      destruct (rtc_inv _ _ Hct) as [->|(s & Hcs & Hst)]; [done|].
      destruct (shortestPath_complete cur s t Hcs Hst) as [p Hp].
      simpl. rewrite Hp.
      destruct (shortestPath_sound _ _ _ Hp) as [Hwp Hlp].
      destruct (IH (visited ++ p)) as (H1 & H2 & H3); [|done|].
      * split; [by eapply walk_app|]. split.
        -- destruct visited; [done|]. done.
        -- apply Forall_app. split; [done|]. apply Forall_forall.
           intros x Hx. by eapply (path_connected f cur t p).
      * split; [done|]. split.
        -- intros x Hx. apply H2, elem_of_app. by left.
        -- intros t' [->|Ht']%elem_of_cons; [|by apply H3].
           apply H2, elem_of_app. right.
           apply last_Some in Hlp as [l' ->]. apply elem_of_app. right. left.
Qed.

(** The closed walk of a node that leads a reported component. *)
Lemma closed_walk_spec f :
  f ∈ nodes graph -> leads_cycle graph f = true ->
  let c := closed_walk graph f in
  walk graph c /\ head c = Some f /\ last c = Some f /\ 2 <= length c /\
  forall x, x ∈ c <-> x ∈ component graph f.
Proof.
  intros Hf Hl. apply leads_cycle_spec in Hl as [Hhd Hcyc].
  assert (Hcomp : Forall (fun t => connected graph f t = true)
                    (component graph f)).
  { apply Forall_forall. intros t Ht. by apply elem_of_component in Ht as [_ ?]. }
  destruct (tour_spec f (component graph f) [f]) as ((Hw & Hh & Hall) & Hk & Hc);
    [|done|].
  { split; [done|]. split; [done|]. constructor; [apply connected_refl|done]. }
  unfold closed_walk. cbv zeta.
  set (visited := tour graph [f] (component graph f)) in *.
  destruct (last visited) as [cur|] eqn:Hlast;
    [|by destruct visited using rev_ind; [|rewrite last_snoc in Hlast]].
  assert (Hcur : connected graph f cur = true).
  { rewrite Forall_forall in Hall. apply Hall.
    apply last_Some in Hlast as [l' ->]. apply elem_of_app. right. left. }
  assert (Hstep : exists s, edge graph cur s /\ rtc (edge graph) s f).
  { pose proof Hcur as Hcur'. apply connected_spec in Hcur' as [Hfc Hcf].
    destruct (rtc_inv _ _ Hcf) as [->|(s & Hcs & Hsf)]; [|by eauto].
    destruct Hcyc as [Hlen|Hself]; [|by exists f].
    destruct (NoDup_two _ f (NoDup_component f) Hlen) as (u & Hu & Hne).
    apply elem_of_component in Hu as [_ Hu].
    apply connected_spec in Hu as [Hfu Huf].
    destruct (rtc_inv _ _ Hfu) as [->|(s & Hfs & Hsu)]; [done|].
    exists s. split; [done|]. by etrans. }
  destruct Hstep as (s & Hcs & Hsf).
  destruct (shortestPath_complete cur s f Hcs Hsf) as [back Hback].
  simpl. rewrite Hback.
  destruct (shortestPath_sound _ _ _ Hback) as [Hwb Hlb].
  split; [by eapply walk_app|]. split.
  { destruct visited; [done|]. done. }
  split.
  { apply last_Some in Hlb as [l' ->]. by rewrite app_assoc, last_snoc. }
  split.
  { rewrite length_app. destruct visited; [done|].
    destruct back; [done|]. simpl. lia. }
  intros x. rewrite elem_of_app. split.
  - intros [Hx|Hx]; apply elem_of_component.
    + rewrite Forall_forall in Hall. pose proof (Hall x Hx) as Hfx.
      split; [|done]. apply connected_spec in Hfx as [Hfx _].
      by apply (rtc_nodes f x).
    + assert (Hfx : connected graph f x = true).
      { eapply (path_connected f cur f back x); try done.
        apply connected_refl. }
      split; [|done]. apply connected_spec in Hfx as [Hfx _].
      by apply (rtc_nodes f x).
  - intros Hx. left. by apply Hc.
Qed.

End Graph.

Lemma filter_sublist {A} (f : A -> bool) (l : list A) :
  List.filter f l `sublist_of` l.
Proof.
  induction l as [|a l IH]; simpl; [done|].
  destruct (f a); [by apply sublist_skip|by apply sublist_cons].
Qed.

Lemma elem_of_detect_cycles edges c :
  c ∈ detect_cycles edges <->
  exists f, f ∈ nodes (internal edges) /\
            leads_cycle (internal edges) f = true /\
            c = closed_walk (internal edges) f.
Proof.
  unfold detect_cycles. rewrite list_elem_of_fmap. split.
  - intros (f & -> & Hf). apply list_elem_of_In, filter_In in Hf as [Hf Hl].
    exists f. split; [by apply list_elem_of_In|done].
  - intros (f & Hf & Hl & ->). exists f. split; [done|].
    apply list_elem_of_In, filter_In. split; [by apply list_elem_of_In|done].
Qed.

(** C7. The graph A -> B -> C -> A has exactly one cycle, of length 3,
    with the nodes A, B and C; the graph A -> B -> C has none. In every
    graph, a node is in a reported cycle exactly when it has a self-loop
    or shares its strongly connected component with another node; a
    reported cycle is a closed walk over internal edges, of at least
    one step, from its first node back to it, and its nodes are exactly
    the nodes of the component of that node; no node is in two reported
    cycles; and the cycles come in the order in which their first nodes
    are discovered. The result is a function of the edges. *)
Theorem cycles_reported :
  detect_cycles triangle = [[lit "A"; lit "B"; lit "C"; lit "A"]] /\
  map cycle_length (detect_cycles triangle) = [3] /\
  detect_cycles chain3 = [] /\
  forall edges : list DependencyEdge,
    let graph := internal edges in
    (forall v, on_cycle graph v <->
               exists c, c ∈ detect_cycles edges /\ v ∈ c) /\
    (forall c, c ∈ detect_cycles edges ->
       exists first,
         head c = Some first /\ last c = Some first /\
         1 <= cycle_length c /\ walk graph c /\
         forall u, u ∈ c <->
                   rtc (edge graph) first u /\ rtc (edge graph) u first) /\
    (forall i j ci cj v,
       detect_cycles edges !! i = Some ci ->
       detect_cycles edges !! j = Some cj ->
       v ∈ ci -> v ∈ cj -> i = j) /\
    omap head (detect_cycles edges) `sublist_of` nodes graph.
Proof.
  split; [by vm_compute|]. split; [by vm_compute|]. split; [by vm_compute|].
  intros edges graph. split; [|split; [|split]].
  - intros v. rewrite on_cycle_leader. split.
    + intros (f & Hf & Hl & Hv). exists (closed_walk graph f).
      split; [apply elem_of_detect_cycles; eauto|].
      by apply (closed_walk_spec graph f Hf Hl).
    + intros (c & Hc & Hv).
      apply elem_of_detect_cycles in Hc as (f & Hf & Hl & ->).
      exists f. split; [done|]. split; [done|].
      by apply (closed_walk_spec graph f Hf Hl).
  - intros c Hc. apply elem_of_detect_cycles in Hc as (f & Hf & Hl & ->).
    destruct (closed_walk_spec graph f Hf Hl) as (Hw & Hhd & Hlast & Hlen & Hin).
    exists f. split; [done|]. split; [done|].
    split; [unfold cycle_length; fold graph; lia|]. split; [done|].
    intros u. fold graph. rewrite Hin, elem_of_component, connected_spec.
    split; [tauto|].
    intros [H1 H2]. split; [|done]. by apply (rtc_nodes graph f u).
  - intros i j ci cj v Hi Hj Hvi Hvj. unfold detect_cycles in Hi, Hj.
    fold graph in Hi, Hj. rewrite list_lookup_fmap in Hi, Hj.
    destruct (List.filter (leads_cycle graph) (nodes graph) !! i)
      as [fi|] eqn:Ei; [|done].
    destruct (List.filter (leads_cycle graph) (nodes graph) !! j)
      as [fj|] eqn:Ej; [|done].
    injection Hi as <-. injection Hj as <-.
    assert (Hleader : forall k f,
      List.filter (leads_cycle graph) (nodes graph) !! k = Some f ->
      f ∈ nodes graph /\ leads_cycle graph f = true).
    { intros k f Hk. apply list_elem_of_lookup_2, list_elem_of_In in Hk.
      apply filter_In in Hk as [Hk Hl].
      split; [by apply list_elem_of_In|done]. }
    destruct (Hleader _ _ Ei) as [Hfi Hli].
    destruct (Hleader _ _ Ej) as [Hfj Hlj].
    apply (closed_walk_spec graph fi Hfi Hli), elem_of_component in Hvi
      as [_ Hci].
    apply (closed_walk_spec graph fj Hfj Hlj), elem_of_component in Hvj
      as [_ Hcj].
    apply leads_cycle_spec in Hli as [Hhi _].
    apply leads_cycle_spec in Hlj as [Hhj _].
    rewrite (connected_sym graph fj v) in Hcj.
    pose proof (connected_trans graph _ _ _ Hci Hcj) as Hij.
    rewrite (component_connected graph fi fj Hij) in Hhi.
    assert (fi = fj) as -> by congruence.
    eapply NoDup_lookup; [|exact Ei|exact Ej].
    apply NoDup_ListNoDup, List.NoDup_filter, NoDup_ListNoDup, NoDup_nodes.
  - unfold detect_cycles. fold graph.
    assert (Hheads :
      omap head (map (closed_walk graph)
                     (List.filter (leads_cycle graph) (nodes graph)))
      = List.filter (leads_cycle graph) (nodes graph)).
    { assert (Hall : Forall (fun f => f ∈ nodes graph /\
                                      leads_cycle graph f = true)
                       (List.filter (leads_cycle graph) (nodes graph))).
      { apply Forall_forall. intros f Hf.
        apply list_elem_of_In, filter_In in Hf as [Hf ?].
        split; [by apply list_elem_of_In|done]. }
      induction Hall as [|f l [Hf Hl] _ IH]; [done|].
      cbn [map omap list_omap]. rewrite IH.
      destruct (closed_walk_spec graph f Hf Hl) as (_ & -> & _). done. }
    rewrite Hheads. apply filter_sublist.
Qed.

(** External edges are left out; a self-loop is a cycle of length one. *)
Example mixed_cycles :
  detect_cycles mixed
  = [ [lit "a"; lit "b"; lit "a"]; [lit "c"; lit "c"];
      [lit "d"; lit "e"; lit "d"] ]
  /\ map cycle_length (detect_cycles mixed) = [2; 1; 2].
Proof. by vm_compute. Qed.

(** A component is walked along its edges, whatever the order in which
    its nodes were discovered, and a node is passed twice where the
    component has no cycle through all its nodes. *)
Example square_bowtie_cycles :
  nodes (internal square) = [lit "A"; lit "B"; lit "D"; lit "C"] /\
  detect_cycles square = [[lit "A"; lit "B"; lit "C"; lit "D"; lit "A"]] /\
  detect_cycles bowtie
  = [[lit "A"; lit "B"; lit "C"; lit "A"; lit "D"; lit "E"; lit "A"]].
Proof. by vm_compute. Qed.

End CyclesFacts.

(** ** TreeStats *)

Module TreeStatsFacts.
Import JS TreeStats.

Local Open Scope Z_scope.

Lemma hundredths_nearest size unit :
  0 < unit ->
  let h := hundredths size unit in
  - unit <= 200 * size - 2 * unit * h < unit.
Proof.
  intros Hu h. subst h. unfold hundredths.
  pose proof (Z.div_mod (200 * size + unit) (2 * unit)) as Hdm.
  pose proof (Z.mod_pos_bound (200 * size + unit) (2 * unit)) as Hb.
  lia.
Qed.

(** X1. For a size that is a safe integer (an integer of at most 2^53 - 1
    in absolute value, which a double holds exactly), [formatFileSize]
    prints a size below 1024 as it is, in bytes; a larger size in KB
    below 1024 * 1024, in MB below 1024^3 and in GB from there, as the
    number of hundredths nearest to the quotient: the number shown is at
    least 1.00 and differs from the quotient by at most 0.005, and in KB
    and MB it is at most 1024.00. *)
Theorem formatFileSize_nearest_hundredth (size : Z) :
  isSafeInteger size = true ->
  formatFileSize size = Some (printShown (shownSize size)) /\
  match shownSize size with
  | Bytes n => n = size /\ size < 1024
  | Scaled unit suffix h =>
      unit <= size /\
      - unit <= 200 * size - 2 * unit * h < unit /\
      100 <= h /\
      (suffix <> " GB"%string -> size < 1024 * unit /\ h <= 102400)
  end.
Proof.
  intros Hsafe. unfold formatFileSize, shownSize, toFixed2. rewrite Hsafe.
  destruct (size <? 1024) eqn:E1; [apply Z.ltb_lt in E1; simpl; by rewrite ?app_assoc|].
  apply Z.ltb_ge in E1.
  rewrite (proj2 (Z.leb_le 0 size)) by lia. cbn [andb fmap option_fmap option_map].
  destruct (size <? 1024 * 1024) eqn:E2;
    [apply Z.ltb_lt in E2|apply Z.ltb_ge in E2;
     destruct (size <? 1024 * 1024 * 1024) eqn:E3;
       [apply Z.ltb_lt in E3|apply Z.ltb_ge in E3]].
  - split; [simpl; by rewrite <- !app_assoc|].
    pose proof (hundredths_nearest size 1024 ltac:(lia)) as H. cbv zeta in H.
    split; [lia|]. split; [lia|]. split; [lia|]. intros _. lia.
  - split; [simpl; by rewrite <- !app_assoc|].
    pose proof (hundredths_nearest size (1024 * 1024) ltac:(lia)) as H.
    cbv zeta in H.
    split; [lia|]. split; [lia|]. split; [lia|]. intros _. lia.
  - split; [simpl; by rewrite <- !app_assoc|].
    pose proof (hundredths_nearest size (1024 * 1024 * 1024) ltac:(lia)) as H.
    cbv zeta in H.
    split; [lia|]. split; [lia|]. split; [lia|]. by intros [].
Qed.

Lemma formatFileSize_nearest_hundredth_witness :
  formatFileSize 1536 = Some (lit "1.50 KB").
Proof.
  destruct (formatFileSize_nearest_hundredth 1536 eq_refl) as [H _].
  rewrite H. reflexivity.
Defined.

Example formatFileSize_samples :
  formatFileSize 512 = Some (lit "512 bytes") /\
  formatFileSize (-5) = Some (lit "-5 bytes") /\
  formatFileSize 1048575 = Some (lit "1024.00 KB") /\
  formatFileSize 5242880 = Some (lit "5.00 MB") /\
  formatFileSize 1234567890 = Some (lit "1.15 GB") /\
  formatFileSize (2 ^ 53 - 1) = Some (lit "8388608.00 GB") /\
  formatFileSize (2 ^ 100) = None.
Proof. by vm_compute. Qed.

Lemma insertDescending_Permutation a l : insertDescending a l ≡ₚ a :: l.
Proof.
  induction l as [|b l IH]; simpl; [done|].
  destruct (a.2 <? b.2); [|done]. rewrite IH. apply Permutation_swap.
Qed.

Lemma sortDescending_Permutation l : sortDescending l ≡ₚ l.
Proof.
  induction l as [|a l IH]; simpl; [done|].
  by rewrite insertDescending_Permutation, IH.
Qed.

Lemma insertDescending_sorted a l :
  StronglySorted descending l -> StronglySorted descending (insertDescending a l).
Proof.
  induction 1 as [|b l Hs IH Hb]; simpl; [repeat constructor|].
  destruct (a.2 <? b.2) eqn:E.
  - apply Z.ltb_lt in E. constructor; [done|].
    rewrite insertDescending_Permutation. constructor; [|done].
    unfold descending. lia.
  - apply Z.ltb_ge in E. constructor; [by constructor|].
    constructor; [done|]. eapply Forall_impl; [exact Hb|].
    unfold descending. simpl. lia.
Qed.

Lemma sortDescending_sorted l : StronglySorted descending (sortDescending l).
Proof.
  induction l as [|a l IH]; simpl; [constructor|].
  by apply insertDescending_sorted.
Qed.

(** The sort is stable: the entries of one count keep their order. *)
Lemma insertDescending_stable c a l :
  List.filter (fun e => e.2 =? c) (insertDescending a l)
  = List.filter (fun e => e.2 =? c) (a :: l).
Proof.
  induction l as [|b l IH]; [done|]. simpl in *.
  destruct (a.2 <? b.2) eqn:E; [|done]. apply Z.ltb_lt in E. simpl.
  rewrite IH.
  destruct (a.2 =? c) eqn:Ea, (b.2 =? c) eqn:Eb; try done.
  apply Z.eqb_eq in Ea, Eb. lia.
Qed.

Lemma sortDescending_stable c l :
  List.filter (fun e => e.2 =? c) (sortDescending l)
  = List.filter (fun e => e.2 =? c) l.
Proof.
  induction l as [|a l IH]; [done|]. simpl sortDescending.
  rewrite insertDescending_stable. simpl. by rewrite IH.
Qed.

Lemma filter_take_prefix {A} (f : A -> bool) (l : list A) n :
  List.filter f (take n l) `prefix_of` List.filter f l.
Proof.
  rewrite <- (take_drop n l) at 2. rewrite List.filter_app.
  by apply prefix_app_r.
Qed.

(** X2. [getTopItems] returns [count] entries, or all when there are
    fewer; they are in descending order of count; together with the
    entries left out they are the entries of the object, and no entry
    left out has a larger count than one returned; among the entries of
    one count, those returned are the first in the order of the object. *)
Theorem getTopItems_top (entries : list (jsstring * Z)) (count : nat) :
  let top := getTopItems entries count in
  length top = (count `min` length entries)%nat /\
  StronglySorted descending top /\
  (exists rest,
     top ++ rest ≡ₚ entries /\
     forall a b, a ∈ top -> b ∈ rest -> b.2 <= a.2) /\
  forall c,
    List.filter (fun e => e.2 =? c) top
    `prefix_of` List.filter (fun e => e.2 =? c) entries.
Proof.
  intros top. subst top. unfold getTopItems.
  pose proof (sortDescending_sorted entries) as Hs.
  pose proof (sortDescending_Permutation entries) as Hp.
  split; [|split; [|split]].
  - rewrite length_take. by rewrite (Permutation_length Hp).
  - rewrite <- (take_drop count (sortDescending entries)) in Hs.
    by apply StronglySorted_app_1_l in Hs.
  - exists (drop count (sortDescending entries)).
    rewrite take_drop. split; [done|]. intros a b Ha Hb.
    rewrite <- (take_drop count (sortDescending entries)) in Hs.
    by apply (StronglySorted_app_1_elem_of _ _ _ a b Hs).
  - intros c. rewrite <- (sortDescending_stable c entries).
    apply filter_take_prefix.
Qed.

Example getTopItems_sample :
  getTopItems [(lit ".ts", 4); (lit ".py", 9); (lit ".md", 4); (lit ".js", 1)] 3
  = [(lit ".py", 9); (lit ".ts", 4); (lit ".md", 4)].
Proof. by vm_compute. Qed.

End TreeStatsFacts.

(** ** TreeSearch: a longer term narrows the results *)

Module TreeSearchNarrowing.
Import JS JSFacts TreeSearch.

Section Search.
Variable toLowerCase : jsstring -> jsstring.

Lemma includes_trans a b c :
  includes a b = true -> includes b c = true -> includes a c = true.
Proof.
  rewrite !includes_spec.
  intros (pre & post & ->) (pre' & post' & ->).
  exists (pre ++ pre'), (post' ++ post). by rewrite <- !app_assoc.
Qed.

Lemma filter_filter_implied {A} (f g : A -> bool) (l : list A) :
  (forall x, g x = true -> f x = true) ->
  List.filter g (List.filter f l) = List.filter g l.
Proof.
  intros Hfg. induction l as [|x l IH]; [done|]. simpl.
  destruct (f x) eqn:Hf; simpl.
  - by rewrite IH.
  - destruct (g x) eqn:Hg; [|done]. apply Hfg in Hg. congruence.
Qed.

Lemma filter_sublist_of {A} (f : A -> bool) (l : list A) :
  List.filter f l `sublist_of` l.
Proof.
  induction l as [|a l IH]; simpl; [constructor|].
  destruct (f a); by constructor.
Qed.

Lemma performSearch_results nodes st :
  searchResults (performSearch toLowerCase nodes st)
  = if truthy (trim (searchTerm st))
    then List.filter (fun node =>
           includes (toLowerCase (name node)) (toLowerCase (searchTerm st))
           || includes (toLowerCase (path node)) (toLowerCase (searchTerm st)))
           nodes
    else [].
Proof. unfold performSearch. by destruct (truthy (trim (searchTerm st))). Qed.

(** X18. A term that holds another narrows its results: when the
    lower-cased term of a second search contains the lower-cased term of
    a first search that is not blank, the results of the second search
    are among those of the first, in the same order, and they are what
    the second search finds among the results of the first. (After a
    blank term, which finds nothing, this is not so: the term is matched
    as it is typed, with its white space.) *)
Theorem performSearch_narrows (nodes : list TreeNode) (st1 st2 : state) :
  ~ blank (searchTerm st1) ->
  includes (toLowerCase (searchTerm st2)) (toLowerCase (searchTerm st1)) = true ->
  let first := searchResults (performSearch toLowerCase nodes st1) in
  let second := searchResults (performSearch toLowerCase nodes st2) in
  second `sublist_of` first /\
  searchResults (performSearch toLowerCase first st2) = second.
Proof.
  intros Hblank Hin first second. subst first second.
  rewrite !performSearch_results.
  assert (Ht1 : truthy (trim (searchTerm st1)) = true).
  { destruct (trim (searchTerm st1)) eqn:E; [|done].
    by apply TreeSearchFacts.trim_nil_iff in E. }
  rewrite Ht1.
  destruct (truthy (trim (searchTerm st2))); [|split; [apply sublist_nil_l|done]].
  set (f2 := fun node : TreeNode => _ || _).
  set (f1 := fun node : TreeNode => _ || _).
  assert (Hfg : forall node, f2 node = true -> f1 node = true).
  { intros node. unfold f1, f2. rewrite !orb_true_iff.
    intros [H|H]; [left|right]; exact (includes_trans _ _ _ H Hin). }
  rewrite <- (filter_filter_implied f1 f2 nodes Hfg).
  split; [apply filter_sublist_of|done].
Qed.

End Search.

Lemma performSearch_narrows_witness :
  searchResults
    (performSearch asciiLower mockNodes (mkState (lit "SRC/C") [] false))
  `sublist_of`
  searchResults
    (performSearch asciiLower mockNodes (mkState (lit "src") [] false)).
Proof.
  destruct (performSearch_narrows asciiLower mockNodes
              (mkState (lit "src") [] false) (mkState (lit "SRC/C") [] false))
    as [H _].
  - intros H. unfold blank in H. by inversion H.
  - by vm_compute.
  - exact H.
Defined.

(** A blank term finds nothing, a term that holds it finds a node. *)
Example blank_term_not_narrowed :
  searchResults
    (performSearch asciiLower
       [mkTreeNode (lit "1") (lit "read me") (lit "/read me") false]
       (mkState (lit " ") [] false)) = [] /\
  length (searchResults
    (performSearch asciiLower
       [mkTreeNode (lit "1") (lit "read me") (lit "/read me") false]
       (mkState (lit " m") [] false))) = 1.
Proof. by vm_compute. Qed.

End TreeSearchNarrowing.

(** ** structureService: how the fetchers settle *)

Module StructureServiceSettling.
Import JS StructureService.

Section Settling.
Variable number : Type.
Variable isZero : number -> bool.
Variable NumberToString : number -> jsstring.
Variable formEncode : jsstring -> jsstring.
Variable fetch : jsstring -> outcome (Response number) exn.

Abbreviation fetch_json' := (fetch_json number isZero NumberToString fetch).

Lemma fetch_json_resolved url failure v :
  fetch_json' url failure = Resolved v <->
  exists response,
    fetch url = Resolved response /\ ok response = true /\
    json_ response = Resolved v.
Proof.
  unfold fetch_json. split.
  - destruct (fetch url) as [response|e]; [|done].
    destruct (ok response) eqn:Hok; simpl.
    + intros Hj. by exists response.
    + destruct (get_detail _ _) as [[d|]|]; try done.
      * destruct (truthy_json _ _ _); [|done]. by destruct (ToString _ _ _).
  - intros (response & -> & -> & Hj). done.
Qed.

Lemma fetch_json_fetch_rejected url failure e :
  fetch url = Rejected e -> fetch_json' url failure = Rejected e.
Proof. intros Hf. unfold fetch_json. by rewrite Hf. Qed.





End Settling.

(** X3. Each of the two fetchers resolves only on a response that is ok,
    and then with the value that [response.json()] resolves to: it
    resolves with [v] exactly when [fetch], called on the URL of the
    request, resolves to a response with [ok] whose [json()] resolves
    with [v]. When [fetch] itself rejects, the fetcher rejects with the
    same reason. *)
Theorem fetchers_resolve_only_ok (number : Type) (isZero : number -> bool)
    (NumberToString : number -> jsstring) (formEncode : jsstring -> jsstring)
    (fetch : jsstring -> outcome (Response number) exn)
    (repositoryId : jsstring) (excludeDirs : option (list jsstring)) :
  let structureUrl :=
    request_url formEncode (lit "/api/structure/tree/") repositoryId excludeDirs in
  let dependenciesUrl :=
    request_url formEncode (lit "/api/structure/dependencies/") repositoryId
                excludeDirs in
  let getRepositoryStructure :=
    getRepositoryStructure number isZero NumberToString formEncode fetch in
  let getRepositoryDependencies :=
    getRepositoryDependencies number isZero NumberToString formEncode fetch in
  (forall v,
     getRepositoryStructure repositoryId excludeDirs = Resolved v <->
     exists response,
       fetch structureUrl = Resolved response /\ ok response = true /\
       json_ response = Resolved v) /\
  (forall v,
     getRepositoryDependencies repositoryId excludeDirs = Resolved v <->
     exists response,
       fetch dependenciesUrl = Resolved response /\ ok response = true /\
       json_ response = Resolved v) /\
  (forall e,
     fetch structureUrl = Rejected e ->
     getRepositoryStructure repositoryId excludeDirs = Rejected e) /\
  (forall e,
     fetch dependenciesUrl = Rejected e ->
     getRepositoryDependencies repositoryId excludeDirs = Rejected e).
Proof.
  cbv zeta. unfold getRepositoryStructure, getRepositoryDependencies.
  split; [|split; [|split]].
  - intros v. apply fetch_json_resolved.
  - intros v. apply fetch_json_resolved.
  - intros e. apply fetch_json_fetch_rejected.
  - intros e. apply fetch_json_fetch_rejected.
Qed.



(** The request names every excluded directory, the first one too; a
    detail that is an object with a member [toString] makes the fetcher
    reject with a [TypeError], one without with [[object Object]]. *)
Example request_and_detail_samples :
  request_url (fun s => s) (lit "/api/structure/tree/") (lit "repo")
    (Some [lit "node_modules"; lit "dist"])
  = lit "/api/structure/tree/repo?exclude_dirs=node_modules&exclude_dirs=dist" /\
  request_url (fun s => s) (lit "/api/structure/tree/") (lit "repo") (Some [])
  = lit "/api/structure/tree/repo" /\
  getRepositoryStructure Z (Z.eqb 0) TreeStats.decimal (fun s => s)
    (fun _ => Resolved (mkResponse false (lit "Bad Request")
       (Resolved (JObject [(lit "detail",
                            JObject [(lit "toString", JNumber 1%Z)])]))))
    (lit "repo") None
  = Rejected cannotConvert /\
  getRepositoryStructure Z (Z.eqb 0) TreeStats.decimal (fun s => s)
    (fun _ => Resolved (mkResponse false (lit "Bad Request")
       (Resolved (JObject [(lit "detail",
                            JArray [JNumber 1%Z; JNull;
                                    JObject [(lit "msg", JString (lit "x"))]])]))))
    (lit "repo") None
  = Rejected (mkExn "Error" (lit "1,,[object Object]")).
Proof. repeat split; by vm_compute. Qed.

End StructureServiceSettling.

(** ** extract_calls.js: the walk is compositional *)

Module ExtractorComposition.
Import JS Extractor.

Section Walk.
Variable sourceCode : jsstring.
Variable getLineAndCharacterOfPosition : nat -> nat * nat.
Variable skipTrivia : nat -> nat.

Abbreviation visit := (visit sourceCode getLineAndCharacterOfPosition skipTrivia).
Abbreviation eventsAt :=
  (eventsAt sourceCode getLineAndCharacterOfPosition skipTrivia).

Lemma flat_map_visit parent (children : list node) :
  flat_map (fun c => visit parent c []) children
  = flat_map eventsAt (flat_map (preorder parent) children).
Proof.
  induction children as [|c cs IH]; [done|]. simpl.
  by rewrite ExtractorFacts.visit_preorder, flat_map_app, IH.
Qed.

Lemma eventsAt_parent parent parent' n :
  from_option isAwaitExpression false parent
  = from_option isAwaitExpression false parent' ->
  eventsAt (parent, n) = eventsAt (parent', n).
Proof.
  intros Hp. unfold Extractor.eventsAt. simpl. f_equal.
  destruct n as [p e' e q tas args|p e' e tas args|p e' e q name|p e' e
                |p e' t|p e' t|k p e' children]; try done.
  destruct e; try done. simpl.
  destruct (getLineAndCharacterOfPosition p) as [line character].
  destruct parent, parent'; simpl in Hp; by rewrite ?Hp.
Qed.

(** X5. The walk only appends to [methodCalls]: the entries that the
    array holds when [visit] is called on a node are still its first
    entries afterwards, unchanged. What it appends is at most one event
    for the node itself, followed by what the walks of its children
    append, child by child in the order of [forEachChild]; and of the
    parent of the node, the events depend only on whether it is an await
    expression. *)
Theorem visit_appends_children (parent : option node) (n : node)
    (methodCalls : list event) :
  visit parent n methodCalls = methodCalls ++ visit parent n [] /\
  visit parent n []
  = eventsAt (parent, n)
    ++ flat_map (fun child => visit (Some n) child []) (forEachChild n) /\
  length (eventsAt (parent, n)) <= 1 /\
  forall parent',
    from_option isAwaitExpression false parent
    = from_option isAwaitExpression false parent' ->
    visit parent' n [] = visit parent n [].
Proof.
  split; [|split; [|split]].
  - by rewrite (ExtractorFacts.visit_preorder _ _ _ n parent methodCalls),
      (ExtractorFacts.visit_preorder _ _ _ n parent []).
  - rewrite ExtractorFacts.visit_preorder, ExtractorFacts.preorder_children.
    simpl. by rewrite flat_map_visit.
  - destruct (ExtractorFacts.eventsAt_reported sourceCode
                getLineAndCharacterOfPosition skipTrivia parent n)
      as [(_ & e & -> & _)|[_ ->]]; simpl; lia.
  - intros parent' Hp.
    rewrite !ExtractorFacts.visit_preorder, !ExtractorFacts.preorder_children.
    simpl. by rewrite (eventsAt_parent parent parent' n Hp).
Qed.

End Walk.

End ExtractorComposition.

(** ** extract_calls.js: the names and the position of an event *)

Module ExtractorFields.
Import JS Extractor.

Section Walk.
Variable sourceCode : jsstring.
Variable getLineAndCharacterOfPosition : nat -> nat * nat.
Variable skipTrivia : nat -> nat.

Abbreviation extract :=
  (extract sourceCode getLineAndCharacterOfPosition skipTrivia).
Abbreviation eventsAt :=
  (eventsAt sourceCode getLineAndCharacterOfPosition skipTrivia).

(** X19. Every event carries the position of the full start of its
    node, the place where the white space and the comments before the
    call begin, as a line counted from 1 and a column counted from 0.
    The caller of a method call is the source text over the full range
    of the object expression, leading white space and comments included
    and not trimmed; the method is the text of the member name; the
    class of a construction is the text of its callee from the first
    token on. *)
Theorem event_names_positions (t : node) (e : event) :
  e ∈ extract t ->
  exists parent n,
    (parent, n) ∈ preorder None t /\ e ∈ eventsAt (parent, n) /\
    get "lineno" e
    = Some (VNumber ((getLineAndCharacterOfPosition (pos n)).1 + 1)) /\
    get "col_offset" e
    = Some (VNumber (getLineAndCharacterOfPosition (pos n)).2) /\
    ((exists p e' p' e'' object q name q' typeArguments arguments,
        n = CallExpression p e'
              (PropertyAccessExpression p' e'' object q name) q'
              typeArguments arguments /\
        get "caller" e
        = Some (VString (substring sourceCode (pos object) (end_ object))) /\
        get "method" e = Some (VString (text name))) \/
     (exists p e' expression typeArguments arguments,
        n = NewExpression p e' expression typeArguments arguments /\
        get "class" e
        = Some (VString (substring sourceCode (skipTrivia (pos expression))
                           (end_ expression))))).
Proof.
  intros He.
  apply (ExtractorFacts.extract_site sourceCode getLineAndCharacterOfPosition
           skipTrivia) in He as (parent & n & Hsite & He).
  exists parent, n. split; [done|]. split; [done|].
  unfold Extractor.eventsAt, Extractor.methodCallEvents,
    Extractor.constructorEvents in He. simpl in He.
  destruct n as [p e' callee q tas args|p e' callee tas args|p e' o q name|p e' o
                |p e' s|p e' s|k p e' children]; simpl in He;
    try (by apply elem_of_nil in He).
  - destruct callee as [| |p' e'' object q'' name| | | |]; simpl in He;
      try (by apply elem_of_nil in He).
    simpl. destruct (getLineAndCharacterOfPosition p) as [line character].
    apply list_elem_of_singleton in He as ->.
    split; [done|]. split; [done|]. left.
    by exists p, e', p', e'', object, q'', name, q, tas, args.
  - simpl. destruct (getLineAndCharacterOfPosition p) as [line character].
    apply list_elem_of_singleton in He as ->.
    split; [done|]. split; [done|]. right.
    by exists p, e', callee, tas, args.
Qed.

End Walk.

Lemma event_names_positions_witness :
  exists parent n e,
    e ∈ Extractor.eventsAt LineSamples.second_line_src LineSamples.twoLines
          (Samples.skipBlanks LineSamples.second_line_src) (parent, n) /\
    get "lineno" e = Some (VNumber (((LineSamples.twoLines (pos n)).1 + 1))).
Proof.
  destruct (event_names_positions LineSamples.second_line_src
              LineSamples.twoLines
              (Samples.skipBlanks LineSamples.second_line_src)
              LineSamples.second_line_tree
              [ ("caller", VString ([10%N] ++ lit "a"));
                ("method", VString (lit "f"));
                ("args", VArray [lit "new B()"]); ("lineno", VNumber 1);
                ("col_offset", VNumber 4); ("is_async", VBool false) ])
    as (parent & n & _ & He & Hl & _).
  - vm_compute. left.
  - eexists parent, n, _. split; [exact He|exact Hl].
Defined.

(** The call on the second line is reported at line 1, column 4, where
    the line break before it stands, and its caller begins with that
    line break; the construction inside it is reported at line 2. *)
Example second_line_events :
  Extractor.extract LineSamples.second_line_src LineSamples.twoLines
    (Samples.skipBlanks LineSamples.second_line_src)
    LineSamples.second_line_tree
  = [ [ ("caller", VString ([10%N] ++ lit "a")); ("method", VString (lit "f"));
        ("args", VArray [lit "new B()"]); ("lineno", VNumber 1);
        ("col_offset", VNumber 4); ("is_async", VBool false) ];
      [ ("is_constructor", VBool true); ("class", VString (lit "B"));
        ("args", VArray []); ("lineno", VNumber 2);
        ("col_offset", VNumber 4) ] ].
Proof. by vm_compute. Qed.

(** The method of a call through a private name is the name with its
    number sign. *)
Example private_method_event :
  Extractor.extract LineSamples.private_src Samples.oneLine
    (Samples.skipBlanks LineSamples.private_src) LineSamples.private_tree
  = [ [ ("caller", VString (lit "this")); ("method", VString (lit "#h"));
        ("args", VArray [lit "1"]); ("lineno", VNumber 1);
        ("col_offset", VNumber 0); ("is_async", VBool false) ] ].
Proof. by vm_compute. Qed.

End ExtractorFields.

(** ** The sequence-diagram components: layout *)

Module LayoutFacts.
Import JS Renderer Layout.

Local Open Scope Z_scope.

#[local] Arguments renderTrackMessage : simpl never.
#[local] Arguments renderBlock : simpl never.
#[local] Arguments renderMessage : simpl never.

(** *** The participants *)

Lemma renderParticipantsFrom_layout participants : forall index acc,
  let r := renderParticipantsFrom index participants acc in
  r.1 = acc.1
        ++ imap (fun i p =>
                   ActorCell p (Z.of_nat (index + i) * 150 + 50) 50)
                participants /\
  forall p l,
    r.2 !! p = Some l <->
    (exists i,
       participants !! i = Some p /\
       (forall j, (i < j)%nat -> participants !! j <> Some p) /\
       l = mkLifeline (index + i) (Z.of_nat (index + i) * 150 + 100)) \/
    ((p ∉ participants) /\ acc.2 !! p = Some l).
Proof.
  induction participants as [|p0 ps IH]; intros index acc; simpl.
  - split; [by rewrite app_nil_r|]. intros p l. split.
    + intros H. right. split; [apply not_elem_of_nil|done].
    + intros [(i & Hi & _)|[_ H]]; [by rewrite lookup_nil in Hi|done].
  - destruct (IH (S index) (addParticipant acc index p0)) as [Hc Hl].
    split.
    + rewrite Hc. simpl. rewrite <- app_assoc. simpl. f_equal. f_equal.
      * f_equal. unfold actorSpacing, actorWidth.
        replace (index + 0)%nat with index by lia.
        change (100 / 2) with 50. ring.
      * apply imap_ext. intros i p _. cbv beta.
        unfold compose. by rewrite Nat.add_succ_r.
    + intros p l. rewrite Hl. simpl. split.
      * intros [(i & Hi & Hlast & ->)|[Hnot Hins]].
        -- left. exists (S i). split; [done|]. split.
           ++ intros [|j] Hj; [lia|]. simpl. apply Hlast. lia.
           ++ by rewrite Nat.add_succ_r.
        -- destruct (decide (p0 = p)) as [->|Hne].
           ++ rewrite lookup_insert_eq in Hins. injection Hins as <-.
              left. exists 0%nat. split; [done|]. split.
              ** intros [|j] Hj; [lia|]. simpl. intros Hp.
                 apply Hnot. by eapply list_elem_of_lookup_2.
              ** replace (index + 0)%nat with index by lia.
                 unfold actorSpacing. done.
           ++ rewrite lookup_insert_ne in Hins by done. right.
              split; [|done]. rewrite not_elem_of_cons. split; [congruence|done].
      * intros [(i & Hi & Hlast & ->)|[Hnot Hacc]].
        -- destruct i as [|i].
           ++ simpl in Hi. injection Hi as ->. right. split.
              ** intros Hin. apply list_elem_of_lookup_1 in Hin as [j Hj].
                 apply (Hlast (S j)); [lia|done].
              ** rewrite lookup_insert_eq.
                 replace (index + 0)%nat with index by lia.
                 unfold actorSpacing. done.
           ++ left. exists i. split; [done|]. split.
              ** intros j Hj. apply (Hlast (S j)). lia.
              ** by rewrite Nat.add_succ_r.
        -- apply not_elem_of_cons in Hnot as [Hne Hnot]. right.
           split; [done|]. by rewrite lookup_insert_ne.
Qed.

(** X6. The loop over the participants draws one actor for each entry
    of [data.participants], in order, the i-th with its left edge at
    x = 150 i + 50 and at y = 50. Where a component looks for the
    lifeline of a name, it finds for a participant the lifeline at
    x = 150 i + 100 of the last index i at which the name occurs (a
    participant that is listed twice is drawn twice and receives its
    messages at the later place); for a name that is no participant it
    finds nothing, unless the name is a property name of
    [Object.prototype] or, with [__proto__] among the participants, one
    of [actor] and [x]: then it finds a value that is truthy and has no
    x. *)
Theorem renderParticipants_layout (participants : list jsstring) :
  let lifelines := (renderParticipants participants).2 in
  (renderParticipants participants).1
  = imap (fun i p => ActorCell p (150 * Z.of_nat i + 50) 50) participants /\
  (forall name i,
     participants !! i = Some name ->
     (forall j, (i < j)%nat -> participants !! j <> Some name) ->
     lifelines !! name = Some (mkLifeline i (150 * Z.of_nat i + 100)) /\
     lifelineX lifelines name = Some (Some (150 * Z.of_nat i + 100))) /\
  (forall name,
     name ∉ participants ->
     lifelines !! name = None /\
     lifelineX lifelines name
     = if inObjectPrototype name
          || bool_decide (lit "__proto__" ∈ participants)
             && bool_decide (name ∈ lifelineFields)
       then Some None else None).
Proof.
  destruct (renderParticipantsFrom_layout participants 0 ([], ∅)) as [Hc Hl].
  assert (Hlook : forall p l,
    (renderParticipants participants).2 !! p = Some l <->
    exists i,
      participants !! i = Some p /\
      (forall j, (i < j)%nat -> participants !! j <> Some p) /\
      l = mkLifeline i (150 * Z.of_nat i + 100)).
  { intros p l. unfold renderParticipants. rewrite Hl. simpl. split.
    - intros [(i & Hi & Hlast & ->)|[_ H]]; [|by rewrite lookup_empty in H].
      exists i. split; [done|]. split; [done|]. f_equal. lia.
    - intros (i & Hi & Hlast & ->). left. exists i.
      split; [done|]. split; [done|]. f_equal. lia. }
  assert (Hnone : forall name,
    name ∉ participants -> (renderParticipants participants).2 !! name = None).
  { intros name Hnot. apply eq_None_not_Some.
    by rewrite RendererFacts.renderParticipants_lookup. }
  cbv zeta. split; [|split].
  - unfold renderParticipants. rewrite Hc. simpl. apply imap_ext.
    intros i p _. simpl. f_equal. lia.
  - intros name i Hi Hlast.
    assert (H : (renderParticipants participants).2 !! name
                = Some (mkLifeline i (150 * Z.of_nat i + 100)))
      by (apply Hlook; eauto).
    split; [done|]. by rewrite (RendererFacts.lifelineX_own _ _ _ H).
  - intros name Hnot. split; [by apply Hnone|].
    unfold lifelineX, getProp. rewrite (Hnone name Hnot).
    destruct ((renderParticipants participants).2 !! lit "__proto__")
      as [prototype|] eqn:Ep.
    + assert (Hin : lit "__proto__" ∈ participants)
        by (apply RendererFacts.renderParticipants_lookup; eauto).
      rewrite (bool_decide_eq_true_2 _ Hin). simpl.
      apply Hlook in Ep as (i & _ & _ & ->). simpl.
      destruct (bool_decide (name ∈ lifelineFields)) eqn:Ef.
      * rewrite orb_true_r. destruct (decide (name = lit "x")); [|done].
        simpl. destruct (decide (150 * Z.of_nat i + 100 = 0)); [lia|done].
      * rewrite orb_false_r. by destruct (inObjectPrototype name).
    + assert (Hnin : lit "__proto__" ∉ participants).
      { intros Hin. apply RendererFacts.renderParticipants_lookup in Hin
          as [? Hin]. congruence. }
      rewrite (bool_decide_eq_false_2 _ Hnin). simpl. rewrite orb_false_r.
      by destruct (inObjectPrototype name).
Qed.

(** *** The blocks of ConditionalSequenceDiagram *)

Section Blocks.
Variable lifelines : gmap jsstring lifeline.




End Blocks.




(** *** The regions and the tracks of AsyncSequenceDiagram *)

Lemma stacked_mono regions : forall lo hi hi',
  stacked lo regions hi -> hi <= hi' -> stacked lo regions hi'.
Proof.
  induction regions as [|r rs IH]; intros lo hi hi'; simpl; [lia|].
  intros (H1 & H2 & H3 & H4) Hle. repeat split; try done. by eapply IH.
Qed.

Lemma stacked_le regions : forall lo hi, stacked lo regions hi -> lo <= hi.
Proof.
  induction regions as [|r rs IH]; intros lo hi; simpl; [lia|].
  intros (H1 & H2 & H3 & H4). apply IH in H4. unfold messageHeight in *. lia.
Qed.

Lemma stacked_snoc regions r : forall lo hi,
  stacked lo regions hi -> hi <= startY r ->
  startY r + messageHeight <= endY r -> name r <> [] ->
  stacked lo (regions ++ [r]) (endY r).
Proof.
  induction regions as [|r' rs IH]; intros lo hi; simpl.
  - intros Hle Hs Hh Hn. repeat split; try done; lia.
  - intros (H1 & H2 & H3 & H4) Hs Hh Hn. repeat split; try done.
    by eapply IH.
Qed.

Lemma truthy_nonempty (s : jsstring) : truthy s = true -> s <> [].
Proof. by destruct s. Qed.

Lemma onRows_mono y rows rows' r :
  (rows <= rows')%nat -> onRows y rows r -> onRows y rows' r.
Proof.
  intros Hle (first & last & Hr & Hs & He). exists first, last.
  split; [lia|done].
Qed.

Lemma rowsFrom_S y rows :
  rowsFrom y (S rows) = rowsFrom y rows ++ [y + messageHeight * Z.of_nat rows].
Proof. unfold rowsFrom. by rewrite seq_S, map_app. Qed.

(** The state after a drawn message that closes the region from the row
    [first], and after one that closes none. *)
Lemma invariant_closed y rows st link first bound region regionStart start :
  trackInvariant y rows st ->
  linkRows [link] = [trackY st] ->
  stacked y (regions st) bound ->
  regionStart = y + messageHeight * Z.of_nat first ->
  bound <= regionStart -> (first <= rows)%nat -> region <> [] ->
  trackInvariant y (S rows)
    (mkTrackState (links st ++ [link]) (trackY st + messageHeight) start []
       (regions st
        ++ [mkRegion regionStart (trackY st + messageHeight) region])).
Proof.
  intros (Hy & Hrows & Hon & _) Hlink Hstack -> Hb Hfirst Hname.
  split; [simpl; unfold messageHeight in *; lia|].
  split; [simpl; by rewrite RendererFacts.linkRows_app, Hrows, rowsFrom_S,
            Hlink, Hy|].
  split.
  - simpl. apply Forall_app. split.
    + eapply Forall_impl; [exact Hon|]. intros r. apply onRows_mono. lia.
    + constructor; [|done]. exists first, rows. simpl.
      split; [lia|]. split; [done|]. by rewrite Hy.
  - exists (trackY st + messageHeight). simpl. split; [|lia].
    apply (stacked_snoc _ (mkRegion _ _ _) _ bound); simpl; try done.
    unfold messageHeight in *. lia.
Qed.

Lemma invariant_open y rows st link bound region regionStart :
  trackInvariant y rows st ->
  linkRows [link] = [trackY st] ->
  stacked y (regions st) bound -> bound <= trackY st ->
  (truthy region = true ->
   bound <= regionStart /\
   exists first,
     (first <= rows)%nat /\ regionStart = y + messageHeight * Z.of_nat first) ->
  trackInvariant y (S rows)
    (mkTrackState (links st ++ [link]) (trackY st + messageHeight)
       regionStart region (regions st)).
Proof.
  intros (Hy & Hrows & Hon & _) Hlink Hstack Hbound Hb.
  split; [simpl; unfold messageHeight in *; lia|].
  split; [simpl; by rewrite RendererFacts.linkRows_app, Hrows, rowsFrom_S,
            Hlink, Hy|].
  split.
  - simpl. eapply Forall_impl; [exact Hon|]. intros r. apply onRows_mono. lia.
  - exists bound. simpl. split; [done|].
    destruct (truthy region).
    + destruct (Hb eq_refl) as (Hb' & first & Hf & ->).
      split; [done|]. exists first. split; [lia|done].
    + unfold messageHeight in *. lia.
Qed.

Lemma renderTrackMessage_invariant lifelines y rows st message st' :
  renderTrackMessage lifelines st (Some message) = Some st' ->
  trackInvariant y rows st ->
  trackInvariant y rows st' \/ trackInvariant y (S rows) st'.
Proof.
  unfold renderTrackMessage.
  destruct (lifelineX lifelines (from message)) as [f|];
    [|intros [= <-]; by left].
  destruct (lifelineX lifelines (to message)) as [t|];
    [|intros [= <-]; by left].
  intros Hst Hinv. right.
  pose proof Hinv as (Hy & Hrows & Hon & bound & Hstack & Hopen).
  pose proof (stacked_le _ _ _ Hstack) as Hle.
  assert (Hb : bound <= trackY st).
  { destruct (truthy (currentRegion st)); [|done].
    destruct Hopen as (? & first & ? & ?). unfold messageHeight in *. lia. }
  destruct (isSet (creates_track message)) eqn:Hc.
  - apply RendererFacts.isSet_truthy in Hc. rewrite Hc in Hst.
    destruct (isSet (returns_to_track message)); simpl in Hst;
      injection Hst as <-.
    + eapply (invariant_closed y rows st _ rows bound); try done.
      by apply truthy_nonempty.
    + eapply (invariant_open y rows st _ bound); try done.
      intros _. split; [done|]. by exists rows.
  - destruct (truthy (currentRegion st)) eqn:Ht.
    + destruct Hopen as (Hbs & first & Hf & Hs).
      destruct (isSet (returns_to_track message)); simpl in Hst;
        injection Hst as <-.
      * eapply (invariant_closed y rows st _ first bound); try done; [lia|].
        by apply truthy_nonempty.
      * eapply (invariant_open y rows st _ bound); try done.
        intros _. split; [done|]. exists first. split; [lia|done].
    + rewrite andb_false_r in Hst. injection Hst as <-.
      eapply (invariant_open y rows st _ bound); try done.
      intros Ht'. congruence.
Qed.

Lemma forEachMessage_invariant lifelines y messages : forall rows st st',
  forEachMessage lifelines st messages = Some st' ->
  trackInvariant y rows st ->
  exists rows',
    (rows <= rows' <= rows + length messages)%nat /\ trackInvariant y rows' st'.
Proof.
  induction messages as [|m ms IH]; intros rows st st'; simpl.
  - intros [= <-] Hinv. exists rows. split; [lia|done].
  - destruct m as [m|]; [|done].
    destruct (renderTrackMessage lifelines st (Some m)) as [st1|] eqn:Hst;
      [|done].
    intros Hloop Hinv.
    destruct (renderTrackMessage_invariant _ _ _ _ _ _ Hst Hinv) as [H1|H1];
      destruct (IH _ _ _ Hloop H1) as (rows' & Hr & Hinv');
      exists rows'; (split; [lia|done]).
Qed.

Lemma regionCells_no_links toUpperCase participants regions :
  linkRows (map (regionCell toUpperCase participants) regions) = [].
Proof. by induction regions. Qed.

Lemma renderTrack_stacked toUpperCase participants lifelines y messages
    cells regions :
  renderTrack toUpperCase participants lifelines y messages
  = Some (cells, regions) ->
  exists rows,
    (rows <= length messages)%nat /\
    linkRows cells = rowsFrom y rows /\
    stacked y regions (y + messageHeight * Z.of_nat rows) /\
    Forall (onRows y rows) regions.
Proof.
  unfold renderTrack.
  destruct (forEachMessage lifelines (mkTrackState [] y 0 [] []) messages)
    as [st|] eqn:Hloop; [|done].
  intros [= <- <-].
  destruct (forEachMessage_invariant lifelines y messages 0 _ _ Hloop)
    as (rows & Hr & Hy & Hrows & Hon & bound & Hstack & Hopen).
  { split; [simpl; unfold messageHeight; lia|]. split; [done|].
    split; [constructor|]. exists y. simpl. lia. }
  exists rows. split; [lia|].
  split; [by rewrite RendererFacts.linkRows_app, regionCells_no_links,
            app_nil_r|].
  unfold closeRegion. destruct (truthy (currentRegion st)) eqn:Ht.
  - destruct Hopen as (Hb & first & Hf & Hs). split.
    + rewrite <- Hy.
      apply (stacked_snoc _ (mkRegion _ _ _) _ bound); simpl; try done.
      * unfold messageHeight in *. lia.
      * by apply truthy_nonempty.
    + apply Forall_app. split; [done|]. constructor; [|done].
      exists first, (rows - 1)%nat. simpl. split; [lia|]. split; [done|].
      rewrite Hy. unfold messageHeight. lia.
  - split; [|done]. rewrite <- Hy. by eapply stacked_mono.
Qed.

(** X8. Whatever the messages of a track are, the regions that the
    loop leaves for it do not overlap: they follow each other from the y
    of the track downwards, each spans the rows from one drawn message
    to a later or the same one, and each has a name that is not empty.
    The links of the track are on consecutive rows from its y, at most
    one for each message. *)
Theorem track_regions_stacked (toUpperCase : jsstring -> jsstring)
    (participants : list jsstring) (lifelines : gmap jsstring lifeline)
    (y : Z) (messages : list (option Message))
    (cells : list cell) (regions : list region) :
  renderTrack toUpperCase participants lifelines y messages
  = Some (cells, regions) ->
  exists rows,
    (rows <= length messages)%nat /\
    linkRows cells = rowsFrom y rows /\
    stacked y regions (y + messageHeight * Z.of_nat rows) /\
    Forall (onRows y rows) regions.
Proof. apply renderTrack_stacked. Qed.

Lemma track_regions_stacked_witness :
  exists rows,
    (rows <= 4)%nat /\
    stacked 100 [mkRegion 150 250 (lit "task_2")] (100 + messageHeight * Z.of_nat rows).
Proof.
  destruct (track_regions_stacked asciiUpper [lit "A"; lit "B"]
              DiagramSamples.sampleLifelines 100
              (map Some DiagramSamples.nestedSpawns)
              _ _ eq_refl) as (rows & Hr & _ & Hs & _).
  exists rows. split; [exact Hr|exact Hs].
Defined.





Lemma renderTracks_stacked toUpperCase participants lifelines executionTracks :
  forall nextY tracks,
    renderTracks toUpperCase participants lifelines
      (placeTracks nextY executionTracks) = Some tracks ->
    tracksStacked nextY tracks /\ length tracks = length executionTracks.
Proof.
  induction executionTracks as [|[trackName trackMessages] ets IH];
    intros nextY tracks; simpl.
  - by intros [= <-].
  - destruct (renderTrack toUpperCase participants lifelines nextY trackMessages)
      as [[cells regions]|] eqn:Ht; [|done].
    destruct (renderTracks _ _ _ _) as [rest|] eqn:Hrest; [|done].
    intros [= <-]. apply IH in Hrest as [Hrest Hlen].
    split; [|simpl; by rewrite Hlen].
    apply renderTrack_stacked in Ht as (rows & Hr & Hrows & Hs & _).
    simpl. exists (nextY + Z.of_nat (length trackMessages) * messageHeight).
    split; [|split].
    + unfold inRows. rewrite Hrows. unfold rowsFrom.
      apply Forall_fmap, Forall_forall. intros i Hi. simpl.
      apply elem_of_seq in Hi. unfold messageHeight. lia.
    + eapply stacked_mono; [exact Hs|]. unfold messageHeight. lia.
    + by rewrite <- Z.add_assoc.
Qed.

Lemma assign_keys {A} key (v : A) o :
  map fst (assign key v o)
  = if bool_decide (key ∈ map fst o) then map fst o else map fst o ++ [key].
Proof.
  induction o as [|[k v0] o IH]; simpl; [done|].
  destruct (decide (k = key)) as [->|Hne]; simpl.
  - rewrite bool_decide_eq_true_2; [done|]. by left.
  - rewrite IH. destruct (bool_decide (key ∈ map fst o)) eqn:E.
    + apply bool_decide_eq_true in E.
      rewrite bool_decide_eq_true_2; [done|]. by right.
    + apply bool_decide_eq_false in E.
      rewrite bool_decide_eq_false_2; [done|].
      rewrite elem_of_cons. intros [?|?]; [congruence|done].
Qed.

(** X10. When the asynchronous diagram is drawn without an exception, its
    tracks lie below each other without overlap: the first starts at
    y = 100; the links of a track are on rows of its own, within the
    space of one row for each of its indices; its regions are stacked
    within that space; and the next track starts 20 below it. The main
    track comes first, so there is at least one track. *)
Theorem renderAsync_tracks_stacked (toUpperCase : jsstring -> jsstring)
    (participants : list jsstring) (messages : list Message)
    (execution_tracks : list (jsstring * list nat))
    (actors : list cell) (tracks : list (list cell * list region)) :
  renderAsync toUpperCase participants messages execution_tracks
  = Some (actors, tracks) ->
  tracksStacked (actorY + 50) tracks /\
  length tracks = length (groupTracks messages execution_tracks) /\
  (0 < length tracks)%nat.
Proof.
  unfold renderAsync.
  destruct (renderParticipants participants) as [actors0 lifelines].
  destruct (renderTracks _ _ _ _) as [tracks0|] eqn:Ht; [|done].
  destruct (inheritedTracks messages execution_tracks); [|done].
  intros [= <- <-]. apply renderTracks_stacked in Ht as [Hs Hlen].
  split; [done|]. split; [done|]. rewrite Hlen.
  assert (Hmain : forall l o, (0 < length o)%nat ->
    (0 < length (foldl (fun executionTracks (track : jsstring * list nat) =>
         if decide (track.1 = lit "__proto__") then executionTracks
         else assign track.1 (trackMessages messages track.2) executionTracks)
       o l))%nat).
  { induction l as [|t l IH]; intros o Ho; [done|]. simpl. apply IH.
    destruct (decide (t.1 = lit "__proto__")); [done|].
    rewrite <- (length_map fst), assign_keys.
    destruct (bool_decide _); rewrite ?length_app, length_map; lia. }
  apply Hmain. simpl. lia.
Qed.

Lemma renderAsync_tracks_stacked_witness :
  exists actors tracks,
    renderAsync asciiUpper DiagramSamples.twoActors DiagramSamples.nestedSpawns
      [(lit "task_1", [1; 2]%nat); (lit "main", [0; 3]%nat)]
    = Some (actors, tracks) /\
    tracksStacked 100 tracks.
Proof.
  pose proof (renderAsync_tracks_stacked asciiUpper DiagramSamples.twoActors
                DiagramSamples.nestedSpawns
                [(lit "task_1", [1; 2]%nat); (lit "main", [0; 3]%nat)]) as H.
  destruct (renderAsync _ _ _ _) as [[actors tracks]|] eqn:E;
    [|by vm_compute in E].
  exists actors, tracks. split; [done|]. by apply (H actors tracks).
Defined.

Example renderAsync_sample :
  option_map (fun drawn => map (fun track => (linkRows track.1, track.2)) drawn.2)
    (renderAsync asciiUpper DiagramSamples.twoActors DiagramSamples.nestedSpawns
       [(lit "task_1", [1; 2]%nat); (lit "main", [0; 3]%nat)])
  = Some [ ([100; 150], [mkRegion 100 200 (lit "task_1")]);
           ([220; 270], [mkRegion 220 320 (lit "task_2")]) ].
Proof. by vm_compute. Qed.

(** A track named [__proto__] is not drawn, and the loop over the tracks
    throws after the others unless tracks named [y], [messages] and
    [regions] hide its fields. *)
Example renderAsync_proto_track :
  renderAsync asciiUpper DiagramSamples.twoActors DiagramSamples.nestedSpawns
    [(lit "main", [0; 3]%nat); (lit "__proto__", [1; 2]%nat)] = None /\
  option_map (fun drawn => length drawn.2)
    (renderAsync asciiUpper DiagramSamples.twoActors DiagramSamples.nestedSpawns
       [(lit "main", [0; 3]%nat); (lit "__proto__", [1; 2]%nat);
        (lit "y", []); (lit "messages", []); (lit "regions", [])])
  = Some 4%nat.
Proof. by vm_compute. Qed.

End LayoutFacts.
(** ** The track context of the Interaction Model Assembler *)

Module TracksFacts.
Import JS Renderer Layout Tracks.

#[local] Arguments renderTrackMessage : simpl never.
#[local] Arguments lit : simpl never.
#[local] Arguments trackName : simpl never.

(** *** The message ids of a track *)











(** *** What a step keeps *)






















(** *** The names of the tracks *)







Section Grouping.
Variables (messages : list Message) (ids : nat -> list nat).




End Grouping.


(** *** The assembled diagram *)





Section Diagram.
Variable toUpperCase : jsstring -> jsstring.





End Diagram.

(** The scenario of the specification: two tracks, and the region of the
    spawned track from the spawning message to the awaiting message. *)
Example spawnThenAwait_drawn :
  let st := assemble spawnThenAwait in
  execution_tracks st
  = [(lit "main", [0; 2]); (lit "task_1", [1])] /\
  regions st = [mkTrackRegion 1 0 2 true] /\
  option_map (fun drawn => map (fun track => (linkRows track.1, track.2)) drawn.2)
    (renderAsync asciiUpper (registry st) (emitted st) (execution_tracks st))
  = Some [ ([100; 150]%Z, [mkRegion 100 200 (lit "task_1")]);
           ([220]%Z, []) ].
Proof. by vm_compute. Qed.

(** A spawn inside a spawn: each region is on the track of its spawning
    message. *)
Example nestedTasks_drawn :
  let st := assemble nestedTasks in
  execution_tracks st
  = [(lit "main", [0; 4]); (lit "task_1", [1; 3]); (lit "task_2", [2])] /\
  regions st = [mkTrackRegion 2 1 3 true; mkTrackRegion 1 0 4 true] /\
  option_map (fun drawn => map (fun track => (linkRows track.1, track.2)) drawn.2)
    (renderAsync asciiUpper (registry st) (emitted st) (execution_tracks st))
  = Some [ ([100; 150]%Z, [mkRegion 100 200 (lit "task_1")]);
           ([220; 270]%Z, [mkRegion 220 320 (lit "task_2")]);
           ([340]%Z, []) ].
Proof. by vm_compute. Qed.


End TracksFacts.

(** ** The file icon and its callers *)

Module IconsFacts.
Import JS StructureService TreeSearch Icons TreeSearchView.

Section View.
Variable toLowerCase : jsstring -> jsstring.

Lemma FileIcon_without_extension (props : gmap string jsstring) :
  props !! "extension"%string = None ->
  FileIcon toLowerCase props = Rejected undefinedToLowerCase.
Proof. intros H. unfold FileIcon. by rewrite H. Qed.

Lemma resultEntry_file node :
  isDirectory node = false ->
  resultEntry toLowerCase node = Rejected undefinedToLowerCase.
Proof.
  intros H. unfold resultEntry. rewrite H.
  by rewrite FileIcon_without_extension.
Qed.

Lemma resultEntry_directory node :
  isDirectory node = true ->
  resultEntry toLowerCase node
  = Resolved (mkResultRow (FolderIcon None None) (name node) (path node)).
Proof. intros H. unfold resultEntry. by rewrite H. Qed.

Lemma resultEntries_spec nodes :
  (Forall (fun node => isDirectory node = true) nodes /\
   resultEntries toLowerCase nodes
   = Resolved (map (fun node => mkResultRow (FolderIcon None None)
                                  (name node) (path node)) nodes)) \/
  ((exists node, node ∈ nodes /\ isDirectory node = false) /\
   resultEntries toLowerCase nodes = Rejected undefinedToLowerCase).
Proof.
  induction nodes as [|node nodes IH]; simpl; [by left|].
  destruct (isDirectory node) eqn:Hd.
  - rewrite (resultEntry_directory node Hd).
    destruct IH as [[Hall ->]|[(file & Hin & Hf) ->]].
    + left. split; [by constructor|done].
    + right. split; [|done]. exists file. split; [by right|done].
  - rewrite (resultEntry_file node Hd). right. split; [|done].
    exists node. split; [by left|done].
Qed.

(** X11. The list of search results cannot be shown once a result is a
    file: [TreeSearch] gives [FileIcon] the property [filename], and
    [FileIcon] reads [extension], which is then [undefined], so that
    [ext.toLowerCase()] throws. The part of the component below the
    input throws this [TypeError] exactly when the term is not blank,
    no search is running and one of the results is not a directory; in
    every other state it is shown, and a list that is shown has one
    entry for each result, in order, all of them directories. *)
Theorem resultsView_throws_iff (st : state) :
  (forall e,
     resultsView toLowerCase st = Rejected e <->
     e = undefinedToLowerCase /\ trim (searchTerm st) <> [] /\
     isSearching st = false /\
     exists node, node ∈ searchResults st /\ isDirectory node = false) /\
  (forall rows,
     resultsView toLowerCase st = Resolved (Results rows) ->
     map rowName rows = map name (searchResults st) /\
     map rowPath rows = map path (searchResults st) /\
     Forall (fun node => isDirectory node = true) (searchResults st)).
Proof.
  unfold resultsView.
  destruct (decide (trim (searchTerm st) <> [])) as [Hterm|Hterm].
  2: { rewrite bool_decide_eq_false_2 by done. split; [|done].
       intros e. split; [done|]. by intros (_ & ? & _). }
  rewrite bool_decide_eq_true_2 by done.
  destruct (isSearching st) eqn:Hs.
  { split; [|done]. intros e. split; [done|]. by intros (_ & _ & ? & _). }
  destruct (resultEntries_spec (searchResults st))
    as [[Hall Hr]|[(file & Hin & Hf) Hr]].
  - destruct (0 <? length (searchResults st))%nat.
    + rewrite Hr. split.
      * intros e. split; [done|]. intros (_ & _ & _ & node & Hin & Hf).
        rewrite Forall_forall in Hall. apply Hall in Hin. congruence.
      * intros rows [= <-]. rewrite !map_map. simpl. done.
    + split; [|done]. intros e. split; [done|].
      intros (_ & _ & _ & node & Hin & Hf).
      rewrite Forall_forall in Hall. apply Hall in Hin. congruence.
  - assert (Hlen : (0 <? length (searchResults st))%nat = true).
    { apply Nat.ltb_lt. destruct (searchResults st); [|simpl; lia].
      by apply elem_of_nil in Hin. }
    rewrite Hlen, Hr. split; [|done].
    intros e. split.
    + intros [= <-]. repeat split; try done. by exists file.
    + by intros (-> & _).
Qed.

End View.

(** The search for "src" among the nodes of [TreeSearch.test.tsx] finds
    files, and the list of its results throws; the search for "util"
    finds a directory and a file in it, and throws as well; the search
    for "components" with the files left out shows two entries. *)
Example search_src_throws :
  resultsView asciiLower
    (performSearch asciiLower mockNodes (mkState (lit "src") [] false))
  = Rejected undefinedToLowerCase.
Proof. by vm_compute. Qed.

End IconsFacts.

(** ** The tree view *)

Module TreeViewFacts.
Import JS StructureService Icons TreeView.

#[local] Arguments lit : simpl never.

Lemma TreeNode_children_ind (P : TreeNode -> Prop) :
  (forall n, Forall P (default [] (children n)) -> P n) -> forall n, P n.
Proof.
  intros H. fix IH 1. intros [i n t p c e s]. apply H. simpl.
  destruct c as [l|]; [|constructor].
  induction l as [|c l IHl]; constructor; [apply IH|exact IHl].
Qed.

Lemma traverse_children node nodes :
  traverse node nodes
  = fold_left (fun nodes child => traverse child nodes)
      (default [] (children node)) (nodes ++ [searchNode node]).
Proof. destruct node as [i n t p [l|] e s]; done. Qed.

Lemma fold_traverse (l : list TreeNode) :
  Forall (fun c => forall nodes, traverse c nodes = nodes ++ flattenedNodes c) l ->
  forall nodes,
    fold_left (fun nodes child => traverse child nodes) l nodes
    = nodes ++ flat_map flattenedNodes l.
Proof.
  induction 1 as [|c l Hc _ IH]; intros nodes; simpl.
  - by rewrite app_nil_r.
  - by rewrite Hc, IH, <- app_assoc.
Qed.

Lemma traverse_appends node :
  forall nodes, traverse node nodes = nodes ++ flattenedNodes node.
Proof.
  induction node as [node IH] using TreeNode_children_ind. intros nodes.
  unfold flattenedNodes. rewrite !traverse_children, !(fold_traverse _ IH).
  by rewrite <- app_assoc.
Qed.

Lemma flattenedNodes_children node :
  flattenedNodes node
  = searchNode node :: flat_map flattenedNodes (default [] (children node)).
Proof.
  unfold flattenedNodes at 1. rewrite traverse_children.
  rewrite fold_traverse; [done|].
  apply Forall_forall. intros c _. apply traverse_appends.
Qed.

(** X12. [flattenedNodes] lists the tree in depth-first pre-order: the
    entry of a node, whose [isDirectory] tells whether its [type] is
    ['directory'], followed by the lists of its children in order, the
    children of a node that is no directory included. [traverse] only
    appends to the array that it fills. *)
Theorem flattenedNodes_preorder (node : TreeNode)
    (nodes : list TreeSearch.TreeNode) :
  traverse node nodes = nodes ++ flattenedNodes node /\
  flattenedNodes node
  = TreeSearch.mkTreeNode (id node) (name node) (path node)
      (bool_decide (type node = lit "directory"))
    :: flat_map flattenedNodes (default [] (children node)).
Proof.
  split; [apply traverse_appends|apply flattenedNodes_children].
Qed.

Section FileTreeNode.
Variable toLowerCase : jsstring -> jsstring.

Abbreviation FileTreeNode := (FileTreeNode toLowerCase).
Abbreviation childRows := (childRows toLowerCase).

Lemma FileTreeNode_file node depth isSelected isExpanded :
  type node <> lit "directory" ->
  FileTreeNode node depth isSelected isExpanded = Rejected undefinedToLowerCase.
Proof.
  destruct node as [i n t p c e s]. simpl. intros Ht.
  rewrite bool_decide_eq_false_2 by done. simpl.
  by rewrite IconsFacts.FileIcon_without_extension.
Qed.

Lemma FileTreeNode_directory node depth isSelected isExpanded :
  type node = lit "directory" ->
  FileTreeNode node depth isSelected isExpanded
  = let nodeChildren := default [] (children node) in
    let hasChildren := negb (bool_decide (nodeChildren = [])) in
    let nodeIsExpanded :=
      match isExpanded with
      | Some isExpanded => isExpanded
      | None => Flag (depth <? 2)
      end in
    let nodeRow :=
      mkRow (id node) depth isSelected
        (if hasChildren then Some nodeIsExpanded else None)
        (folder (isTruthy nodeIsExpanded)) in
    if hasChildren && isTruthy nodeIsExpanded then
      match childRows (id node) depth isSelected isExpanded nodeChildren with
      | Rejected e => Rejected e
      | Resolved rows => Resolved (nodeRow :: rows)
      end
    else Resolved [nodeRow].
Proof.
  destruct node as [i n t p c e s]. simpl. intros ->.
  rewrite bool_decide_eq_true_2 by done. simpl.
  destruct c as [l|]; [|done]. simpl.
  match goal with
  | |- context [ match ?each l with Resolved _ => _ | Rejected _ => _ end ] =>
      assert (Heach : forall l', each l'
                = childRows i depth isSelected isExpanded l')
  end.
  { induction l' as [|c' l' IH]; [done|]. simpl. by rewrite IH. }
  rewrite Heach. by destruct l.
Qed.

Lemma allDirectories_children node :
  allDirectories node <->
  type node = lit "directory" /\
  Forall allDirectories (default [] (children node)).
Proof.
  unfold allDirectories. rewrite flattenedNodes_children, Forall_cons. simpl.
  rewrite bool_decide_eq_true. apply and_iff_compat_l.
  induction (default [] (children node)) as [|c l IH]; simpl.
  - split; constructor.
  - rewrite Forall_app, Forall_cons, IH. done.
Qed.

Lemma childRows_expanded nodeId depth isSelected (l : list TreeNode) :
  Forall (fun c => forall depth isSelected,
            allDirectories c ->
            exists rows,
              FileTreeNode c depth isSelected (Some (Flag true)) = Resolved rows /\
              map rowId rows = map TreeSearch.id (flattenedNodes c)) l ->
  Forall allDirectories l ->
  exists rows,
    childRows nodeId depth isSelected (Some (Flag true)) l = Resolved rows /\
    map rowId rows = map TreeSearch.id (flat_map flattenedNodes l).
Proof.
  induction 1 as [|c l Hc _ IH]; intros Hall; simpl; [by exists []|].
  apply Forall_cons in Hall as [Hdir Hall].
  pose proof Hdir as Hd. apply allDirectories_children in Hd as [Ht _].
  rewrite (bool_decide_eq_true_2 (type c = lit "directory")) by done.
  destruct (Hc (S depth) (isSelected && bool_decide (id c = nodeId)) Hdir)
    as (rows & -> & Hrows).
  destruct (IH Hall) as (rows' & -> & Hrows').
  exists (rows ++ rows'). split; [done|].
  by rewrite !map_app, Hrows, Hrows'.
Qed.

Lemma FileTreeNode_expanded node : forall depth isSelected,
  allDirectories node ->
  exists rows,
    FileTreeNode node depth isSelected (Some (Flag true)) = Resolved rows /\
    map rowId rows = map TreeSearch.id (flattenedNodes node).
Proof.
  induction node as [node IH] using TreeNode_children_ind.
  intros depth isSelected Hall.
  apply allDirectories_children in Hall as [Ht Hall].
  rewrite (FileTreeNode_directory node depth isSelected (Some (Flag true)) Ht).
  rewrite flattenedNodes_children. cbv zeta.
  destruct (childRows_expanded (id node) depth isSelected _ IH Hall)
    as (rows & Hrows & Hids).
  rewrite Hrows. destruct (default [] (children node)) as [|c l].
  - eexists. split; [done|]. done.
  - eexists. split; [done|]. cbn [map]. by rewrite Hids.
Qed.

Lemma childRows_resolved nodeId depth isSelected (l : list TreeNode) :
  Forall (fun c => forall depth isSelected rows,
            FileTreeNode c depth isSelected (Some (Flag true)) = Resolved rows ->
            allDirectories c) l ->
  forall rows,
    childRows nodeId depth isSelected (Some (Flag true)) l = Resolved rows ->
    Forall allDirectories l.
Proof.
  induction 1 as [|c l Hc _ IH]; intros rows; simpl; [constructor|].
  destruct (decide (type c = lit "directory")) as [Ht|Ht].
  - rewrite (bool_decide_eq_true_2 (type c = lit "directory")) by done.
    destruct (FileTreeNode c _ _ _) as [rows1|] eqn:H1; [|done].
    destruct (childRows _ _ _ _ l) as [rows2|] eqn:H2; [|done].
    intros _. constructor; [by eapply Hc|by eapply IH].
  - by rewrite FileTreeNode_file.
Qed.

Lemma FileTreeNode_resolved node : forall depth isSelected rows,
  FileTreeNode node depth isSelected (Some (Flag true)) = Resolved rows ->
  allDirectories node.
Proof.
  induction node as [node IH] using TreeNode_children_ind.
  intros depth isSelected rows.
  destruct (decide (type node = lit "directory")) as [Ht|Ht];
    [|by rewrite FileTreeNode_file].
  rewrite (FileTreeNode_directory node depth isSelected (Some (Flag true)) Ht).
  cbv zeta. intros Hrows. apply allDirectories_children. split; [done|].
  destruct (default [] (children node)) as [|c l]; [constructor|].
  rewrite bool_decide_eq_false_2 in Hrows by done. cbn [negb andb] in Hrows.
  destruct (childRows (id node) depth isSelected (Some (Flag true)) (c :: l))
    as [rows'|] eqn:H'; [|done].
  by apply (childRows_resolved _ _ _ _ IH) in H'.
Qed.

Lemma childRows_error nodeId depth isSelected isExpanded (l : list TreeNode) :
  Forall (fun c => forall depth isSelected isExpanded e,
            FileTreeNode c depth isSelected isExpanded = Rejected e ->
            e = undefinedToLowerCase) l ->
  forall e,
    childRows nodeId depth isSelected isExpanded l = Rejected e ->
    e = undefinedToLowerCase.
Proof.
  induction 1 as [|c l Hc _ IH]; intros e; simpl; [done|].
  destruct (FileTreeNode c _ _ _) as [rows1|e1] eqn:H1.
  - destruct (childRows _ _ _ _ l) as [rows2|e2] eqn:H2; [done|].
    intros [= <-]. by apply IH.
  - intros [= <-]. by eapply Hc.
Qed.

Lemma FileTreeNode_error node : forall depth isSelected isExpanded e,
  FileTreeNode node depth isSelected isExpanded = Rejected e ->
  e = undefinedToLowerCase.
Proof.
  induction node as [node IH] using TreeNode_children_ind.
  intros depth isSelected isExpanded e.
  destruct (decide (type node = lit "directory")) as [Ht|Ht];
    [|rewrite FileTreeNode_file by done; by intros [= <-]].
  rewrite (FileTreeNode_directory node depth isSelected isExpanded Ht).
  cbv zeta.
  destruct (_ && _); [|done].
  destruct (childRows _ _ _ _ _) as [rows|e'] eqn:H'; [done|].
  intros [= <-]. by eapply childRows_error.
Qed.

(** X13. The tree view cannot show a file: [FileTreeNode] gives
    [FileIcon] the property [filename], so that for a node that is no
    directory the component throws the [TypeError] of reading
    [toLowerCase] from [undefined], whatever its other properties are;
    no other exception is thrown. With the expansion flag set, as
    [TreeVisualization] sets it for the root once it is mounted, the
    tree is shown exactly when all of its nodes are directories. *)
Theorem FileTreeNode_throws_on_files :
  (forall node depth isSelected isExpanded,
     type node <> lit "directory" ->
     FileTreeNode node depth isSelected isExpanded
     = Rejected undefinedToLowerCase) /\
  (forall node depth isSelected isExpanded e,
     FileTreeNode node depth isSelected isExpanded = Rejected e ->
     e = undefinedToLowerCase) /\
  (forall rootNode depth isSelected,
     (exists rows,
        FileTreeNode rootNode depth isSelected (Some (Flag true)) = Resolved rows) <->
     Forall (fun n => TreeSearch.isDirectory n = true) (flattenedNodes rootNode)).
Proof.
  split; [apply FileTreeNode_file|]. split; [apply FileTreeNode_error|].
  intros rootNode depth isSelected. split.
  - intros [rows Hrows]. by eapply FileTreeNode_resolved.
  - intros Hall.
    destruct (FileTreeNode_expanded rootNode depth isSelected Hall)
      as (rows & Hrows & _).
    by exists rows.
Qed.

Lemma childRows_unselected nodeId depth isExpanded (l : list TreeNode) :
  Forall (fun c => forall depth isExpanded rows,
            FileTreeNode c depth false isExpanded = Resolved rows ->
            Forall (fun r => rowSelected r = false) rows) l ->
  forall isSelected rows,
    Forall (fun c => isSelected && bool_decide (id c = nodeId) = false) l ->
    childRows nodeId depth isSelected isExpanded l = Resolved rows ->
    Forall (fun r => rowSelected r = false) rows.
Proof.
  induction 1 as [|c l Hc _ IH]; intros isSelected rows Hsel; simpl.
  - by intros [= <-].
  - apply Forall_cons in Hsel as [-> Hsel].
    destruct (FileTreeNode c _ _ _) as [rows1|] eqn:H1; [|done].
    destruct (childRows _ _ _ _ l) as [rows2|] eqn:H2; [|done].
    intros [= <-]. apply Forall_app. split; [by eapply Hc|by eapply IH].
Qed.

Lemma FileTreeNode_unselected node : forall depth isExpanded rows,
  FileTreeNode node depth false isExpanded = Resolved rows ->
  Forall (fun r => rowSelected r = false) rows.
Proof.
  induction node as [node IH] using TreeNode_children_ind.
  intros depth isExpanded rows.
  destruct (decide (type node = lit "directory")) as [Ht|Ht];
    [|by rewrite FileTreeNode_file].
  rewrite (FileTreeNode_directory node depth false isExpanded Ht). cbv zeta.
  destruct (_ && _).
  - destruct (childRows _ _ _ _ _) as [rows'|] eqn:H'; [|done].
    intros [= <-]. constructor; [done|].
    eapply (childRows_unselected _ _ _ _ IH false); [|exact H'].
    apply Forall_forall. by intros c _.
  - intros [= <-]. by constructor.
Qed.

(** X14. When [FileTreeNode] shows a tree, the first row is that of the
    node it is given, and the expansion flag decides alone which rows
    follow: with the flag set, one row for every node of the tree, in
    the order of [flattenedNodes]; with the flag cleared, none; a
    directory below has no say, since every child is given the flag of
    the root. If no child of the root has the identifier of the root,
    no row below the root is highlighted, whatever node is selected. *)
Theorem FileTreeNode_rows (rootNode : TreeNode) (depth : nat)
    (isSelected : bool) (isExpanded : option expanded) (rows : list row) :
  FileTreeNode rootNode depth isSelected isExpanded = Resolved rows ->
  Forall (fun child => id child <> id rootNode)
         (default [] (children rootNode)) ->
  (exists first rest,
     rows = first :: rest /\ rowId first = id rootNode /\
     rowDepth first = depth /\ rowSelected first = isSelected /\
     Forall (fun r => rowSelected r = false) rest) /\
  (isExpanded = Some (Flag true) ->
   map rowId rows = map TreeSearch.id (flattenedNodes rootNode)) /\
  (isExpanded = Some (Flag false) -> length rows = 1%nat).
Proof.
  intros Hrows Hids. split; [|split].
  - destruct (decide (type rootNode = lit "directory")) as [Ht|Ht];
      [|by rewrite FileTreeNode_file in Hrows].
    rewrite (FileTreeNode_directory rootNode depth isSelected isExpanded Ht)
      in Hrows.
    cbv zeta in Hrows. destruct (_ && _).
    + destruct (childRows _ _ _ _ _) as [rows'|] eqn:H'; [|done].
      injection Hrows as <-. eexists _, rows'. repeat split; try done.
      assert (Hu : Forall (fun c => forall depth isExpanded rows,
                FileTreeNode c depth false isExpanded = Resolved rows ->
                Forall (fun r => rowSelected r = false) rows)
                (default [] (children rootNode))).
      { apply Forall_forall. intros c _. apply FileTreeNode_unselected. }
      eapply (childRows_unselected _ _ _ _ Hu isSelected); [|exact H'].
      eapply Forall_impl; [exact Hids|]. intros c Hc. simpl in Hc.
      rewrite bool_decide_eq_false_2 by done. apply andb_false_r.
    + injection Hrows as <-. eexists _, []. repeat split; try done.
  - intros ->. pose proof (FileTreeNode_resolved _ _ _ _ Hrows) as Hall.
    destruct (FileTreeNode_expanded rootNode depth isSelected Hall)
      as (rows' & Hrows' & Hmap).
    congruence.
  - intros ->.
    destruct (decide (type rootNode = lit "directory")) as [Ht|Ht];
      [|by rewrite FileTreeNode_file in Hrows].
    rewrite (FileTreeNode_directory rootNode depth isSelected (Some (Flag false)) Ht)
      in Hrows.
    cbv zeta in Hrows. rewrite andb_false_r in Hrows. by injection Hrows as <-.
Qed.

End FileTreeNode.

Lemma FileTreeNode_rows_witness :
  exists rows,
    FileTreeNode asciiLower directoryTree 0 false (Some (Flag true)) = Resolved rows /\
    map rowId rows = [lit "1"; lit "2"; lit "3"; lit "4"].
Proof.
  destruct (FileTreeNode asciiLower directoryTree 0 false (Some (Flag true)))
    as [rows|] eqn:E; [|by vm_compute in E].
  exists rows. split; [done|].
  destruct (FileTreeNode_rows asciiLower directoryTree 0 false (Some (Flag true))
              rows E) as (_ & Hmap & _).
  - repeat constructor; by vm_compute.
  - by rewrite Hmap.
Defined.

(** The first rendering of a tree with a file among the children of its
    root, before the root is marked as expanded, throws. *)
Example sampleTree_throws :
  FileTreeNode asciiLower sampleTree 0 false None
  = Rejected undefinedToLowerCase /\
  FileTreeNode asciiLower sampleTree 0 false (Some (Flag true))
  = Rejected undefinedToLowerCase /\
  map rowId <$> (match FileTreeNode asciiLower sampleTree 0 false (Some (Flag false))
                 with Resolved rows => Some rows | Rejected _ => None end)
  = Some [lit "1"].
Proof. by vm_compute. Qed.

End TreeViewFacts.

(** ** DependencyGraph *)

Module DependencyGraphFacts.
Import JS DependencyGraph.

Local Open Scope Z_scope.

Lemma filter_sublist_l {A} (f : A -> bool) (l : list A) :
  List.filter f l `sublist_of` l.
Proof.
  induction l as [|a l IH]; simpl; [constructor|].
  destruct (f a); by constructor.
Qed.

Lemma elem_of_dependencies nodes edges nodeId n :
  n ∈ getNodeDependencies nodes edges nodeId <->
  n ∈ nodes /\
  exists edge, edge ∈ edges /\ source edge = nodeId /\ target edge = id n.
Proof.
  unfold getNodeDependencies.
  rewrite list_elem_of_In, List.filter_In, <- list_elem_of_In.
  apply and_iff_compat_l.
  rewrite bool_decide_eq_true, list_elem_of_fmap. split.
  - intros (edge & Ht & Hin).
    apply list_elem_of_In, List.filter_In in Hin as [Hin Hs].
    apply bool_decide_eq_true in Hs. exists edge.
    split; [by apply list_elem_of_In|done].
  - intros (edge & Hin & Hs & Ht). exists edge. split; [done|].
    apply list_elem_of_In, List.filter_In. split; [by apply list_elem_of_In|].
    by apply bool_decide_eq_true.
Qed.

Lemma elem_of_dependents nodes edges nodeId n :
  n ∈ getNodeDependents nodes edges nodeId <->
  n ∈ nodes /\
  exists edge, edge ∈ edges /\ target edge = nodeId /\ source edge = id n.
Proof.
  unfold getNodeDependents.
  rewrite list_elem_of_In, List.filter_In, <- list_elem_of_In.
  apply and_iff_compat_l.
  rewrite bool_decide_eq_true, list_elem_of_fmap. split.
  - intros (edge & Ht & Hin).
    apply list_elem_of_In, List.filter_In in Hin as [Hin Hs].
    apply bool_decide_eq_true in Hs. exists edge.
    split; [by apply list_elem_of_In|done].
  - intros (edge & Hin & Hs & Ht). exists edge. split; [done|].
    apply list_elem_of_In, List.filter_In. split; [by apply list_elem_of_In|].
    by apply bool_decide_eq_true.
Qed.

(** X15. The dependencies shown for a node are the nodes of the graph
    that an edge from it leads to, and its dependents those from which
    an edge leads to it: each list is a part of [nodes] in the order of
    [nodes], so that an edge to a file that is no node shows nothing and
    a repeated edge shows its node once; and among the nodes of the
    graph the two lists mirror each other: n is listed as a dependency
    of m exactly when m is listed as a dependent of n. *)
Theorem dependencies_mirror_dependents (nodes : list DependencyNode)
    (edges : list DependencyEdge) (nodeId : jsstring) :
  (forall n,
     n ∈ getNodeDependencies nodes edges nodeId <->
     n ∈ nodes /\
     exists edge, edge ∈ edges /\ source edge = nodeId /\ target edge = id n) /\
  (forall n,
     n ∈ getNodeDependents nodes edges nodeId <->
     n ∈ nodes /\
     exists edge, edge ∈ edges /\ target edge = nodeId /\ source edge = id n) /\
  getNodeDependencies nodes edges nodeId `sublist_of` nodes /\
  getNodeDependents nodes edges nodeId `sublist_of` nodes /\
  (forall m n,
     m ∈ nodes -> n ∈ nodes ->
     (n ∈ getNodeDependencies nodes edges (id m) <->
      m ∈ getNodeDependents nodes edges (id n))).
Proof.
  split; [apply elem_of_dependencies|]. split; [apply elem_of_dependents|].
  split; [apply filter_sublist_l|]. split; [apply filter_sublist_l|].
  intros m n Hm Hn. rewrite elem_of_dependencies, elem_of_dependents.
  split; intros (_ & edge & Hin & H1 & H2); (split; [done|]);
    by exists edge.
Qed.

Lemma last_cons {A} (l : list A) : forall a d,
  List.last (a :: l) d = List.last l a.
Proof.
  induction l as [|b l IH]; intros a d; [done|].
  change (List.last (a :: b :: l) d) with (List.last (b :: l) d).
  by rewrite !IH.
Qed.

Lemma moves_dragging (moves : list (Z * Z)) : forall st,
  isDragging st = true ->
  let st' := foldl handleMouse st (map (fun p => MouseMove p.1 p.2) moves) in
  isDragging st' = true /\
  dragStart st' = List.last moves (dragStart st) /\
  (pan st').1 - (dragStart st').1 = (pan st).1 - (dragStart st).1 /\
  (pan st').2 - (dragStart st').2 = (pan st).2 - (dragStart st).2.
Proof.
  induction moves as [|[px py] moves IH]; intros st Hd; [done|].
  cbn [map foldl]. cbv zeta in IH.
  set (st1 := handleMouse st (MouseMove (px, py).1 (px, py).2)).
  assert (Hst1 : st1 = mkDragState
            ((pan st).1 + (px - (dragStart st).1),
             (pan st).2 + (py - (dragStart st).2)) true (px, py)).
  { unfold st1, handleMouse. by rewrite Hd. }
  destruct (IH st1) as (H1 & H2 & H3 & H4); [by rewrite Hst1|].
  split; [done|].
  split; [by rewrite H2, Hst1, last_cons|].
  rewrite H3, H4, Hst1. simpl. lia.
Qed.

(** X16. While the button is held, the graph follows the pointer: after a
    press of the left button at one place and any moves, the pan has
    changed by the difference between the place of the last move and the
    place of the press, whatever the path in between was. Moves without
    the button held, and presses of another button, change nothing. *)
Theorem drag_follows_pointer (st : dragState) (x0 y0 : Z)
    (moves : list (Z * Z)) :
  let events := MouseDown 0 x0 y0 :: map (fun p => MouseMove p.1 p.2) moves in
  let st' := foldl handleMouse st events in
  let last := List.last moves (x0, y0) in
  pan st' = ((pan st).1 + (last.1 - x0), (pan st).2 + (last.2 - y0)) /\
  isDragging st' = true /\
  (forall st0, isDragging st0 = false ->
     foldl handleMouse st0 (map (fun p => MouseMove p.1 p.2) moves) = st0) /\
  (forall st0 button x y, button <> 0 ->
     handleMouse st0 (MouseDown button x y) = st0).
Proof.
  cbv zeta. cbn [foldl]. split; [|split; [|split]].
  - destruct (moves_dragging moves (handleMouse st (MouseDown 0 x0 y0)) eq_refl)
      as (_ & H2 & H3 & H4).
    cbv zeta in H2, H3, H4. simpl in H2, H3, H4. rewrite H2 in H3, H4.
    destruct (pan (foldl _ _ _)) as [px py]. simpl in *. f_equal; lia.
  - by destruct (moves_dragging moves (handleMouse st (MouseDown 0 x0 y0))
                   eq_refl) as (H1 & _).
  - intros st0 Hd. induction moves as [|p moves IH]; [done|]. simpl.
    by rewrite Hd, IH.
  - intros st0 button x y Hb. simpl.
    by rewrite (proj2 (Z.eqb_neq button 0) Hb).
Qed.

End DependencyGraphFacts.

(** ** SequenceDiagramContainer *)

Module SequenceDiagramContainerFacts.
Import SequenceDiagramContainer.

Local Open Scope Z_scope.

Lemma presses_cons d d' ds :
  presses d (d' :: ds)
  = (match d, d' with
     | up, up | down, down | left, left | right, right => 1
     | _, _ => 0
     end) + presses d ds.
Proof.
  unfold presses. simpl.
  destruct d, d'; simpl; lia.
Qed.

(** X17. [handlePan] moves the diagram by 30 for each press: after any
    presses the position is the one before, moved horizontally by 30
    times the number of presses of left less those of right, and
    vertically by 30 times the number of presses of up less those of
    down; the order of the presses makes no difference, and a press is
    undone by a press of the opposite direction. *)
Theorem handlePan_counts (position : panPosition) (ds : list direction) :
  foldl handlePan position ds
  = mkPan (x position + 30 * (presses left ds - presses right ds))
          (y position + 30 * (presses up ds - presses down ds)).
Proof.
  revert position. induction ds as [|d ds IH]; intros position.
  - simpl. unfold presses. simpl. destruct position. simpl. f_equal; lia.
  - cbn [foldl]. rewrite IH, !presses_cons.
    destruct d; simpl; unfold PAN_STEP; f_equal; lia.
Qed.

Example handlePan_sample :
  foldl handlePan (mkPan 0 0) [up; left; left; down; right; up]
  = mkPan 30 30.
Proof. by vm_compute. Qed.

End SequenceDiagramContainerFacts.

(** ** The tree view and its buttons *)

Module TreeViewStates.
Import JS StructureService Icons TreeView TreeViewFacts.

#[local] Arguments lit : simpl never.

Section States.
Variable toLowerCase : jsstring -> jsstring.

Abbreviation FileTreeNode := (FileTreeNode toLowerCase).
Abbreviation childRows := (childRows toLowerCase).
Abbreviation treeRows := (treeRows toLowerCase).

(** Which nodes are shown does not depend on the selection, and depends
    on the expansion flag through its truthiness only. *)
Lemma childRows_rowIds nodeId depth isExpanded isExpanded' (l : list TreeNode) :
  isTruthy <$> isExpanded = isTruthy <$> isExpanded' ->
  Forall (fun c => forall depth isSelected isSelected' isExpanded isExpanded',
            isTruthy <$> isExpanded = isTruthy <$> isExpanded' ->
            rowIds (FileTreeNode c depth isSelected isExpanded)
            = rowIds (FileTreeNode c depth isSelected' isExpanded')) l ->
  forall isSelected isSelected',
    rowIds (childRows nodeId depth isSelected isExpanded l)
    = rowIds (childRows nodeId depth isSelected' isExpanded' l).
Proof.
  intros He.
  induction 1 as [|c l Hc _ IH]; intros isSelected isSelected'; [done|].
  cbn [TreeView.childRows].
  specialize (IH isSelected isSelected').
  match goal with
  | |- rowIds match FileTreeNode c ?d ?s ?x with _ => _ end
       = rowIds match FileTreeNode c ?d ?s' ?x' with _ => _ end =>
      specialize (Hc d s s' x x')
  end.
  assert (Hx : rowIds (FileTreeNode c (S depth)
                 (isSelected && bool_decide (id c = nodeId))
                 match isExpanded with
                 | Some isExpanded =>
                     if bool_decide (type c = lit "directory")
                     then Some isExpanded else None
                 | None => None
                 end)
             = rowIds (FileTreeNode c (S depth)
                 (isSelected' && bool_decide (id c = nodeId))
                 match isExpanded' with
                 | Some isExpanded =>
                     if bool_decide (type c = lit "directory")
                     then Some isExpanded else None
                 | None => None
                 end)).
  { apply Hc. destruct isExpanded, isExpanded'; try done.
    by destruct (bool_decide _). }
  clear Hc.
  destruct (FileTreeNode c _ (isSelected && _) _) as [r1|e1],
    (FileTreeNode c _ (isSelected' && _) _) as [r1'|e1']; simpl in Hx;
    try done.
  destruct (childRows _ _ isSelected _ l) as [r2|e2],
    (childRows _ _ isSelected' _ l) as [r2'|e2']; simpl in IH |- *;
    try done.
  injection Hx as Hx. injection IH as IH. by rewrite !map_app, Hx, IH.
Qed.

Lemma FileTreeNode_rowIds_truthy node :
  forall depth isSelected isSelected' isExpanded isExpanded',
    isTruthy <$> isExpanded = isTruthy <$> isExpanded' ->
    rowIds (FileTreeNode node depth isSelected isExpanded)
    = rowIds (FileTreeNode node depth isSelected' isExpanded').
Proof.
  induction node as [node IH] using TreeNode_children_ind.
  intros depth isSelected isSelected' isExpanded isExpanded' He.
  destruct (decide (type node = lit "directory")) as [Ht|Ht];
    [|by rewrite !FileTreeNode_file].
  rewrite (FileTreeNode_directory toLowerCase node depth _ isExpanded Ht),
    (FileTreeNode_directory toLowerCase node depth _ isExpanded' Ht).
  cbv zeta.
  assert (Hn : isTruthy match isExpanded with
                        | Some isExpanded => isExpanded
                        | None => Flag (depth <? 2)
                        end
               = isTruthy match isExpanded' with
                          | Some isExpanded => isExpanded
                          | None => Flag (depth <? 2)
                          end).
  { destruct isExpanded, isExpanded'; try done. by injection He. }
  rewrite Hn. destruct (_ && _); [|done].
  pose proof (childRows_rowIds (id node) depth isExpanded isExpanded' _ He IH
                isSelected isSelected') as Hc.
  destruct (childRows _ _ isSelected _ _) as [r|e],
    (childRows _ _ isSelected' _ _) as [r'|e']; simpl in Hc |- *; try done.
  injection Hc as Hc. by rewrite Hc.
Qed.

Lemma FileTreeNode_rowIds node depth isSelected isSelected' isExpanded :
  rowIds (FileTreeNode node depth isSelected isExpanded)
  = rowIds (FileTreeNode node depth isSelected' isExpanded).
Proof. by apply FileTreeNode_rowIds_truthy. Qed.

Lemma childRows_within nodeId depth isSelected levels (l : list TreeNode) :
  Forall (fun c => forall depth isSelected rows,
            FileTreeNode c depth isSelected None = Resolved rows ->
            map rowId rows = map id (within (2 - depth) c)) l ->
  levels = 2 - S depth ->
  forall rows,
    childRows nodeId depth isSelected None l = Resolved rows ->
    map rowId rows = map id (flat_map (within levels) l).
Proof.
  intros Hl ->. induction Hl as [|c l Hc _ IH]; intros rows; simpl.
  - by intros [= <-].
  - destruct (FileTreeNode c _ _ _) as [r1|] eqn:H1; [|done].
    destruct (childRows _ _ _ _ l) as [r2|] eqn:H2; [|done].
    intros [= <-]. rewrite !map_app, (Hc _ _ _ H1), (IH _ eq_refl). done.
Qed.

Lemma FileTreeNode_within node : forall depth isSelected rows,
  FileTreeNode node depth isSelected None = Resolved rows ->
  map rowId rows = map id (within (2 - depth) node).
Proof.
  induction node as [node IH] using TreeNode_children_ind.
  intros depth isSelected rows.
  destruct (decide (type node = lit "directory")) as [Ht|Ht];
    [|by rewrite FileTreeNode_file].
  rewrite (FileTreeNode_directory toLowerCase node depth isSelected None Ht).
  cbv zeta.
  destruct (default [] (children node)) as [|c l] eqn:Hl.
  - simpl. intros [= <-]. destruct (2 - depth); simpl; by rewrite ?Hl.
  - rewrite bool_decide_eq_false_2 by done. cbn [negb andb].
    destruct (depth <? 2) eqn:Hd.
    + apply Nat.ltb_lt in Hd.
      destruct (childRows _ _ _ _ _) as [rows'|] eqn:H'; [|done].
      intros [= <-].
      apply (childRows_within _ _ _ (2 - S depth) _ IH eq_refl) in H'.
      replace (2 - depth) with (S (2 - S depth)) by lia.
      simpl. by rewrite Hl, H'.
    + apply Nat.ltb_ge in Hd. intros [= <-].
      by replace (2 - depth) with 0 by lia.
Qed.

Lemma expandedEntry_own (expandedNodes : gmap jsstring bool) nodeId b :
  expandedNodes !! nodeId = Some b ->
  expandedEntry expandedNodes nodeId = Some (Flag b).
Proof. intros H. unfold expandedEntry, getProp. by rewrite H. Qed.

Lemma expandedEntry_none (expandedNodes : gmap jsstring bool) nodeId :
  expandedNodes !! nodeId = None ->
  expandedEntry expandedNodes nodeId
  = if inObjectPrototype nodeId then Some BuiltinValue else None.
Proof.
  intros H. unfold expandedEntry, getProp. rewrite H.
  destruct (expandedNodes !! lit "__proto__"); simpl;
    by destruct (inObjectPrototype nodeId).
Qed.

Lemma handleExpandAll_root rootNode st :
  type rootNode = lit "directory" ->
  isTruthy <$> expandedEntry (expandedNodes (handleExpandAll rootNode st))
                 (id rootNode)
  = Some true.
Proof.
  intros Ht. unfold handleExpandAll. simpl.
  rewrite flattenedNodes_children. simpl.
  rewrite bool_decide_eq_true_2 by done. simpl.
  generalize (flat_map flattenedNodes (default [] (children rootNode))).
  set (step := fun (allExpanded : gmap jsstring bool) node =>
         if TreeSearch.isDirectory node
            && negb (bool_decide (TreeSearch.id node = lit "__proto__"))
         then <[TreeSearch.id node := true]> allExpanded
         else allExpanded).
  destruct (decide (id rootNode = lit "__proto__")) as [Hp|Hp].
  - rewrite bool_decide_eq_true_2 by done. simpl. intros l.
    assert (Hkeep : forall l (m : gmap jsstring bool),
      m !! lit "__proto__" = None ->
      foldl step m l !! lit "__proto__" = None).
    { clear l. induction l as [|n l IHl]; intros m Hm; [done|]. simpl.
      apply IHl. unfold step.
      destruct (TreeSearch.isDirectory n); [|done]. simpl.
      destruct (decide (TreeSearch.id n = lit "__proto__")) as [He|Hne].
      - by rewrite bool_decide_eq_true_2.
      - rewrite bool_decide_eq_false_2 by done. simpl.
        by rewrite lookup_insert_ne. }
    rewrite Hp, expandedEntry_none by (apply Hkeep, lookup_empty).
    done.
  - rewrite bool_decide_eq_false_2 by done. simpl. intros l.
    assert (Hkeep : forall l (m : gmap jsstring bool),
      m !! id rootNode = Some true ->
      foldl step m l !! id rootNode = Some true).
    { clear l. induction l as [|n l IHl]; intros m Hm; [done|]. simpl.
      apply IHl. unfold step.
      destruct (_ && _); [|done].
      destruct (decide (TreeSearch.id n = id rootNode)) as [->|Hne].
      - by rewrite lookup_insert_eq.
      - by rewrite lookup_insert_ne. }
    rewrite (expandedEntry_own _ _ true); [done|].
    apply Hkeep. by rewrite lookup_insert_eq.
Qed.

(** X20. Which rows the tree view shows depends on its state only
    through what [expandedNodes[rootNode.id]] gives. Once mounted, and
    after "Expand All" on a root that is a directory, the whole tree is
    asked for. After "Collapse All" the entry is missing: when the
    identifier of the root is no property name of [Object.prototype], a
    tree that is shown then has the rows of the nodes down to two levels
    below the root, not the root alone; when it is one, the built-in of
    that name is found and the whole tree is asked for. A click on a
    node with another identifier than the root, directory or not, leaves
    the nodes that are shown as they were; a click on a root that is a
    directory stores the negation of what was found for it: [true] when
    nothing was found, [false] when a built-in was. *)
Theorem treeRows_states (rootNode : TreeNode) (st : viewState) :
  (forall isSelected,
     rowIds (treeRows rootNode (mounted rootNode st))
     = rowIds (FileTreeNode rootNode 0 isSelected (Some (Flag true)))) /\
  (forall isSelected,
     type rootNode = lit "directory" ->
     rowIds (treeRows rootNode (handleExpandAll rootNode st))
     = rowIds (FileTreeNode rootNode 0 isSelected (Some (Flag true)))) /\
  (forall isSelected,
     rowIds (treeRows rootNode (handleCollapseAll st))
     = rowIds (FileTreeNode rootNode 0 isSelected
                 (if inObjectPrototype (id rootNode)
                  then Some (Flag true) else None))) /\
  (forall rows,
     inObjectPrototype (id rootNode) = false ->
     treeRows rootNode (handleCollapseAll st) = Resolved rows ->
     map rowId rows = map id (within 2 rootNode)) /\
  (forall node,
     id node <> id rootNode ->
     rowIds (treeRows rootNode (handleNodeClick node st))
     = rowIds (treeRows rootNode st)) /\
  (type rootNode = lit "directory" ->
   expandedNodes (handleNodeClick rootNode st) !! id rootNode
   = Some (match expandedNodes st !! id rootNode with
           | Some b => negb b
           | None => negb (inObjectPrototype (id rootNode))
           end)).
Proof.
  unfold treeRows, TreeView.treeRows.
  split; [|split; [|split; [|split; [|split]]]].
  - intros isSelected. simpl.
    rewrite (expandedEntry_own _ _ true) by apply lookup_insert_eq.
    apply FileTreeNode_rowIds.
  - intros isSelected Ht. apply FileTreeNode_rowIds_truthy.
    by rewrite (handleExpandAll_root rootNode st Ht).
  - intros isSelected. simpl.
    rewrite expandedEntry_none by apply lookup_empty.
    apply FileTreeNode_rowIds_truthy.
    by destruct (inObjectPrototype (id rootNode)).
  - intros rows Hid. simpl.
    rewrite expandedEntry_none by apply lookup_empty. rewrite Hid.
    apply FileTreeNode_within.
  - intros node Hne.
    assert (He : expandedEntry (expandedNodes (handleNodeClick node st))
                   (id rootNode)
                 = expandedEntry (expandedNodes st) (id rootNode)).
    { unfold handleNodeClick. destruct (bool_decide _); [|done].
      simpl. unfold expandedEntry, getProp.
      rewrite lookup_insert_ne by done.
      destruct (expandedNodes st !! id rootNode); [done|].
      destruct (<[id node:=_]> (expandedNodes st) !! lit "__proto__"),
        (expandedNodes st !! lit "__proto__"); simpl;
        by destruct (inObjectPrototype (id rootNode)). }
    rewrite He. apply FileTreeNode_rowIds.
  - intros Ht. unfold handleNodeClick.
    rewrite bool_decide_eq_true_2 by done. simpl.
    rewrite lookup_insert_eq. f_equal.
    destruct (expandedNodes st !! id rootNode) as [b|] eqn:E.
    + by rewrite (expandedEntry_own _ _ b).
    + rewrite expandedEntry_none by done.
      by destruct (inObjectPrototype (id rootNode)).
Qed.

End States.

(** After "Collapse All" the rows of [src], [components] and [common],
    three levels, and [utils] are still shown. *)
Example collapse_all_shows_levels :
  rowIds (treeRows asciiLower directoryTree
            (handleCollapseAll (mkViewState None ∅)))
  = Resolved [lit "1"; lit "2"; lit "3"; lit "4"] /\
  rowIds (treeRows asciiLower directoryTree
            (handleNodeClick directoryTree
               (mounted directoryTree (mkViewState None ∅))))
  = Resolved [lit "1"].
Proof. by vm_compute. Qed.

(** A root with the identifier [constructor]: after "Collapse All" every
    level is shown, and the first click on the root stores [false]. *)
Example constructor_root :
  rowIds (treeRows asciiLower deepTree
            (handleCollapseAll (mkViewState None ∅)))
  = Resolved [lit "constructor"; lit "2"; lit "3"; lit "4"] /\
  rowIds (treeRows asciiLower (renamed (lit "root") deepTree)
            (handleCollapseAll (mkViewState None ∅)))
  = Resolved [lit "root"; lit "2"; lit "3"] /\
  expandedNodes (handleNodeClick deepTree (mkViewState None ∅))
  !! lit "constructor" = Some false /\
  expandedNodes (handleNodeClick (renamed (lit "root") deepTree)
                   (mkViewState None ∅))
  !! lit "root" = Some true.
Proof. by vm_compute. Qed.

End TreeViewStates.
